(** * zfecth: the request execution pipeline of [dist/zfecth.js]

    A shallow embedding of the factory function [zjs] of [dist/zfecth.js]:
    the hook chains, the retry executor [fetchWithRetry], the TTL cache,
    the signal composition and the concurrency queue [enqueue], and of the
    env chain [createEnvChain], followed by the properties of the design
    document that concern them and by further properties of the code.

    Conventions of the embedding.
    - JavaScript numbers are integers ([Z]); [Math.random()] is a fraction
      [num / den] with [0 <= num < den].
    - A user callback returns a value or throws ([js_result]).  An
      interceptor or a transform is handed the live object: what a call of
      it does is the argument as the call leaves it, together with what the
      call returns or throws.  What a global error handler does is observed
      through the list [notified] of the client state.
    - The host (AbortController, timers, [fetch], [Date.now]) is part of the
      client state: a store of signals, a clock, and the list of transport
      calls made so far.  What the host does while the code is suspended at
      an [await] is given from outside, as an event of the step function
      [step] or as the per-attempt environment of [fetchWithRetry]. *)

From Stdlib Require Import ZArith String Ascii List Lia Bool.
From stdpp Require Import base option list gmap strings pretty.

Set Warnings "-register-all".

Local Open Scope string_scope.
Local Open Scope Z_scope.
Local Open Scope list_scope.
Local Open Scope stdpp_scope.

(** ** JavaScript values *)

Inductive value :=
| VUndefined
| VNull
| VBool (b : bool)
| VNum (n : Z)
| VStr (s : string)
| VObj (fields : list (string * value)).

(** [ToBoolean]: what [v || w] and [if (v)] test. *)
Definition truthy (v : value) : bool :=
  match v with
  | VUndefined | VNull => false
  | VBool b => b
  | VNum n => negb (n =? 0)%Z
  | VStr s => negb (s =? "")%string
  | VObj _ => true
  end.

(** [v || w] *)
Definition js_or (v w : value) : value := if truthy v then v else w.

(** [v != null] *)
Definition not_nullish (v : value) : bool :=
  match v with
  | VUndefined | VNull => false
  | _ => true
  end.

(** [typeof v === "string"] *)
Definition is_string (v : value) : bool :=
  match v with
  | VStr _ => true
  | _ => false
  end.

(** The outcome of calling a user callback inside [try { ... } catch { }]. *)
Inductive js_result (A : Type) :=
| Returns (a : A)
| Throws.
Arguments Returns {A} a.
Arguments Throws {A}.

(** ** Strings *)

Definition is_upper (c : ascii) : bool :=
  let n := nat_of_ascii c in (65 <=? n)%nat && (n <=? 90)%nat.

Definition is_lower (c : ascii) : bool :=
  let n := nat_of_ascii c in (97 <=? n)%nat && (n <=? 122)%nat.

Definition lower_ascii (c : ascii) : ascii :=
  if is_upper c then ascii_of_nat (nat_of_ascii c + 32) else c.

Definition upper_ascii (c : ascii) : ascii :=
  if is_lower c then ascii_of_nat (nat_of_ascii c - 32) else c.

Fixpoint toLowerCase (s : string) : string :=
  match s with
  | EmptyString => EmptyString
  | String c s' => String (lower_ascii c) (toLowerCase s')
  end.

Fixpoint toUpperCase (s : string) : string :=
  match s with
  | EmptyString => EmptyString
  | String c s' => String (upper_ascii c) (toUpperCase s')
  end.

(** [s.startsWith(p)] *)
Definition startsWith (p s : string) : bool := String.prefix p s.

(** [s.includes(sub)] *)
Definition includes (sub s : string) : bool :=
  match String.index 0 sub s with
  | Some _ => true
  | None => false
  end.

(** [s.replace(/^\/+/, '')] *)
Fixpoint strip_leading_slashes (s : string) : string :=
  match s with
  | String "/"%char s' => strip_leading_slashes s'
  | _ => s
  end.

(** [s.replace(/\/+$/, '')] *)
Fixpoint strip_trailing_slashes (s : string) : string :=
  match s with
  | EmptyString => EmptyString
  | String c s' =>
      match strip_trailing_slashes s' with
      | EmptyString => if Ascii.eqb c "/"%char then EmptyString else String c EmptyString
      | r => String c r
      end
  end.

(** [s.endsWith("/")] *)
Fixpoint endsWith_slash (s : string) : bool :=
  match s with
  | EmptyString => false
  | String c EmptyString => Ascii.eqb c "/"%char
  | String _ s' => endsWith_slash s'
  end.

(** [/^https?:\/\//i.test(s)] *)
Definition is_absolute_url (s : string) : bool :=
  let l := toLowerCase s in
  startsWith "http://" l || startsWith "https://" l.

(** ** Objects with string keys, in insertion order *)

Definition obj (A : Type) := list (string * A).

(** [o[k] = v] *)
Fixpoint obj_set {A} (k : string) (v : A) (o : obj A) : obj A :=
  match o with
  | [] => [(k, v)]
  | (k', v') :: o' =>
      if (k =? k')%string then (k, v) :: o' else (k', v') :: obj_set k v o'
  end.

(** [o[k]] *)
Fixpoint obj_get {A} (k : string) (o : obj A) : option A :=
  match o with
  | [] => None
  | (k', v') :: o' => if (k =? k')%string then Some v' else obj_get k o'
  end.

(** [Object.assign(target, source)] *)
Definition obj_assign {A} (target source : obj A) : obj A :=
  foldl (fun t kv => obj_set kv.1 kv.2 t) target source.

(** [Object.keys(o).find(k => k.toLowerCase() === name)] *)
Definition find_key_ci {A} (name : string) (o : obj A) : option string :=
  fst <$> List.find (fun kv => (toLowerCase kv.1 =? name)%string) o.

Definition headers := obj string.

(** ** Data model *)

(** The per-call options object [opts] of [handleFetchRaw]; an absent
    property is [None] (for [data]: [VUndefined]). *)
Record call_opts := {
  opt_headers : option headers;
  opt_body : option value;        (* Some b: the key "body" is present *)
  opt_data : value;               (* VUndefined when absent *)
  opt_timeout : option Z;         (* Some t: the key "timeout" is present *)
  opt_retry : option Z;           (* Some r: the key "retry" is present *)
  opt_retries : option Z;
  opt_retryDelay : option Z;
  opt_cache : option Z;
  opt_signal : option nat;        (* an AbortSignal of the signal store *)
  opt_group : option nat          (* opts.group.signal *)
}.

(** [n || d] for a number [n] that may be absent. *)
Definition number_or (o : option Z) (d : Z) : Z :=
  match o with
  | Some n => if n =? 0 then d else n
  | None => d
  end.

(** The [options] object handed to [fetch]. *)
Record fetch_options := {
  fo_method : string;
  fo_headers : headers;
  fo_body : value;
  fo_signal : option nat
}.

(** The interceptor config [cfg] built at lines 302-311. *)
Record request_config := {
  cfg_url : string;
  cfg_method : string;
  cfg_options : fetch_options;
  cfg_timeout : Z;
  cfg_retries : Z;
  cfg_retryDelay : Z;
  cfg_cacheTTL : Z;
  cfg_original : string * call_opts
}.

(** What [fetch] resolves to: the parts of a [Response] the code reads. *)
Record raw_response := {
  raw_ok : bool;
  raw_status : Z;
  raw_statusText : string;
  raw_headers : option headers;   (* None: res.headers is missing *)
  raw_json : js_result value;     (* res.json() *)
  raw_text : js_result value      (* res.text() *)
}.

(** The response object of lines 367-375. *)
Record response := {
  rsp_ok : bool;
  rsp_status : Z;
  rsp_statusText : string;
  rsp_headers : option headers;
  rsp_data : value;
  rsp_config : request_config;
  rsp_time : Z
}.

(** An error value: what [fetch] rejected with, or the [Error] of line 385
    with its added fields [status] and [response]. *)
Record error := {
  err_name : string;
  err_message : string;
  err_status : option Z;
  err_response : option response
}.

(** The failure object of lines 346-352 and 389. *)
Record failure_result := {
  fr_ok : bool;
  fr_status : Z;
  fr_data : value;
  fr_error : error;
  fr_config : request_config
}.

(** The value a request resolves to. *)
Inductive result :=
| Response (r : response)
| FailureResult (f : failure_result).

(** How a promise settles. *)
Inductive settlement :=
| Resolved (r : result)
| Rejected (e : error).

(** [maxConcurrent]: a number or [Infinity]. *)
Inductive limit :=
| Finite (n : Z)
| Infinity.

Definition below_limit (a : Z) (l : limit) : bool :=
  match l with
  | Finite n => a <? n
  | Infinity => true
  end.

(** A hook is handed the live object.  What a call of it does is a pair:
    the argument as the call leaves it (a hook may change its argument in
    place, also before it throws), and what the call returns or throws.  A
    callback returning [None] returned a falsy value (undefined, null,
    false, 0, an empty string); a truthy value returned by an interceptor
    is a config, respectively a response.  The second argument of a
    transform (the headers, the response) is handed to it for reading. *)
Definition request_interceptor :=
  request_config -> request_config * js_result (option request_config).
Definition response_interceptor := response -> response * js_result (option response).
Definition request_transform := value -> headers -> value * js_result value.
Definition response_transform := value -> response -> value * js_result value.
Definition error_handler := error -> request_config -> js_result unit.

(** [defaultConfig], lines 67-78; [baseURL] is the resolved string. *)
Record config := {
  baseURL : string;
  timeout : Z;
  default_headers : headers;
  interceptors_request : list request_interceptor;
  interceptors_response : list response_interceptor;
  transformRequest : list request_transform;
  transformResponse : list response_transform;
  maxConcurrent : limit
}.

Record cache_entry := {
  ce_value : response;
  ce_expiresAt : option Z
}.

(** ** Host state: abort signals *)

(** An [AbortSignal]: its [aborted] flag and the controllers that the
    listeners registered on it abort.  Every listener the code registers
    has the form [() => target.abort()]. *)
Record signal_state := {
  aborted : bool;
  listeners : list nat
}.

Abbreviation signal_store := (list signal_state).

Definition fresh_signal : signal_state := {| aborted := false; listeners := [] |}.

(** [new AbortController()]: the new signal is the last of the store. *)
Definition new_controller (st : signal_store) : signal_store * nat :=
  (st ++ [fresh_signal], length st).

(** [src.addEventListener("abort", () => target.abort(), { once: true })].
    On a signal that has already fired the listener is kept but never
    called: the abort event is dispatched only once, see [abort_signal]. *)
Definition addEventListener (src target : nat) (st : signal_store) : signal_store :=
  match st !! src with
  | Some sg => <[src := {| aborted := aborted sg; listeners := listeners sg ++ [target] |}]> st
  | None => st
  end.

Definition is_aborted (s : nat) (st : signal_store) : bool :=
  match st !! s with
  | Some sg => aborted sg
  | None => false
  end.

(** [controller.abort()]: nothing on a signal that has fired; otherwise the
    flag is set and the listeners run, in registration order, each aborting
    its target.  A cascade visits each signal at most once, so [fuel] larger
    than the number of signals is never exhausted. *)
Fixpoint abort_signal (fuel : nat) (s : nat) (st : signal_store) : signal_store :=
  match fuel with
  | O => st
  | S fuel' =>
      match st !! s with
      | Some sg =>
          if aborted sg then st
          else foldl (fun acc t => abort_signal fuel' t acc)
                     (<[s := {| aborted := true; listeners := [] |}]> st)
                     (listeners sg)
      | None => st
      end
  end.

Definition abort (s : nat) (st : signal_store) : signal_store :=
  abort_signal (S (length st)) s st.

(** ** Client state *)

(** The variables captured by the closure [task], lines 334-401. *)
Record task_closure := {
  tk_cfg : request_config;
  tk_finalUrl : string;
  tk_options : fetch_options;
  tk_timeout : Z;
  tk_cacheKey : string;
  tk_cacheTTL : Z
}.

(** Where an enqueued request stands. *)
Inductive phase :=
| Waiting                                        (* its [run] is in [queue] *)
| InFlight (attempt : Z) (ac : nat) (start : Z)  (* at [await fetch], line 224 *)
| Sleeping (attempt : Z) (delay : Z) (start : Z) (* at the backoff timer, lines 236 and 246 *)
| Done (s : settlement).

(** The promise returned by one call of [handleFetchRaw]. *)
Inductive promise :=
| CacheHit (r : response)                        (* returned at line 329 *)
| Task (k : task_closure) (p : phase).           (* returned by [enqueue] *)

(** One call of [fetch(url, finalOptions)]. *)
Record transport_call := {
  tc_url : string;
  tc_options : fetch_options
}.

(** One call [h(err, cfg)] of the global error handler number [note_handler],
    and whether it returned or threw. *)
Record notification := {
  note_handler : nat;
  note_error : error;
  note_config : request_config;
  note_outcome : js_result unit
}.

Record client := {
  defaultConfig : config;
  memoryCache : gmap string cache_entry;
  globalErrors : list error_handler;
  activeCount : Z;
  queue : list nat;                 (* the waiting [run] closures, by promise *)
  promises : list promise;
  signals : signal_store;
  now : Z;                          (* Date.now() *)
  transport_calls : list transport_call;
  notified : list notification
}.

Definition set_defaultConfig (f : config -> config) (c : client) : client :=
  {| defaultConfig := f (defaultConfig c); memoryCache := memoryCache c;
     globalErrors := globalErrors c; activeCount := activeCount c;
     queue := queue c; promises := promises c; signals := signals c;
     now := now c; transport_calls := transport_calls c; notified := notified c |}.

Definition set_memoryCache (f : gmap string cache_entry -> gmap string cache_entry) (c : client) : client :=
  {| defaultConfig := defaultConfig c; memoryCache := f (memoryCache c);
     globalErrors := globalErrors c; activeCount := activeCount c;
     queue := queue c; promises := promises c; signals := signals c;
     now := now c; transport_calls := transport_calls c; notified := notified c |}.

Definition set_globalErrors (f : list error_handler -> list error_handler) (c : client) : client :=
  {| defaultConfig := defaultConfig c; memoryCache := memoryCache c;
     globalErrors := f (globalErrors c); activeCount := activeCount c;
     queue := queue c; promises := promises c; signals := signals c;
     now := now c; transport_calls := transport_calls c; notified := notified c |}.

Definition set_activeCount (f : Z -> Z) (c : client) : client :=
  {| defaultConfig := defaultConfig c; memoryCache := memoryCache c;
     globalErrors := globalErrors c; activeCount := f (activeCount c);
     queue := queue c; promises := promises c; signals := signals c;
     now := now c; transport_calls := transport_calls c; notified := notified c |}.

Definition set_queue (f : list nat -> list nat) (c : client) : client :=
  {| defaultConfig := defaultConfig c; memoryCache := memoryCache c;
     globalErrors := globalErrors c; activeCount := activeCount c;
     queue := f (queue c); promises := promises c; signals := signals c;
     now := now c; transport_calls := transport_calls c; notified := notified c |}.

Definition set_promises (f : list promise -> list promise) (c : client) : client :=
  {| defaultConfig := defaultConfig c; memoryCache := memoryCache c;
     globalErrors := globalErrors c; activeCount := activeCount c;
     queue := queue c; promises := f (promises c); signals := signals c;
     now := now c; transport_calls := transport_calls c; notified := notified c |}.

Definition set_signals (f : signal_store -> signal_store) (c : client) : client :=
  {| defaultConfig := defaultConfig c; memoryCache := memoryCache c;
     globalErrors := globalErrors c; activeCount := activeCount c;
     queue := queue c; promises := promises c; signals := f (signals c);
     now := now c; transport_calls := transport_calls c; notified := notified c |}.

Definition set_now (f : Z -> Z) (c : client) : client :=
  {| defaultConfig := defaultConfig c; memoryCache := memoryCache c;
     globalErrors := globalErrors c; activeCount := activeCount c;
     queue := queue c; promises := promises c; signals := signals c;
     now := f (now c); transport_calls := transport_calls c; notified := notified c |}.

Definition set_transport_calls (f : list transport_call -> list transport_call) (c : client) : client :=
  {| defaultConfig := defaultConfig c; memoryCache := memoryCache c;
     globalErrors := globalErrors c; activeCount := activeCount c;
     queue := queue c; promises := promises c; signals := signals c;
     now := now c; transport_calls := f (transport_calls c); notified := notified c |}.

Definition set_notified (f : list notification -> list notification) (c : client) : client :=
  {| defaultConfig := defaultConfig c; memoryCache := memoryCache c;
     globalErrors := globalErrors c; activeCount := activeCount c;
     queue := queue c; promises := promises c; signals := signals c;
     now := now c; transport_calls := transport_calls c; notified := f (notified c) |}.

(** ** Env chaining helper, lines 12-57 *)

(** [String(v)]; a number is an integer, printed in decimal (from 1e21 on
    JavaScript prints the exponent notation instead). *)
Definition to_String (v : value) : string :=
  match v with
  | VUndefined => "undefined"
  | VNull => "null"
  | VBool true => "true"
  | VBool false => "false"
  | VNum n => pretty n
  | VStr s => s
  | VObj _ => "[object Object]"
  end.

(** The object [ctx] of line 16; [None] is [null]. *)
Record env_ctx := {
  ctx_dev : option string;
  ctx_prod : option string;
  ctx_staging : option string;
  ctx_other : obj string
}.

(** [createEnvChain()], which is also [zjs.env()], lines 496-498: the
    chain is identified with its [ctx]. *)
Definition createEnvChain : env_ctx :=
  {| ctx_dev := None; ctx_prod := None; ctx_staging := None; ctx_other := [] |}.

(** The setters of lines 19-22. *)
Definition env_dev (url : value) (ctx : env_ctx) : env_ctx :=
  {| ctx_dev := Some (to_String url); ctx_prod := ctx_prod ctx;
     ctx_staging := ctx_staging ctx; ctx_other := ctx_other ctx |}.

Definition env_prod (url : value) (ctx : env_ctx) : env_ctx :=
  {| ctx_dev := ctx_dev ctx; ctx_prod := Some (to_String url);
     ctx_staging := ctx_staging ctx; ctx_other := ctx_other ctx |}.

Definition env_staging (url : value) (ctx : env_ctx) : env_ctx :=
  {| ctx_dev := ctx_dev ctx; ctx_prod := ctx_prod ctx;
     ctx_staging := Some (to_String url); ctx_other := ctx_other ctx |}.

Definition env_otherEnv (name url : value) (ctx : env_ctx) : env_ctx :=
  match name with
  | VStr n =>
      {| ctx_dev := ctx_dev ctx; ctx_prod := ctx_prod ctx; ctx_staging := ctx_staging ctx;
         ctx_other := obj_set n (to_String url) (ctx_other ctx) |}
  | _ => ctx
  end.

(** The host names [resolve] falls back on: [location.hostname] and
    [global.process.env.HOSTNAME]; [None] where the host has none. *)
Record host_names := {
  location_hostname : option string;
  process_env_HOSTNAME : option string
}.

(** [a || b] for a string [a] that may be [null]. *)
Definition string_or (a : option string) (b : string) : string :=
  match a with
  | Some s => if (s =? "")%string then b else s
  | None => b
  end.

(** Lines 33-40: the host name that [resolve] classifies. *)
Definition hostname_of (host : host_names) (hostname : value) : string :=
  let ambient :=
    let from_process :=
      match process_env_HOSTNAME host with
      | Some p => if negb (p =? "")%string then toLowerCase p else ""
      | None => ""
      end in
    match location_hostname host with
    | Some l => if negb (l =? "")%string then toLowerCase l else from_process
    | None => from_process
    end in
  match hostname with
  | VStr s => if negb (s =? "")%string then toLowerCase s else ambient
  | _ => ambient
  end.

(** [h.includes("localhost") || h.startsWith("127.") || h === "0.0.0.0"] *)
Definition localhost_like (h : string) : bool :=
  includes "localhost" h || startsWith "127." h || (h =? "0.0.0.0")%string.

(** [resolve(hostname)], lines 32-50. *)
Definition resolve (ctx : env_ctx) (host : host_names) (hostname : value) : string :=
  let h := hostname_of host hostname in
  if localhost_like h
  then string_or (ctx_dev ctx) (string_or (ctx_prod ctx) (string_or (ctx_staging ctx) ""))
  else if includes "staging" h
  then string_or (ctx_staging ctx) (string_or (ctx_prod ctx) (string_or (ctx_dev ctx) ""))
  else string_or (ctx_prod ctx) (string_or (ctx_dev ctx) (string_or (ctx_staging ctx) "")).

(** [toString()], line 52. *)
Definition env_toString (ctx : env_ctx) (host : host_names) : string :=
  resolve ctx host VUndefined.

(** The property [baseURL] of the argument of [zjs]. *)
Inductive baseURL_arg :=
| BaseAbsent
| BaseString (s : string)
| BaseEnvChain (ctx : env_ctx).

(** Lines 68 and 80-89: the base URL that [zjs] keeps.  An env chain is
    resolved when the client is created; its [resolve] does not throw. *)
Definition baseURL_of (host : host_names) (b : baseURL_arg) : string :=
  match b with
  | BaseAbsent => ""
  | BaseString s => s
  | BaseEnvChain ctx => resolve ctx host VUndefined
  end.

(** ** The factory function [zjs] *)

Section Zjs.

(** [JSON.stringify], a function of the host. *)
Variable JSON_stringify : value -> string.

(** *** Utilities, lines 112-136 *)

Definition fullUrl (dc : config) (url : string) : string :=
  if (url =? "")%string then baseURL dc
  else if is_absolute_url url then url
  else
    let base := baseURL dc in
    if (base =? "")%string then url
    else if endsWith_slash base || startsWith "/" url
         then strip_trailing_slashes base +:+ "/" +:+ strip_leading_slashes url
         else base +:+ "/" +:+ strip_leading_slashes url.

Definition makeCacheKey (method url : string) (body : value) : string :=
  let b := if truthy body then JSON_stringify body else "" in
  toUpperCase method +:+ "::" +:+ url +:+ "::" +:+ b.

(** [entry.expiresAt && Date.now() > entry.expiresAt] *)
Definition expired (entry : cache_entry) (t : Z) : bool :=
  match ce_expiresAt entry with
  | Some e => negb (e =? 0) && (e <? t)
  | None => false
  end.

Definition getCached (key : string) (c : client) : client * option response :=
  match memoryCache c !! key with
  | None => (c, None)
  | Some entry =>
      if expired entry (now c)
      then (set_memoryCache (delete key) c, None)
      else (c, Some (ce_value entry))
  end.

(** *** Interceptors and transforms, lines 155-185 *)

(** One turn of the loops of lines 158-160 and 165-167:
    [try { modified = fn(modified) || modified; } catch (e) { }].  When
    [fn] returns nothing or throws, [modified] is still the object [fn] was
    handed, as [fn] left it. *)
Definition intercept {A} (fn : A -> A * js_result (option A)) (modified : A) : A :=
  let '(after, out) := fn modified in
  match out with
  | Returns (Some r) => r
  | Returns None => after
  | Throws => after
  end.

(** What a call can have done to the value it was handed: changed the
    fields of an object; a primitive value is as it was. *)
Definition in_place (before after : value) : value :=
  match before, after with
  | VObj _, VObj fields => VObj fields
  | _, _ => before
  end.

(** One turn of the loops of lines 174-176 and 181-183:
    [try { d = fn(d, extra) || d; } catch { }]. *)
Definition transform {B} (extra : B) (fn : value -> B -> value * js_result value)
    (d : value) : value :=
  let '(after, out) := fn d extra in
  let d := in_place d after in
  match out with
  | Returns v => js_or v d
  | Throws => d
  end.

Definition applyRequestInterceptors (dc : config) (cfg : request_config) : request_config :=
  foldl (fun modified fn => intercept fn modified) cfg (interceptors_request dc).

Definition applyResponseInterceptors (dc : config) (res : response) : response :=
  foldl (fun modified fn => intercept fn modified) res (interceptors_response dc).

Definition applyTransformRequest (dc : config) (data : value) (hdrs : headers) : value :=
  foldl (fun d fn => transform hdrs fn d) data (transformRequest dc).

Definition applyTransformResponse (dc : config) (data : value) (res : response) : value :=
  foldl (fun d fn => transform res fn d) data (transformResponse dc).

(** *** Global error runner, lines 187-192 *)

Definition runGlobalErrors (err : error) (cfg : request_config) (c : client) : client :=
  set_notified
    (fun log => log ++ imap (fun i h => {| note_handler := i; note_error := err;
                                           note_config := cfg; note_outcome := h err cfg |})
                            (globalErrors c))
    c.

(** *** Retry executor, lines 194-253 *)

(** The argument of [fetchWithRetry]; [None] is a property left undefined,
    which the destructuring of lines 196-202 replaces by its default. *)
Record retry_config := {
  rc_url : string;
  rc_options : fetch_options;
  rc_retries : option Z;
  rc_retryDelay : option Z;
  rc_retryOn : option (list Z);
  rc_timeout : Z
}.

Definition retries_of (rc : retry_config) : Z := default 0 (rc_retries rc).
Definition retryDelay_of (rc : retry_config) : Z := default 300 (rc_retryDelay rc).
Definition retryOn_of (rc : retry_config) : list Z := default [429; 502; 503; 504] (rc_retryOn rc).

(** [typeof timeout === "number" && timeout > 0]: the timer of line 219 is set. *)
Definition timer_armed (rc : retry_config) : bool := 0 <? rc_timeout rc.

(** [Math.random()]: the fraction [rnd_num / rnd_den]. *)
Record fraction := {
  rnd_num : Z;
  rnd_den : Z
}.

(** [retryDelay * Math.pow(2, attempt - 1)] *)
Definition backoff (retryDelay attempt : Z) : Z := retryDelay * 2 ^ (attempt - 1).

(** [Math.floor(Math.random() * retryDelay)], the product taken as the exact
    number. *)
Definition jitter (retryDelay : Z) (rnd : fraction) : Z :=
  (rnd_num rnd * retryDelay) `div` rnd_den rnd.

(** The argument of [setTimeout] at lines 236 and 246. *)
Definition retry_wait (rc : retry_config) (attempt : Z) (rnd : fraction) : Z :=
  backoff (retryDelay_of rc) attempt + jitter (retryDelay_of rc) rnd.

(** [Object.assign({}, options, { signal: ac.signal })], line 221. *)
Definition finalOptions (options : fetch_options) (ac : nat) : fetch_options :=
  {| fo_method := fo_method options; fo_headers := fo_headers options;
     fo_body := fo_body options; fo_signal := Some ac |}.

(** Lines 208-224, up to the call of [fetch]: the controller of the
    attempt, its listener on the signal passed in, and the transport call
    with [finalOptions]. *)
Definition open_attempt (rc : retry_config) (c : client) : client * nat :=
  let '(st1, ac) := new_controller (signals c) in
  let st2 :=
    match fo_signal (rc_options rc) with
    | Some s => addEventListener s ac st1
    | None => st1
    end in
  (set_transport_calls
     (fun l => l ++ [{| tc_url := rc_url rc; tc_options := finalOptions (rc_options rc) ac |}])
     (set_signals (fun _ => st2) c),
   ac).

(** What [await fetch(url, finalOptions)] yields. *)
Inductive fetch_outcome :=
| Fulfils (res : raw_response)
| Fails (err : error).

(** How one iteration of the loop ends. *)
Inductive loop_action :=
| Throw (err : error)                          (* lines 230 and 239 *)
| Retry (delay : Z)                            (* lines 236-237 and 246-247 *)
| Return (res : raw_response) (duration : Z).  (* line 251 *)

(** Lines 225-251: the rest of the iteration, once [fetch] has settled.
    [ac_aborted] is [ac.signal.aborted], [start] the instant of line 205 and
    [t] the instant at which the iteration ends. *)
Definition after_attempt (rc : retry_config) (attempt : Z) (ac_aborted : bool)
    (rnd : fraction) (start t : Z) (o : fetch_outcome) : loop_action :=
  match o with
  | Fails err =>
      if ac_aborted && (err_name err =? "AbortError")%string then Throw err
      else if attempt <=? retries_of rc then Retry (retry_wait rc attempt rnd)
      else Throw err
  | Fulfils res =>
      if negb (raw_ok res) && (attempt <=? retries_of rc)
         && existsb (Z.eqb (raw_status res)) (retryOn_of rc)
      then Retry (retry_wait rc attempt rnd)
      else Return res (t - start)
  end.

(** What the host does while one iteration of the loop is suspended. *)
Record attempt_env := {
  env_cancels : list nat;      (* signals cancelled while [fetch] is pending *)
  env_timer : bool;            (* the timer of line 219, if set, fires meanwhile *)
  env_elapsed : Z;             (* time until [fetch] settles *)
  env_outcome : fetch_outcome;
  env_random : fraction;       (* Math.random() at lines 235 and 245 *)
  env_sleep_cancels : list nat (* signals cancelled during the backoff wait *)
}.

(** The host while [fetch] is pending: cancellations, the timeout callback
    [() => ac.abort()] of line 219, the clock. *)
Definition during_attempt (rc : retry_config) (ac : nat) (e : attempt_env) (c : client) : client :=
  let st1 := foldl (fun st s => abort s st) (signals c) (env_cancels e) in
  let st2 := if env_timer e && timer_armed rc then abort ac st1 else st1 in
  set_now (fun t => t + env_elapsed e) (set_signals (fun _ => st2) c).

(** The host during [await new Promise(r => setTimeout(r, delay))]. *)
Definition during_sleep (delay : Z) (e : attempt_env) (c : client) : client :=
  set_now (fun t => t + delay)
    (set_signals (fun st => foldl (fun st s => abort s st) st (env_sleep_cancels e)) c).

(** The state of a call of [fetchWithRetry]. *)
Inductive fetch_state :=
| Returned (res : raw_response) (duration : Z)
| Thrown (err : error)
| Pending.

(** The loop of lines 207-252, run against the environments of its
    successive iterations; when they are used up the call stays suspended
    at its [await fetch]. *)
Fixpoint retry_loop (rc : retry_config) (attempt start : Z) (envs : list attempt_env)
    (c : client) : client * fetch_state :=
  let attempt := attempt + 1 in
  let '(c1, ac) := open_attempt rc c in
  match envs with
  | [] => (c1, Pending)
  | e :: envs' =>
      let c2 := during_attempt rc ac e c1 in
      match after_attempt rc attempt (is_aborted ac (signals c2)) (env_random e)
                          start (now c2) (env_outcome e) with
      | Throw err => (c2, Thrown err)
      | Retry delay => retry_loop rc attempt start envs' (during_sleep delay e c2)
      | Return res duration => (c2, Returned res duration)
      end
  end.

Definition fetchWithRetry (rc : retry_config) (envs : list attempt_env) (c : client)
    : client * fetch_state :=
  retry_loop rc 0 (now c) envs c.

(** *** Core handler, lines 255-404 *)

(** [res.headers.get(name)] *)
Definition headers_get (name : string) (h : headers) : option string :=
  snd <$> List.find (fun kv => (toLowerCase kv.1 =? toLowerCase name)%string) h.

(** Lines 259-264. *)
Definition body_of (opts : call_opts) : value :=
  match opt_body opts with
  | Some b => b
  | None => opt_data opts
  end.

Definition timeout_of (dc : config) (opts : call_opts) : Z :=
  match opt_timeout opts with
  | Some t => t
  | None => timeout dc
  end.

Definition retries_from (opts : call_opts) : Z :=
  match opt_retry opts with
  | Some r => r
  | None => number_or (opt_retries opts) 0
  end.

(** Lines 275-284: the body put into [options]. *)
Definition attach_body (method : string) (hdrs : headers) (body : value) : value :=
  if not_nullish body && negb (method =? "GET")%string && negb (method =? "HEAD")%string
  then
    let ct :=
      match find_key_ci "content-type" hdrs with
      | Some k => default "" (obj_get k hdrs)
      | None => ""
      end in
    if negb (ct =? "")%string && includes "application/json" ct && negb (is_string body)
    then VStr (JSON_stringify body)
    else body
  else VUndefined.

(** Lines 286-299: the signal put into [options]. *)
Definition compose_signals (opts : call_opts) (st : signal_store) : signal_store * option nat :=
  match opt_group opts with
  | Some g =>
      let '(st1, combined) := new_controller st in
      let st2 :=
        match opt_signal opts with
        | Some s => addEventListener s combined st1
        | None => st1
        end in
      (addEventListener g combined st2, Some combined)
  | None => (st, opt_signal opts)
  end.

(** Lines 257-311: the config handed to the request interceptors. *)
Definition initial_config (method urlPath : string) (opts : call_opts) (c : client)
    : client * request_config :=
  let dc := defaultConfig c in
  let url := fullUrl dc urlPath in
  let hdrs := obj_assign (obj_assign [] (default_headers dc)) (default [] (opt_headers opts)) in
  let body := applyTransformRequest dc (body_of opts) hdrs in
  let '(st, sig) := compose_signals opts (signals c) in
  let options :=
    {| fo_method := toUpperCase method; fo_headers := obj_assign [] hdrs;
       fo_body := attach_body method (obj_assign [] hdrs) body; fo_signal := sig |} in
  (set_signals (fun _ => st) c,
   {| cfg_url := url; cfg_method := fo_method options; cfg_options := options;
      cfg_timeout := timeout_of dc opts; cfg_retries := retries_from opts;
      cfg_retryDelay := number_or (opt_retryDelay opts) 300;
      cfg_cacheTTL := number_or (opt_cache opts) 0;
      cfg_original := (urlPath, opts) |}).

(** Lines 257-318: the config after the request-side hooks. *)
Definition build_config (method urlPath : string) (opts : call_opts) (c : client)
    : client * request_config :=
  let '(c1, cfg) := initial_config method urlPath opts c in
  (c1, applyRequestInterceptors (defaultConfig c) cfg).

(** Lines 320-331: the cache lookup, and on a hit the response returned. *)
Definition cached_response (dc : config) (cached : response) : response :=
  let response := applyResponseInterceptors dc cached in
  {| rsp_ok := rsp_ok response; rsp_status := rsp_status response;
     rsp_statusText := rsp_statusText response; rsp_headers := rsp_headers response;
     rsp_data := js_or (applyTransformResponse dc (rsp_data response) response)
                       (rsp_data response);
     rsp_config := rsp_config response; rsp_time := rsp_time response |}.

Definition cacheable (cfg : request_config) (cacheTTL : Z) : bool :=
  (cfg_method cfg =? "GET")%string && (0 <? cacheTTL).

(** Lines 344-355: [fetchWithRetry] threw. *)
Definition task_catch (k : task_closure) (err : error) (c : client) : client * result :=
  let out := {| fr_ok := false; fr_status := 0; fr_data := VNull;
                fr_error := err; fr_config := tk_cfg k |} in
  (runGlobalErrors err (tk_cfg k) c, FailureResult out).

(** Lines 359-365: the data read from the reply. *)
Definition read_data (res : raw_response) : value :=
  let contentType :=
    match raw_headers res with
    | Some h => default "" (headers_get "Content-Type" h)
    | None => ""
    end in
  if includes "application/json" contentType
  then match raw_json res with Returns v => v | Throws => VNull end
  else match raw_text res with Returns v => v | Throws => VNull end.

(** Lines 367-381: the response after the response-side hooks. *)
Definition final_response (dc : config) (k : task_closure) (res : raw_response)
    (duration : Z) : response :=
  let response :=
    {| rsp_ok := raw_ok res; rsp_status := raw_status res;
       rsp_statusText := raw_statusText res; rsp_headers := raw_headers res;
       rsp_data := read_data res; rsp_config := tk_cfg k; rsp_time := duration |} in
  let response :=
    {| rsp_ok := rsp_ok response; rsp_status := rsp_status response;
       rsp_statusText := rsp_statusText response; rsp_headers := rsp_headers response;
       rsp_data := applyTransformResponse dc (rsp_data response) response;
       rsp_config := rsp_config response; rsp_time := rsp_time response |} in
  applyResponseInterceptors dc response.

(** Line 385: [new Error(`HTTP ${res.status} ${res.statusText}`)], with the
    fields added at lines 386-387. *)
Definition http_error (res : raw_response) (finalResponse : response) : error :=
  {| err_name := "Error";
     err_message := "HTTP " +:+ pretty (raw_status res) +:+ " " +:+ raw_statusText res;
     err_status := Some (raw_status res);
     err_response := Some finalResponse |}.

(** Lines 357-400: [fetchWithRetry] returned. *)
Definition task_complete (k : task_closure) (res : raw_response) (duration : Z)
    (c : client) : client * result :=
  let finalResponse := final_response (defaultConfig c) k res duration in
  if negb (raw_ok res) then
    let err := http_error res finalResponse in
    (runGlobalErrors err (tk_cfg k) c,
     FailureResult {| fr_ok := false; fr_status := raw_status res;
                      fr_data := rsp_data finalResponse; fr_error := err;
                      fr_config := tk_cfg k |})
  else if cacheable (tk_cfg k) (tk_cacheTTL k) then
    (set_memoryCache
       (<[tk_cacheKey k :=
            {| ce_value := finalResponse;
               ce_expiresAt := if 0 <? tk_cacheTTL k
                               then Some (now c + tk_cacheTTL k * 1000) else None |}]>)
       c,
     Response finalResponse)
  else (c, Response finalResponse).

Definition retry_config_of (k : task_closure) : retry_config :=
  {| rc_url := tk_finalUrl k; rc_options := tk_options k;
     rc_retries := Some (cfg_retries (tk_cfg k));
     rc_retryDelay := Some (cfg_retryDelay (tk_cfg k));
     rc_retryOn := None; rc_timeout := tk_timeout k |}.

(** The closure [task] of lines 334-401, run against the environments of
    its transport attempts; [None] while it is still suspended. *)
Definition task (k : task_closure) (envs : list attempt_env) (c : client)
    : client * option settlement :=
  let '(c1, fs) := fetchWithRetry (retry_config_of k) envs c in
  match fs with
  | Pending => (c1, None)
  | Thrown err =>
      let '(c2, out) := task_catch k err c1 in (c2, Some (Resolved out))
  | Returned res duration =>
      let '(c2, out) := task_complete k res duration c1 in (c2, Some (Resolved out))
  end.

(** What [handleFetchRaw] does before it returns: it serves the request
    from the cache (line 329) or hands [task] to [enqueue] (line 403). *)
Inductive handled :=
| Served (r : response)
| Enqueued (k : task_closure).

(** Lines 316-403: with the config the request interceptors produced, the
    cache lookup and the hand-over to the queue. *)
Definition serve_or_enqueue (opts : call_opts) (c1 : client) (cfg : request_config)
    : client * handled :=
  let options := cfg_options cfg in
  let timeout := cfg_timeout cfg in
  let finalUrl := cfg_url cfg in
  let cacheTTL := number_or (opt_cache opts) 0 in
  let cacheKey := makeCacheKey (cfg_method cfg) finalUrl (fo_body options) in
  let k := {| tk_cfg := cfg; tk_finalUrl := finalUrl; tk_options := options;
              tk_timeout := timeout; tk_cacheKey := cacheKey; tk_cacheTTL := cacheTTL |} in
  if cacheable cfg cacheTTL then
    match getCached cacheKey c1 with
    | (c2, Some cached) => (c2, Served (cached_response (defaultConfig c2) cached))
    | (c2, None) => (c2, Enqueued k)
    end
  else (c1, Enqueued k).

Definition handleFetchRaw (method urlPath : string) (opts : call_opts) (c : client)
    : client * handled :=
  let '(c1, cfg) := build_config method urlPath opts c in
  serve_or_enqueue opts c1 cfg.

(** *** Concurrency queue, lines 91-110 *)

(** [run], lines 97-99, up to the first suspension of [task]: the slot is
    taken, [fetchWithRetry] records its start instant and makes the first
    transport attempt. *)
Definition run (id : nat) (c : client) : client :=
  let c1 := set_activeCount (fun n => n + 1) c in
  match promises c1 !! id with
  | Some (Task k _) =>
      let '(c2, ac) := open_attempt (retry_config_of k) c1 in
      set_promises (<[id := Task k (InFlight 1 ac (now c2))]>) c2
  | _ => c1
  end.

(** [enqueue(task)], lines 95-110; the promise it returns is the last of
    [promises]. *)
Definition enqueue (k : task_closure) (c : client) : client :=
  let id := length (promises c) in
  let c1 := set_promises (fun ps => ps ++ [Task k Waiting]) c in
  if below_limit (activeCount c1) (maxConcurrent (defaultConfig c1))
  then run id c1
  else set_queue (fun q => q ++ [id]) c1.

(** Lines 99-105: [task()] has settled; its promise settles the same way
    ([.then(resolve, reject)]) and the [finally] callback runs. *)
Definition settled (id : nat) (k : task_closure) (s : settlement) (c : client) : client :=
  let c1 := set_promises (<[id := Task k (Done s)]>) c in
  let c2 := set_activeCount (fun n => n - 1) c1 in
  match queue c2 with
  | [] => c2
  | next :: rest => run next (set_queue (fun _ => rest) c2)
  end.

(** *** API instance, lines 406-490 *)

Inductive verb := Get | Post | Put | Patch | Delete | Head.

Definition verb_name (v : verb) : string :=
  match v with
  | Get => "get"
  | Post => "post"
  | Put => "put"
  | Patch => "patch"
  | Delete => "delete"
  | Head => "head"
  end.

Definition verb_of_name (s : string) : option verb :=
  List.find (fun v => (verb_name v =? s)%string) [Get; Post; Put; Patch; Delete; Head].

Definition isObj (v : value) : bool :=
  match v with
  | VObj _ => true
  | _ => false
  end.

Definition empty_opts : call_opts :=
  {| opt_headers := None; opt_body := None; opt_data := VUndefined; opt_timeout := None;
     opt_retry := None; opt_retries := None; opt_retryDelay := None; opt_cache := None;
     opt_signal := None; opt_group := None |}.

(** A parameter with a default value, [(x = d) => ...]: the default is taken
    when the argument is [undefined] or left out. *)
Definition param_default (d v : value) : value :=
  match v with
  | VUndefined => d
  | _ => v
  end.

(** [api[method](url, bodyOrOptions = {}, maybeOptions = {})], lines
    410-426: the arguments it passes to [handleFetchRaw].  For get, head and
    delete the second argument of the call is [options] and [body] is not
    looked at; for the other verbs the second argument is [body], [{}] when
    it is [undefined] or left out, and the third [options]. *)
Definition api_verb (v : verb) (url : string) (body : value) (options : call_opts)
    : string * string * call_opts :=
  match v with
  | Get | Head | Delete => (verb_name v, url, options)
  | Post | Put | Patch =>
      let body := param_default (VObj []) body in
      let hdrs := default [] (opt_headers options) in
      let hdrs :=
        match find_key_ci "content-type" hdrs with
        | None => if isObj body then obj_set "Content-Type" "application/json" hdrs else hdrs
        | Some _ => hdrs
        end in
      (verb_name v, url,
       {| opt_headers := Some hdrs; opt_body := Some body; opt_data := opt_data options;
          opt_timeout := opt_timeout options; opt_retry := opt_retry options;
          opt_retries := opt_retries options; opt_retryDelay := opt_retryDelay options;
          opt_cache := opt_cache options; opt_signal := opt_signal options;
          opt_group := opt_group options |})
  end.

(** The argument of [api.request]: [ro_method] is [options.method] (empty
    when absent), [ro_url] is [options.url || options.path ||
    options.pathname || ""]. *)
Record request_options := {
  ro_method : string;
  ro_url : string;
  ro_opts : call_opts
}.

(** [api.request(options)], lines 429-439. *)
Definition api_request (ro : request_options) : string * string * call_opts :=
  let method := toLowerCase (if (ro_method ro =? "")%string then "GET" else ro_method ro) in
  let url := ro_url ro in
  match verb_of_name method with
  | Some v =>
      match v with
      | Get | Head | Delete => api_verb v url VUndefined (ro_opts ro)
      | Post | Put | Patch =>
          api_verb v url
            (js_or (opt_data (ro_opts ro))
                   (js_or (default VUndefined (opt_body (ro_opts ro))) (VObj [])))
            (ro_opts ro)
      end
  | None => (method, url, ro_opts ro)
  end.

(** [delete o[k]] *)
Definition obj_delete {A} (k : string) (o : obj A) : obj A :=
  filter (fun kv => kv.1 ≠ k) o.

Definition set_interceptors_request
    (f : list request_interceptor -> list request_interceptor) (dc : config) : config :=
  {| baseURL := baseURL dc; timeout := timeout dc; default_headers := default_headers dc;
     interceptors_request := f (interceptors_request dc);
     interceptors_response := interceptors_response dc;
     transformRequest := transformRequest dc; transformResponse := transformResponse dc;
     maxConcurrent := maxConcurrent dc |}.

Definition set_interceptors_response
    (f : list response_interceptor -> list response_interceptor) (dc : config) : config :=
  {| baseURL := baseURL dc; timeout := timeout dc; default_headers := default_headers dc;
     interceptors_request := interceptors_request dc;
     interceptors_response := f (interceptors_response dc);
     transformRequest := transformRequest dc; transformResponse := transformResponse dc;
     maxConcurrent := maxConcurrent dc |}.

Definition set_transformRequest
    (f : list request_transform -> list request_transform) (dc : config) : config :=
  {| baseURL := baseURL dc; timeout := timeout dc; default_headers := default_headers dc;
     interceptors_request := interceptors_request dc;
     interceptors_response := interceptors_response dc;
     transformRequest := f (transformRequest dc); transformResponse := transformResponse dc;
     maxConcurrent := maxConcurrent dc |}.

Definition set_transformResponse
    (f : list response_transform -> list response_transform) (dc : config) : config :=
  {| baseURL := baseURL dc; timeout := timeout dc; default_headers := default_headers dc;
     interceptors_request := interceptors_request dc;
     interceptors_response := interceptors_response dc;
     transformRequest := transformRequest dc; transformResponse := f (transformResponse dc);
     maxConcurrent := maxConcurrent dc |}.

Definition set_default_headers (f : headers -> headers) (dc : config) : config :=
  {| baseURL := baseURL dc; timeout := timeout dc; default_headers := f (default_headers dc);
     interceptors_request := interceptors_request dc;
     interceptors_response := interceptors_response dc;
     transformRequest := transformRequest dc; transformResponse := transformResponse dc;
     maxConcurrent := maxConcurrent dc |}.

(** [defaultConfig.interceptors.request.push(fn)] and the like, lines 443-450. *)
Definition add_request_interceptor (fn : request_interceptor) : config -> config :=
  set_interceptors_request (fun l => l ++ [fn]).

Definition add_response_interceptor (fn : response_interceptor) : config -> config :=
  set_interceptors_response (fun l => l ++ [fn]).

Definition add_request_transform (fn : request_transform) : config -> config :=
  set_transformRequest (fun l => l ++ [fn]).

Definition add_response_transform (fn : response_transform) : config -> config :=
  set_transformResponse (fun l => l ++ [fn]).

(** The argument [userConfig] of [zjs]; [uc_maxConcurrent] is [None] when
    the property is not a number. *)
Record user_config := {
  uc_baseURL : string;
  uc_timeout : Z;
  uc_headers : headers;
  uc_maxConcurrent : option Z
}.

(** [zjs(userConfig)], lines 62-93, created at instant [t0]. *)
Definition zjs (uc : user_config) (t0 : Z) : client :=
  {| defaultConfig :=
       {| baseURL := uc_baseURL uc; timeout := uc_timeout uc;
          default_headers := obj_assign [] (uc_headers uc);
          interceptors_request := []; interceptors_response := [];
          transformRequest := []; transformResponse := [];
          maxConcurrent := match uc_maxConcurrent uc with
                           | Some n => Finite n
                           | None => Infinity
                           end |};
     memoryCache := ∅; globalErrors := []; activeCount := 0; queue := [];
     promises := []; signals := []; now := t0; transport_calls := []; notified := [] |}.

(** *** The client as a transition system

    One event is one uninterrupted run of JavaScript: a call of the API, or
    the host resuming a suspended [task].  The host may fire the timeout
    timer of a pending attempt at any moment; real time is not enforced. *)
Inductive event :=
| ApiVerb (v : verb) (url : string) (body : value) (options : call_opts)
| ApiRequest (ro : request_options)
| ApiUse (request : option request_interceptor) (response : option response_interceptor)
| ApiAddTransformRequest (fn : request_transform)
| ApiAddTransformResponse (fn : response_transform)
| ApiOnError (fn : error_handler)
| ApiSetToken (token type : string)
| ApiClearCache
| ApiDeleteCacheKey (method url : string) (body : value)
| NewToken                                  (* api.CancelToken(), api.cancelGroup() *)
| Cancel (s : nat)                          (* token.cancel(), group.cancel() *)
| TimerFires (id : nat)                     (* the callback of line 219 *)
| TransportSettles (id : nat) (o : fetch_outcome) (rnd : fraction)
| BackoffElapses (id : nat)                 (* the timer of lines 236 and 246 *)
| Tick (dt : Z).

(** [handleFetchRaw(method, url, opts)] and the promise it returns. *)
Definition call (args : string * string * call_opts) (c : client) : client :=
  let '(method, url, opts) := args in
  match handleFetchRaw method url opts c with
  | (c1, Served r) => set_promises (fun ps => ps ++ [CacheHit r]) c1
  | (c1, Enqueued k) => enqueue k c1
  end.

Definition step (e : event) (c : client) : client :=
  match e with
  | ApiVerb v url body options => call (api_verb v url body options) c
  | ApiRequest ro => call (api_request ro) c
  | ApiUse request response =>
      let c1 := match request with
                | Some fn => set_defaultConfig (add_request_interceptor fn) c
                | None => c
                end in
      match response with
      | Some fn => set_defaultConfig (add_response_interceptor fn) c1
      | None => c1
      end
  | ApiAddTransformRequest fn => set_defaultConfig (add_request_transform fn) c
  | ApiAddTransformResponse fn => set_defaultConfig (add_response_transform fn) c
  | ApiOnError fn => set_globalErrors (fun l => l ++ [fn]) c
  | ApiSetToken token type =>
      if (token =? "")%string
      then set_defaultConfig (set_default_headers (obj_delete "Authorization")) c
      else set_defaultConfig
             (set_default_headers (obj_set "Authorization" (type +:+ " " +:+ token))) c
  | ApiClearCache => set_memoryCache (fun _ => ∅) c
  | ApiDeleteCacheKey method url body =>
      set_memoryCache (delete (makeCacheKey method url body)) c
  | NewToken => set_signals (fun st => (new_controller st).1) c
  | Cancel s => set_signals (abort s) c
  | TimerFires id =>
      match promises c !! id with
      | Some (Task k (InFlight _ ac _)) =>
          if timer_armed (retry_config_of k) then set_signals (abort ac) c else c
      | _ => c
      end
  | TransportSettles id o rnd =>
      match promises c !! id with
      | Some (Task k (InFlight attempt ac start)) =>
          match after_attempt (retry_config_of k) attempt (is_aborted ac (signals c))
                              rnd start (now c) o with
          | Throw err =>
              let '(c1, out) := task_catch k err c in settled id k (Resolved out) c1
          | Retry delay => set_promises (<[id := Task k (Sleeping attempt delay start)]>) c
          | Return res duration =>
              let '(c1, out) := task_complete k res duration c in
              settled id k (Resolved out) c1
          end
      | _ => c
      end
  | BackoffElapses id =>
      match promises c !! id with
      | Some (Task k (Sleeping attempt _ start)) =>
          let '(c1, ac) := open_attempt (retry_config_of k) c in
          set_promises (<[id := Task k (InFlight (attempt + 1) ac start)]>) c1
      | _ => c
      end
  | Tick dt => set_now (fun t => t + dt) c
  end.

(** The client after a sequence of events. *)
Definition run_events (es : list event) (c : client) : client :=
  foldl (fun c e => step e c) c es.

(** The states the client can be in: those reached from [zjs(userConfig)]. *)
Inductive reachable (uc : user_config) (t0 : Z) : client -> Prop :=
| reachable_init : reachable uc t0 (zjs uc t0)
| reachable_step c e : reachable uc t0 c -> reachable uc t0 (step e c).

(** *** Observations used in the statements *)

(** The number of transport calls made between two states. *)
Definition calls_between (c c' : client) : Z :=
  Z.of_nat (length (transport_calls c')) - Z.of_nat (length (transport_calls c)).


(** The number of signals of a store that have not fired. *)
Fixpoint unfired (st : signal_store) : nat :=
  match st with
  | [] => 0
  | sg :: st' => ((if aborted sg then 0 else 1) + unfired st')%nat
  end.

(** [y] has fired, or [x] has not and a listener on [x] will abort [y]. *)
Definition propagates (st : signal_store) (x y : nat) : Prop :=
  is_aborted y st = true
  \/ (exists sg, st !! x = Some sg /\ aborted sg = false /\ y ∈ listeners sg).

(** What one cascade guarantees, given enough fuel. *)
Definition cascade_ok (st st' : signal_store) : Prop :=
  length st' = length st
  /\ (unfired st' <= unfired st)%nat
  /\ (forall x, is_aborted x st = true -> is_aborted x st' = true)
  /\ (forall x, is_aborted x st' = false -> st' !! x = st !! x)
  /\ (forall x y, (y < length st)%nat -> propagates st x y -> propagates st' x y).

(** [response.data = data] *)
Definition set_rsp_data (data : value) (r : response) : response :=
  {| rsp_ok := rsp_ok r; rsp_status := rsp_status r; rsp_statusText := rsp_statusText r;
     rsp_headers := rsp_headers r; rsp_data := data; rsp_config := rsp_config r;
     rsp_time := rsp_time r |}.

(** The response object of lines 367-375, before the response-side hooks. *)
Definition raw_to_response (k : task_closure) (res : raw_response) (duration : Z) : response :=
  {| rsp_ok := raw_ok res; rsp_status := raw_status res;
     rsp_statusText := raw_statusText res; rsp_headers := raw_headers res;
     rsp_data := read_data res; rsp_config := tk_cfg k; rsp_time := duration |}.

(** The order of the response side as the design document states it:
    the transform chain shapes the data, then the interceptors see the
    shaped response. *)
Definition transform_then_intercept (dc : config) (r : response) : response :=
  applyResponseInterceptors dc (set_rsp_data (applyTransformResponse dc (rsp_data r) r) r).

(** The converse order: the interceptors see the response as it is, then
    the transform chain shapes the data of what they return. *)
Definition intercept_then_transform (dc : config) (r : response) : response :=
  let r' := applyResponseInterceptors dc r in
  set_rsp_data (js_or (applyTransformResponse dc (rsp_data r') r') (rsp_data r')) r'.

(** What the queue sees of a promise. *)
Inductive kind :=
| KHit        (* served from the cache, never enqueued *)
| KWaiting    (* in the wait list *)
| KRunning    (* holds a slot: its task is suspended in [fetchWithRetry] *)
| KDone.      (* settled *)

#[global] Instance kind_eq_dec : EqDecision kind.
Proof. solve_decision. Defined.

Definition kind_of (p : promise) : kind :=
  match p with
  | CacheHit _ => KHit
  | Task _ Waiting => KWaiting
  | Task _ (InFlight _ _ _) => KRunning
  | Task _ (Sleeping _ _ _) => KRunning
  | Task _ (Done _) => KDone
  end.

Definition kinds (c : client) : list kind := kind_of <$> promises c.

(** The number of running tasks. *)
Fixpoint count_running (ks : list kind) : Z :=
  match ks with
  | [] => 0
  | KRunning :: ks' => 1 + count_running ks'
  | _ :: ks' => count_running ks'
  end.

(** The waiting tasks, in the order of their arrival; the first promise
    of [ks] has number [i]. *)
Fixpoint waiting_from (i : nat) (ks : list kind) : list nat :=
  match ks with
  | [] => []
  | KWaiting :: ks' => i :: waiting_from (S i) ks'
  | _ :: ks' => waiting_from (S i) ks'
  end.

(** Admission follows arrival: no task that has been admitted arrived
    after a task that still waits. *)
Definition fifo (ks : list kind) : Prop :=
  forall i j, (i < j)%nat -> ks !! i = Some KWaiting ->
              ks !! j <> Some KRunning /\ ks !! j <> Some KDone.

Definition within_limit (a : Z) (l : limit) : Prop :=
  match l with
  | Finite n => a <= n
  | Infinity => True
  end.

(** The invariant of the concurrency queue. *)
Definition queue_ok (c : client) : Prop :=
  activeCount c = count_running (kinds c)
  /\ queue c = waiting_from 0 (kinds c)
  /\ (queue c <> [] -> below_limit (activeCount c) (maxConcurrent (defaultConfig c)) = false)
  /\ within_limit (activeCount c) (maxConcurrent (defaultConfig c))
  /\ fifo (kinds c).

(** What every operation on the signal store keeps: the signals there are,
    and the cancellations that are due to propagate. *)
Definition store_grows (st st' : signal_store) : Prop :=
  (length st <= length st')%nat
  /\ (forall x, is_aborted x st = true -> is_aborted x st' = true)
  /\ (forall x y, (y < length st)%nat -> propagates st x y -> propagates st' x y).


(** A promise that has not been rejected. *)
Definition not_rejected (p : promise) : Prop :=
  match p with
  | Task _ (Done (Rejected _)) => False
  | _ => True
  end.

(** *** One task under the step function

    The events by which the host plays an environment of [fetchWithRetry]
    to the task of promise [id]. *)

(** While the attempt is pending, up to the settlement of [fetch]. *)
Definition attempt_events (id : nat) (e : attempt_env) : list event :=
  (Cancel <$> env_cancels e)
  ++ (if env_timer e then [TimerFires id] else [])
  ++ [Tick (env_elapsed e); TransportSettles id (env_outcome e) (env_random e)].

(** During the backoff wait, up to the timer that ends it. *)
Definition sleep_events (id : nat) (delay : Z) (e : attempt_env) : list event :=
  (Cancel <$> env_sleep_cancels e) ++ [Tick delay; BackoffElapses id].

Fixpoint drive (id : nat) (envs : list attempt_env) (c : client) : client :=
  match envs with
  | [] => c
  | e :: envs' =>
      let c1 := run_events (attempt_events id e) c in
      match promises c1 !! id with
      | Some (Task _ (Sleeping _ delay _)) =>
          drive id envs' (run_events (sleep_events id delay e) c1)
      | _ => c1
      end
  end.

(** Two states that differ at most in the queue and the promises. *)
Definition same_host (c c' : client) : Prop :=
  defaultConfig c = defaultConfig c' /\ memoryCache c = memoryCache c'
  /\ globalErrors c = globalErrors c' /\ signals c = signals c' /\ now c = now c'
  /\ transport_calls c = transport_calls c' /\ notified c = notified c'.



(** An attempt that is answered with a reply the loop retries: not ok, and
    with a status of [retryOn]. *)
Definition retryable_reply (rc : retry_config) (e : attempt_env) : Prop :=
  exists res, env_outcome e = Fulfils res /\ raw_ok res = false
              /\ raw_status res ∈ retryOn_of rc.

(** A promise whose task is in the wait list. *)
Definition waiting (p : promise) : Prop :=
  match p with
  | Task _ Waiting => True
  | _ => False
  end.

(** What a client keeps when its limit of concurrency leaves no slot. *)
Definition starved (c : client) : Prop :=
  activeCount c = 0 /\ transport_calls c = [] /\ memoryCache c = ∅
  /\ Forall waiting (promises c) /\ length (queue c) = length (promises c).

(** *** Example data *)

(** A stand-in for [JSON.stringify]. *)
Definition stringify_example (v : value) : string :=
  match v with
  | VUndefined => ""
  | VNull => "null"
  | VBool true => "true"
  | VBool false => "false"
  | VNum n => pretty n
  | VStr s => s
  | VObj _ => "{}"
  end.

Definition network_error : error :=
  {| err_name := "TypeError"; err_message := "Failed to fetch";
     err_status := None; err_response := None |}.

Definition abort_error : error :=
  {| err_name := "AbortError"; err_message := "The operation was aborted";
     err_status := None; err_response := None |}.

(** A JSON reply with the given status and parsed body. *)
Definition reply (status : Z) (data : value) : raw_response :=
  {| raw_ok := (200 <=? status) && (status <? 300); raw_status := status;
     raw_statusText := "";
     raw_headers := Some [("content-type", "application/json")];
     raw_json := Returns data; raw_text := Throws |}.

Definition one_half : fraction := {| rnd_num := 1; rnd_den := 2 |}.

(** [zjs({ baseURL, maxConcurrent })] created at instant 1000. *)
Definition client_example (maxConcurrent : option Z) : client :=
  zjs {| uc_baseURL := "https://api.example.com"; uc_timeout := 0; uc_headers := [];
         uc_maxConcurrent := maxConcurrent |} 1000.

(** [{ retry, timeout }] *)
Definition opts_retry (retry timeout : Z) : call_opts :=
  {| opt_headers := None; opt_body := None; opt_data := VUndefined;
     opt_timeout := Some timeout; opt_retry := Some retry; opt_retries := None;
     opt_retryDelay := None; opt_cache := None; opt_signal := None; opt_group := None |}.

(** [{ cache }] *)
Definition opts_cache (ttl : Z) : call_opts :=
  {| opt_headers := None; opt_body := None; opt_data := VUndefined;
     opt_timeout := None; opt_retry := None; opt_retries := None;
     opt_retryDelay := None; opt_cache := Some ttl; opt_signal := None; opt_group := None |}.



(** The argument [fetchWithRetry] gets for a GET of [/posts]. *)
Definition retry_config_example (retries timeout : Z) : retry_config :=
  {| rc_url := "https://api.example.com/posts";
     rc_options := {| fo_method := "GET"; fo_headers := []; fo_body := VUndefined;
                      fo_signal := None |};
     rc_retries := Some retries; rc_retryDelay := Some 300; rc_retryOn := None;
     rc_timeout := timeout |}.

(** The transport call fails with a network error after 10 ms. *)
Definition failing_attempt : attempt_env :=
  {| env_cancels := []; env_timer := false; env_elapsed := 10;
     env_outcome := Fails network_error; env_random := one_half;
     env_sleep_cancels := [] |}.

(** The timeout timer fires after 50 ms and [fetch] rejects with the abort. *)
Definition timed_out_attempt : attempt_env :=
  {| env_cancels := []; env_timer := true; env_elapsed := 50;
     env_outcome := Fails abort_error; env_random := one_half;
     env_sleep_cancels := [] |}.

(** The transport call replies after 10 ms. *)
Definition replying_attempt (status : Z) (data : value) : attempt_env :=
  {| env_cancels := []; env_timer := false; env_elapsed := 10;
     env_outcome := Fulfils (reply status data); env_random := one_half;
     env_sleep_cancels := [] |}.


Definition silent_interceptor : request_interceptor := fun cfg => (cfg, Returns None).

(** [cfg => ({ ...cfg, timeout: t })] *)
Definition timeout_interceptor (t : Z) : request_interceptor :=
  fun cfg =>
    (cfg,
     Returns (Some {| cfg_url := cfg_url cfg; cfg_method := cfg_method cfg;
                      cfg_options := cfg_options cfg; cfg_timeout := t;
                      cfg_retries := cfg_retries cfg; cfg_retryDelay := cfg_retryDelay cfg;
                      cfg_cacheTTL := cfg_cacheTTL cfg; cfg_original := cfg_original cfg |})).



(** [(data, res) => data + 1] *)
Definition increment_transform : response_transform :=
  fun d _ =>
    (d, match d with
        | VNum n => Returns (VNum (n + 1))
        | _ => Returns d
        end).

(** [res => ({ ...res, statusText: "seen " + res.data })] *)
Definition noting_interceptor : response_interceptor :=
  fun r =>
    (r,
     Returns (Some {| rsp_ok := rsp_ok r; rsp_status := rsp_status r;
                      rsp_statusText := "seen " +:+ stringify_example (rsp_data r);
                      rsp_headers := rsp_headers r; rsp_data := rsp_data r;
                      rsp_config := rsp_config r; rsp_time := rsp_time r |})).

Definition logging_handler : error_handler := fun _ _ => Returns tt.

Definition throwing_handler : error_handler := fun _ _ => Throws.

(** A browser page served from the developer's machine. *)
Definition host_localhost : host_names :=
  {| location_hostname := Some "localhost"; process_env_HOSTNAME := None |}.

(** [zjs.env().dev("http://localhost:3000").prod("https://api.example.com")] *)
Definition chain_example : env_ctx :=
  env_prod (VStr "https://api.example.com")
    (env_dev (VStr "http://localhost:3000") createEnvChain).


(** [{ signal, group }] *)
Definition opts_signal_group (s g : nat) : call_opts :=
  {| opt_headers := None; opt_body := None; opt_data := VUndefined;
     opt_timeout := None; opt_retry := None; opt_retries := None;
     opt_retryDelay := None; opt_cache := None; opt_signal := Some s; opt_group := Some g |}.


(** The argument [fetchWithRetry] gets for a GET of [/posts] made with the
    token whose signal is [s]. *)
Definition retry_config_token (s : nat) (retries : Z) : retry_config :=
  {| rc_url := "https://api.example.com/posts";
     rc_options := {| fo_method := "GET"; fo_headers := []; fo_body := VUndefined;
                      fo_signal := Some s |};
     rc_retries := Some retries; rc_retryDelay := Some 300; rc_retryOn := None;
     rc_timeout := 0 |}.

(** The token [s] is cancelled while the transport call is pending; the
    call replies after 10 ms. *)
Definition cancelled_again_attempt (s : nat) : attempt_env :=
  {| env_cancels := [s]; env_timer := false; env_elapsed := 10;
     env_outcome := Fulfils (reply 200 (VNum 7)); env_random := one_half;
     env_sleep_cancels := [] |}.

(** The client after a GET of [/posts] with [cache: 10] was answered and
    cached at instant 1200, seen at instant 4200. *)
Definition cached_events : list event :=
  [ApiVerb Get "/posts" VUndefined (opts_cache 10); Tick 200;
   TransportSettles 0 (Fulfils (reply 200 (VNum 7))) one_half; Tick 3000].

(** The transport call fails with a network error after 10 ms, and the
    token [s] is cancelled during the backoff wait that follows. *)
Definition failing_then_cancelled (s : nat) : attempt_env :=
  {| env_cancels := []; env_timer := false; env_elapsed := 10;
     env_outcome := Fails network_error; env_random := one_half;
     env_sleep_cancels := [s] |}.

(** A reply that announces JSON and whose body is not JSON. *)
Definition broken_json_reply : raw_response :=
  {| raw_ok := true; raw_status := 200; raw_statusText := "OK";
     raw_headers := Some [("Content-Type", "application/json; charset=utf-8")];
     raw_json := Throws; raw_text := Returns (VStr "<html>") |}.

(** * Properties *)

(** ** Hook chains *)

Lemma foldl_snoc {A B} (f : A -> B -> A) (l : list B) (b : B) (a : A) :
  foldl f a (l ++ [b]) = f (foldl f a l) b.
Proof. by rewrite foldl_app. Qed.



















(** ** Backoff *)




(** ** Method names and the body guard *)






Lemma verb_of_name_Some (s : string) (v : verb) : verb_of_name s = Some v -> verb_name v = s.
Proof.
  unfold verb_of_name. intros H. apply find_some in H as [_ H].
  by apply String.eqb_eq.
Qed.






(** ** Calls of the core handler *)

Lemma initial_config_frame method urlPath opts c :
  let c1 := (initial_config method urlPath opts c).1 in
  defaultConfig c1 = defaultConfig c /\ memoryCache c1 = memoryCache c
  /\ globalErrors c1 = globalErrors c /\ activeCount c1 = activeCount c
  /\ queue c1 = queue c /\ promises c1 = promises c /\ now c1 = now c
  /\ transport_calls c1 = transport_calls c /\ notified c1 = notified c
  /\ signals c1 = (compose_signals opts (signals c)).1.
Proof.
  unfold initial_config.
  by destruct (compose_signals opts (signals c)) as [st sig].
Qed.

Lemma getCached_frame key c :
  let c1 := (getCached key c).1 in
  defaultConfig c1 = defaultConfig c /\ globalErrors c1 = globalErrors c
  /\ activeCount c1 = activeCount c /\ queue c1 = queue c
  /\ promises c1 = promises c /\ now c1 = now c
  /\ transport_calls c1 = transport_calls c /\ notified c1 = notified c
  /\ signals c1 = signals c.
Proof.
  unfold getCached.
  destruct (memoryCache c !! key) as [entry|]; [|done].
  by destruct (expired entry (now c)).
Qed.

Lemma handleFetchRaw_frame method urlPath opts c :
  let c1 := (handleFetchRaw method urlPath opts c).1 in
  defaultConfig c1 = defaultConfig c /\ globalErrors c1 = globalErrors c
  /\ activeCount c1 = activeCount c /\ queue c1 = queue c
  /\ promises c1 = promises c /\ now c1 = now c
  /\ transport_calls c1 = transport_calls c /\ notified c1 = notified c
  /\ signals c1 = (compose_signals opts (signals c)).1.
Proof.
  unfold handleFetchRaw, build_config.
  pose proof (initial_config_frame method urlPath opts c) as Hi.
  destruct (initial_config method urlPath opts c) as [c1 cfg]. simpl in Hi.
  unfold serve_or_enqueue.
  destruct Hi as (?&?&?&?&?&?&?&?&?&?).
  destruct (cacheable _ _); [|simpl; by repeat split].
  pose proof (getCached_frame
                (makeCacheKey (cfg_method (applyRequestInterceptors (defaultConfig c) cfg))
                   (cfg_url (applyRequestInterceptors (defaultConfig c) cfg))
                   (fo_body (cfg_options (applyRequestInterceptors (defaultConfig c) cfg))))
                c1) as Hg.
  destruct (getCached _ c1) as [c2 [r|]]; simpl in *;
    destruct Hg as (?&?&?&?&?&?&?&?&?); repeat split; congruence.
Qed.

Lemma insert_last {A} (l : list A) (x y : A) : <[length l := y]> (l ++ [x]) = l ++ [y].
Proof. rewrite insert_app_r_alt by done. by rewrite Nat.sub_diag. Qed.

Lemma lookup_last {A} (l : list A) (x : A) : (l ++ [x]) !! length l = Some x.
Proof. by apply list_lookup_middle. Qed.

Lemma run_fresh_task (k : task_closure) (c : client) :
  let id := length (promises c) in
  let c1 := set_promises (fun ps => ps ++ [Task k Waiting]) c in
  let ac := length (signals c) in
  transport_calls (run id c1)
  = transport_calls c ++ [{| tc_url := tk_finalUrl k; tc_options := finalOptions (tk_options k) ac |}]
  /\ promises (run id c1) = promises c ++ [Task k (InFlight 1 ac (now c))]
  /\ activeCount (run id c1) = activeCount c + 1
  /\ queue (run id c1) = queue c.
Proof.
  unfold run. simpl.
  rewrite lookup_last. simpl.
  by rewrite insert_last.
Qed.


Lemma initial_config_body method urlPath opts c :
  fo_body (cfg_options (initial_config method urlPath opts c).2)
  = attach_body method
      (obj_assign []
         (obj_assign (obj_assign [] (default_headers (defaultConfig c)))
                     (default [] (opt_headers opts))))
      (applyTransformRequest (defaultConfig c) (body_of opts)
         (obj_assign (obj_assign [] (default_headers (defaultConfig c)))
                     (default [] (opt_headers opts))))
  /\ cfg_method (initial_config method urlPath opts c).2 = toUpperCase method
  /\ fo_method (cfg_options (initial_config method urlPath opts c).2) = toUpperCase method.
Proof.
  unfold initial_config.
  by destruct (compose_signals opts (signals c)) as [st sig].
Qed.


(** ** Retry executor *)

Lemma open_attempt_calls rc c :
  transport_calls (open_attempt rc c).1
  = transport_calls c
    ++ [{| tc_url := rc_url rc;
           tc_options := finalOptions (rc_options rc) (length (signals c)) |}].
Proof. done. Qed.

Lemma after_attempt_network_failure rc attempt ab rnd start t err :
  err_name err <> "AbortError" ->
  after_attempt rc attempt ab rnd start t (Fails err)
  = if attempt <=? retries_of rc then Retry (retry_wait rc attempt rnd) else Throw err.
Proof.
  intros Hname. unfold after_attempt.
  apply String.eqb_neq in Hname. rewrite Hname. by rewrite andb_false_r.
Qed.

Lemma retry_loop_at_most rc envs : forall attempt start c,
  calls_between c (retry_loop rc attempt start envs c).1
  <= Z.max 1 (retries_of rc - attempt + 1)
  /\ 1 <= calls_between c (retry_loop rc attempt start envs c).1.
Proof.
  induction envs as [|e envs IH]; intros attempt start c.
  - unfold calls_between. simpl. rewrite length_app. simpl. lia.
  - simpl.
    destruct (after_attempt _ _ _ _ _ _ _) as [err|delay|res duration] eqn:Hafter;
      try (unfold calls_between; simpl; rewrite length_app; simpl; lia).
    assert (Hle : attempt + 1 <= retries_of rc).
    { unfold after_attempt in Hafter.
      destruct (env_outcome e) as [res|err].
      - destruct (negb (raw_ok res)); [|done].
        destruct (attempt + 1 <=? retries_of rc) eqn:Hle; [lia|done].
      - destruct (_ && _); [done|].
        destruct (attempt + 1 <=? retries_of rc) eqn:Hle; [lia|done]. }
    match goal with |- context [retry_loop rc ?a ?s envs ?c'] =>
      specialize (IH a s c'); set (r := retry_loop rc a s envs c') in * end.
    assert (Hc : length (transport_calls (during_sleep delay e
                    (during_attempt rc (length (signals c)) e (open_attempt rc c).1)))
                 = S (length (transport_calls c))).
    { simpl. rewrite length_app. simpl. lia. }
    unfold calls_between in *. simpl in *. rewrite Hc in IH. lia.
Qed.

(** When the host answers one attempt more than the retries that are left,
    the loop has returned or thrown. *)
Lemma retry_loop_settles rc envs : forall attempt start c,
  (Z.to_nat (retries_of rc - attempt) < length envs)%nat ->
  (retry_loop rc attempt start envs c).2 <> Pending.
Proof.
  induction envs as [|e envs IH]; intros attempt start c Hlen.
  - simpl in Hlen. lia.
  - simpl.
    destruct (after_attempt _ _ _ _ _ _ _) as [err|delay|res duration] eqn:Hafter;
      [done| |done].
    assert (Hle : attempt + 1 <= retries_of rc).
    { unfold after_attempt in Hafter.
      destruct (env_outcome e) as [res|err].
      - destruct (negb (raw_ok res)); [|done].
        destruct (attempt + 1 <=? retries_of rc) eqn:Hle; [lia|done].
      - destruct (_ && _); [done|].
        destruct (attempt + 1 <=? retries_of rc) eqn:Hle; [lia|done]. }
    apply IH. simpl in Hlen. lia.
Qed.

Lemma fetchWithRetry_settles rc envs c :
  (Z.to_nat (retries_of rc) < length envs)%nat ->
  (fetchWithRetry rc envs c).2 <> Pending.
Proof.
  intros Hlen. unfold fetchWithRetry. apply retry_loop_settles.
  by rewrite Z.sub_0_r.
Qed.



(** For any [retries], also a negative one, the loop makes at least one
    transport call and at most [max 0 retries + 1]. *)
Lemma fetchWithRetry_attempts_any (rc : retry_config) (envs : list attempt_env) (c : client) :
  1 <= calls_between c (fetchWithRetry rc envs c).1 <= Z.max 0 (retries_of rc) + 1.
Proof.
  unfold fetchWithRetry.
  pose proof (retry_loop_at_most rc envs 0 (now c) c) as [H1 H2]. lia.
Qed.

(** ** Abort signals *)

Lemma unfired_le_length (st : signal_store) : (unfired st <= length st)%nat.
Proof. induction st as [|sg st IH]; simpl; [done|]. destruct (aborted sg); lia. Qed.

Lemma unfired_fire (st : signal_store) (s : nat) (sg : signal_state) :
  st !! s = Some sg -> aborted sg = false ->
  (S (unfired (<[s := {| aborted := true; listeners := [] |}]> st)) = unfired st)%nat.
Proof.
  revert s. induction st as [|sg' st IH]; intros [|s] Hs Hsg; simpl in *; try done.
  - injection Hs as ->. by rewrite Hsg.
  - rewrite <- (IH s Hs Hsg). by destruct (aborted sg').
Qed.

Lemma is_aborted_insert_fired (st : signal_store) (s x : nat) (l : list nat) :
  (s < length st)%nat ->
  is_aborted x (<[s := {| aborted := true; listeners := l |}]> st)
  = if decide (s = x) then true else is_aborted x st.
Proof.
  intros Hs. unfold is_aborted. destruct (decide (s = x)) as [->|Hne].
  - by rewrite list_lookup_insert_eq.
  - by rewrite list_lookup_insert_ne.
Qed.

Lemma cascade_ok_refl st : cascade_ok st st.
Proof. by repeat split. Qed.

Lemma cascade_ok_trans st1 st2 st3 :
  cascade_ok st1 st2 -> cascade_ok st2 st3 -> cascade_ok st1 st3.
Proof.
  intros (Hl1 & Hu1 & Hm1 & Hf1 & Hp1) (Hl2 & Hu2 & Hm2 & Hf2 & Hp2).
  split; [congruence|]. split; [lia|]. split; [auto|]. split.
  - intros x Hx. rewrite Hf2 by done. apply Hf1.
    destruct (is_aborted x st2) eqn:E; [|done]. apply Hm2 in E. congruence.
  - intros x y Hy Hp. apply Hp2; [lia|]. by apply Hp1.
Qed.

Lemma unfired_pos (st : signal_store) (s : nat) (sg : signal_state) :
  st !! s = Some sg -> aborted sg = false -> (0 < unfired st)%nat.
Proof. intros Hs Hsg. rewrite <- (unfired_fire st s sg Hs Hsg). lia. Qed.

Lemma cascade_fold (f : nat) :
  (forall st s, (unfired st <= f)%nat ->
     cascade_ok st (abort_signal f s st)
     /\ ((s < length st)%nat -> is_aborted s (abort_signal f s st) = true)) ->
  forall ts acc, (unfired acc <= f)%nat ->
    cascade_ok acc (foldl (fun acc t => abort_signal f t acc) acc ts)
    /\ (forall t, t ∈ ts -> (t < length acc)%nat ->
          is_aborted t (foldl (fun acc t => abort_signal f t acc) acc ts) = true).
Proof.
  intros IH ts. induction ts as [|t ts IHts]; intros acc Hacc; simpl.
  - split; [apply cascade_ok_refl|]. intros t Ht. by apply elem_of_nil in Ht.
  - destruct (IH acc t Hacc) as [Hok Ht].
    destruct (IHts (abort_signal f t acc)) as [Hok' Hts].
    { destruct Hok as (_ & Hu & _). lia. }
    split; [by eapply cascade_ok_trans|].
    intros t' Ht' Hlen. apply elem_of_cons in Ht' as [->|Ht'].
    + destruct Hok' as (_ & _ & Hmono & _). apply Hmono. by apply Ht.
    + apply Hts; [done|]. destruct Hok as (-> & _). done.
Qed.

Lemma abort_signal_ok (fuel : nat) : forall st s,
  (unfired st <= fuel)%nat ->
  cascade_ok st (abort_signal fuel s st)
  /\ ((s < length st)%nat -> is_aborted s (abort_signal fuel s st) = true).
Proof.
  induction fuel as [|f IH]; intros st s Hfuel.
  - simpl. split; [apply cascade_ok_refl|].
    intros Hs. unfold is_aborted.
    destruct (st !! s) as [sg|] eqn:Hsg; [|by apply lookup_ge_None in Hsg; lia].
    destruct (aborted sg) eqn:Hab; [done|].
    pose proof (unfired_pos st s sg Hsg Hab). lia.
  - simpl. destruct (st !! s) as [sg|] eqn:Hsg.
    2:{ split; [apply cascade_ok_refl|]. intros Hs. apply lookup_ge_None in Hsg. lia. }
    destruct (aborted sg) eqn:Hab.
    { split; [apply cascade_ok_refl|]. intros _. unfold is_aborted. by rewrite Hsg. }
    assert (Hs : (s < length st)%nat) by (by eapply lookup_lt_Some).
    pose proof (unfired_fire st s sg Hsg Hab) as Hfire.
    set (st1 := <[s := {| aborted := true; listeners := [] |}]> st) in *.
    assert (Hlen1 : length st1 = length st) by apply length_insert.
    destruct (cascade_fold f IH (listeners sg) st1) as [(Hl & Hu & Hmono & Hframe & Hprop) Hts];
      [lia|].
    set (st' := foldl (fun acc t => abort_signal f t acc) st1 (listeners sg)) in *.
    assert (Hs1 : is_aborted s st1 = true).
    { unfold st1. rewrite is_aborted_insert_fired by done. by rewrite decide_True. }
    assert (Hmono1 : forall x, is_aborted x st = true -> is_aborted x st1 = true).
    { intros x Hx. unfold st1. rewrite is_aborted_insert_fired by done.
      by destruct (decide (s = x)). }
    split; [|intros _; by apply Hmono].
    split; [congruence|]. split; [lia|]. split; [auto|]. split.
    + intros x Hx. rewrite Hframe by done.
      assert (x <> s) by (intros ->; apply Hmono in Hs1; congruence).
      unfold st1. by rewrite list_lookup_insert_ne.
    + intros x y Hy [Hfired|(sgx & Hx & Habx & Hin)].
      * left. auto.
      * destruct (decide (x = s)) as [->|Hne].
        -- left. apply Hts; [congruence|lia].
        -- apply Hprop; [lia|]. right. exists sgx.
           unfold st1. by rewrite list_lookup_insert_ne.
Qed.

Lemma abort_ok (s : nat) (st : signal_store) :
  cascade_ok st (abort s st)
  /\ ((s < length st)%nat -> is_aborted s (abort s st) = true).
Proof.
  apply abort_signal_ok. pose proof (unfired_le_length st). lia.
Qed.

(** Once [src] fires, every signal that a listener on it aborts has fired. *)
Lemma abort_propagates (s y : nat) (st : signal_store) :
  (s < length st)%nat -> (y < length st)%nat ->
  propagates st s y -> is_aborted y (abort s st) = true.
Proof.
  intros Hs Hy Hp. destruct (abort_ok s st) as [(_ & _ & _ & _ & Hprop) Hfired].
  destruct (Hprop s y Hy Hp) as [H|(sg & Hsg & Hab & _)]; [done|].
  specialize (Hfired Hs). unfold is_aborted in Hfired. rewrite Hsg in Hfired. congruence.
Qed.

Lemma cancels_ok (l : list nat) : forall st,
  cascade_ok st (foldl (fun st s => abort s st) st l).
Proof.
  induction l as [|x l IH]; intros st; simpl; [apply cascade_ok_refl|].
  eapply cascade_ok_trans; [apply abort_ok|apply IH].
Qed.

Lemma cancels_propagate (s y : nat) (l : list nat) : forall st,
  (s < length st)%nat -> (y < length st)%nat ->
  propagates st s y -> s ∈ l ->
  is_aborted y (foldl (fun st s => abort s st) st l) = true.
Proof.
  induction l as [|x l IH]; intros st Hs Hy Hp Hin; [by apply elem_of_nil in Hin|].
  simpl. destruct (decide (x = s)) as [->|Hne].
  - destruct (cancels_ok l (abort s st)) as (_ & _ & Hmono & _).
    apply Hmono. by apply abort_propagates.
  - apply elem_of_cons in Hin as [->|Hin]; [done|].
    destruct (abort_ok x st) as [(Hl & _ & _ & _ & Hprop) _].
    apply IH; [lia|lia|by apply Hprop|done].
Qed.

(** The controller of an attempt is fresh, and it listens on the signal
    passed in. *)
Lemma open_attempt_signals rc c :
  let st := signals (open_attempt rc c).1 in
  (open_attempt rc c).2 = length (signals c)
  /\ length st = S (length (signals c))
  /\ is_aborted (length (signals c)) st = false
  /\ (forall s, is_aborted s st = is_aborted s (signals c))
  /\ (forall s, fo_signal (rc_options rc) = Some s ->
                (s < length (signals c))%nat ->
                is_aborted s (signals c) = false ->
                propagates st s (length (signals c))).
Proof.
  unfold open_attempt. simpl.
  assert (Hfresh : forall s, is_aborted s (signals c ++ [fresh_signal]) = is_aborted s (signals c)).
  { intros s. unfold is_aborted.
    destruct (decide (s < length (signals c))%nat) as [Hlt|Hge].
    - by rewrite lookup_app_l.
    - rewrite (lookup_ge_None_2 (signals c)) by lia.
      destruct (decide (s = length (signals c))) as [->|Hne].
      + by rewrite lookup_last.
      + rewrite lookup_ge_None_2; [done|]. rewrite length_app. simpl. lia. }
  assert (Hadd : forall s st x, is_aborted x (addEventListener s (length (signals c)) st)
                                = is_aborted x st).
  { intros s st x. unfold addEventListener, is_aborted.
    destruct (st !! s) as [sg|] eqn:Hsg; [|done].
    destruct (decide (s = x)) as [->|Hne].
    - rewrite list_lookup_insert_eq by (by eapply lookup_lt_Some). by rewrite Hsg.
    - by rewrite list_lookup_insert_ne. }
  split; [done|]. split; [|split; [|split]].
  - destruct (fo_signal (rc_options rc)) as [s|]; simpl.
    + unfold addEventListener. destruct (_ !! s); rewrite ?length_insert, length_app; simpl; lia.
    + rewrite length_app. simpl. lia.
  - destruct (fo_signal (rc_options rc)) as [s|]; simpl; rewrite ?Hadd, Hfresh;
      unfold is_aborted; by rewrite lookup_ge_None_2.
  - intros s. destruct (fo_signal (rc_options rc)) as [s'|]; simpl; by rewrite ?Hadd, Hfresh.
  - intros s -> Hs Hlive. simpl. right.
    unfold addEventListener. rewrite lookup_app_l by done.
    unfold is_aborted in Hlive.
    destruct (signals c !! s) as [sg|] eqn:Hsg; [|by apply lookup_ge_None in Hsg; lia].
    eexists. split.
    + apply list_lookup_insert_eq. rewrite length_app. lia.
    + simpl. split; [done|]. apply elem_of_app. right. by apply list_elem_of_singleton.
Qed.

Lemma retry_loop_cons rc attempt start e envs c :
  retry_loop rc attempt start (e :: envs) c
  = let c2 := during_attempt rc (length (signals c)) e (open_attempt rc c).1 in
    match after_attempt rc (attempt + 1) (is_aborted (length (signals c)) (signals c2))
                        (env_random e) start (now c2) (env_outcome e) with
    | Throw err => (c2, Thrown err)
    | Retry delay => retry_loop rc (attempt + 1) start envs (during_sleep delay e c2)
    | Return res duration => (c2, Returned res duration)
    end.
Proof. done. Qed.



(** C3 (amended). An attempt that fails with an [AbortError] after the
    signal of its controller has fired is never retried, whatever fired the
    signal: the timeout timer of the attempt, or a cancellation, while the
    attempt is pending, of the signal passed in (the user's, or the one
    composed with the group's).  [fetchWithRetry] throws at once: no
    further transport call, no backoff wait, even when attempts remain. *)
Theorem abort_is_never_retried
    (rc : retry_config) (attempt start : Z) (e : attempt_env) (envs : list attempt_env)
    (c : client) (err : error) :
  env_outcome e = Fails err ->
  err_name err = "AbortError" ->
  (env_timer e = true /\ timer_armed rc = true)
  \/ (exists s, fo_signal (rc_options rc) = Some s /\ s ∈ env_cancels e
                /\ (s < length (signals c))%nat /\ is_aborted s (signals c) = false) ->
  (retry_loop rc attempt start (e :: envs) c).2 = Thrown err
  /\ calls_between c (retry_loop rc attempt start (e :: envs) c).1 = 1
  /\ now (retry_loop rc attempt start (e :: envs) c).1 = now c + env_elapsed e.
Proof.
  intros Hout Hname Hcause.
  pose proof (open_attempt_signals rc c) as (Hac & Hlen & _ & _ & Hlisten).
  simpl in Hlen, Hlisten.
  assert (Hab : is_aborted (length (signals c))
                  (signals (during_attempt rc (length (signals c)) e (open_attempt rc c).1))
                = true).
  { unfold during_attempt. simpl.
    match goal with |- context [foldl ?f ?st0 (env_cancels e)] =>
      set (st1 := foldl f st0 (env_cancels e));
      pose proof (cancels_ok (env_cancels e) st0) as (Hl1 & _ & Hmono1 & _);
      fold st1 in Hl1, Hmono1;
      assert (Hlen0 : length st0 = S (length (signals c))) by exact Hlen
    end.
    destruct Hcause as [[-> ->]|(s & Hs & Hin & Hlt & Hlive)].
    - simpl. apply abort_ok. lia.
    - assert (Hfired : is_aborted (length (signals c)) st1 = true).
      { apply (cancels_propagate s); [lia|lia|by apply Hlisten|done]. }
      destruct (env_timer e && timer_armed rc); [|done].
      destruct (abort_ok (length (signals c)) st1) as [(_ & _ & Hmono & _) _]. by apply Hmono. }
  rewrite retry_loop_cons. cbv zeta. rewrite Hab, Hout. unfold after_attempt.
  apply String.eqb_eq in Hname. rewrite Hname. simpl.
  split; [done|]. split; [|done].
  unfold calls_between. simpl. rewrite length_app. simpl. lia.
Qed.

(** ** The request operation never throws *)

Lemma retry_loop_frame rc envs : forall attempt start c,
  let c' := (retry_loop rc attempt start envs c).1 in
  defaultConfig c' = defaultConfig c /\ memoryCache c' = memoryCache c
  /\ globalErrors c' = globalErrors c /\ activeCount c' = activeCount c
  /\ queue c' = queue c /\ promises c' = promises c /\ notified c' = notified c.
Proof.
  induction envs as [|e envs IH]; intros attempt start c; [done|].
  rewrite retry_loop_cons. cbv zeta.
  destruct (after_attempt _ _ _ _ _ _ _) as [err|delay|res duration]; try done.
  match goal with |- context [retry_loop rc ?a ?s envs ?c'] => apply (IH a s c') end.
Qed.

Lemma notified_runGlobalErrors err cfg c :
  notified (runGlobalErrors err cfg c)
  = notified c ++ imap (fun i h => {| note_handler := i; note_error := err;
                                      note_config := cfg; note_outcome := h err cfg |})
                       (globalErrors c).
Proof. done. Qed.

Lemma not_rejected_run id c :
  Forall not_rejected (promises c) -> Forall not_rejected (promises (run id c)).
Proof.
  intros H. unfold run. simpl.
  destruct (promises c !! id) as [[r|k p]|]; try done.
  simpl. by apply Forall_insert.
Qed.

Lemma not_rejected_settled id k out c :
  Forall not_rejected (promises c) ->
  Forall not_rejected (promises (settled id k (Resolved out) c)).
Proof.
  intros H. unfold settled. simpl.
  assert (H1 : Forall not_rejected (<[id := Task k (Done (Resolved out))]> (promises c)))
    by (by apply Forall_insert).
  destruct (queue c) as [|next rest]; [done|].
  by apply not_rejected_run.
Qed.

Lemma not_rejected_call args c :
  Forall not_rejected (promises c) -> Forall not_rejected (promises (call args c)).
Proof.
  intros H. destruct args as [[method url] opts]. unfold call.
  pose proof (handleFetchRaw_frame method url opts c) as (_ & _ & _ & _ & Hp & _).
  destruct (handleFetchRaw method url opts c) as [c1 [r|k]]; simpl in *.
  - rewrite Hp. apply Forall_app. split; [done|]. by apply Forall_singleton.
  - unfold enqueue.
    assert (H1 : Forall not_rejected (promises c1 ++ [Task k Waiting])).
    { rewrite Hp. apply Forall_app. split; [done|]. by apply Forall_singleton. }
    destruct (below_limit _ _); [|done]. by apply not_rejected_run.
Qed.

Lemma not_rejected_step (e : event) (c : client) :
  Forall not_rejected (promises c) -> Forall not_rejected (promises (step e c)).
Proof.
  intros H.
  destruct e as [v url body options|ro|request response|fn|fn|fn|token type| |method url body
                | |s|id|id o rnd|id|dt]; simpl; try done.
  - by apply not_rejected_call.
  - by apply not_rejected_call.
  - by destruct request, response.
  - by destruct (token =? "")%string.
  - destruct (promises c !! id) as [[r|k [| | |]]|]; try done.
    by destruct (timer_armed _).
  - destruct (promises c !! id) as [[r|k [|attempt ac start| |]]|]; try done.
    destruct (after_attempt _ _ _ _ _ _ _) as [err|delay|res duration].
    + by apply not_rejected_settled.
    + simpl. by apply Forall_insert.
    + assert (Hp : promises (task_complete k res duration c).1 = promises c).
      { unfold task_complete. destruct (negb (raw_ok res)); [done|].
        by destruct (cacheable _ _). }
      destruct (task_complete k res duration c) as [c1 out]. simpl in Hp.
      apply not_rejected_settled. by rewrite Hp.
  - destruct (promises c !! id) as [[r|k [| |attempt delay start|]]|]; try done.
    simpl. by apply Forall_insert.
Qed.

(** No promise returned by the client is ever rejected. *)
Lemma reachable_not_rejected (uc : user_config) (t0 : Z) (c : client) :
  reachable uc t0 c -> Forall not_rejected (promises c).
Proof.
  intros Hreach. induction Hreach as [|c e _ IH]; [by apply Forall_nil|].
  by apply not_rejected_step.
Qed.

(** C1. A call of [task] never rejects: once [fetchWithRetry] has settled,
    [task] resolves.  When [fetchWithRetry] throws (a transport failure or
    an abort) the value is [{ ok: false, status: 0, data: null, error,
    config }]; when it returns a reply whose [ok] is false the value is
    [{ ok: false, status, data, error, config }] with the status of the
    reply; in both cases every registered global error handler is called
    once, in registration order, with the error and the config, and what
    it returns or throws is not looked at.  When the reply is ok no handler
    is called, whatever the hooks of the response side do, and
    [handleFetchRaw] itself, where the request-side hooks run, calls no
    handler either.  In no state the client can reach is a promise it
    returned rejected; and once the host has answered one transport
    attempt more than the retries allowed, [task] has resolved. *)
Theorem task_resolves_to_uniform_failure (k : task_closure) (envs : list attempt_env)
    (c : client) :
  (forall e, (task k envs c).2 <> Some (Rejected e))
  /\ match (fetchWithRetry (retry_config_of k) envs c).2 with
     | Thrown err =>
         (task k envs c).2
         = Some (Resolved (FailureResult
                   {| fr_ok := false; fr_status := 0; fr_data := VNull;
                      fr_error := err; fr_config := tk_cfg k |}))
         /\ notified (task k envs c).1
            = notified c ++ imap (fun i h => {| note_handler := i; note_error := err;
                                                note_config := tk_cfg k;
                                                note_outcome := h err (tk_cfg k) |})
                                 (globalErrors c)
     | Returned res duration =>
         let finalResponse := final_response (defaultConfig c) k res duration in
         if raw_ok res
         then (task k envs c).2 = Some (Resolved (Response finalResponse))
              /\ notified (task k envs c).1 = notified c
         else (task k envs c).2
              = Some (Resolved (FailureResult
                        {| fr_ok := false; fr_status := raw_status res;
                           fr_data := rsp_data finalResponse;
                           fr_error := http_error res finalResponse;
                           fr_config := tk_cfg k |}))
              /\ notified (task k envs c).1
                 = notified c
                   ++ imap (fun i h =>
                              {| note_handler := i;
                                 note_error := http_error res finalResponse;
                                 note_config := tk_cfg k;
                                 note_outcome := h (http_error res finalResponse) (tk_cfg k) |})
                           (globalErrors c)
     | Pending => (task k envs c).2 = None
     end
  /\ (forall method url opts, notified (handleFetchRaw method url opts c).1 = notified c)
  /\ (forall uc t0 c',
      reachable uc t0 c' ->
      forall id k' e, promises c' !! id <> Some (Task k' (Done (Rejected e))))
  /\ ((Z.to_nat (retries_of (retry_config_of k)) < length envs)%nat ->
      exists out, (task k envs c).2 = Some (Resolved out)).
Proof.
  pose proof (retry_loop_frame (retry_config_of k) envs 0 (now c) c)
    as (Hdc & _ & Hge & _ & _ & _ & Hn).
  pose proof (fetchWithRetry_settles (retry_config_of k) envs c) as Hsettles.
  unfold task, fetchWithRetry in *. simpl in *.
  destruct (retry_loop (retry_config_of k) 0 (now c) envs c) as [c1 fs]. simpl in *.
  split; [|split; [|split; [|split]]]; cycle 3.
  { intros uc t0 c' Hreach id k' e Hid.
    pose proof (reachable_not_rejected _ _ _ Hreach) as HF.
    by apply (Forall_lookup_1 _ _ _ _ HF) in Hid. }
  { intros Hlen. specialize (Hsettles Hlen).
    destruct fs as [res duration|err|]; [| |done].
    - destruct (task_complete k res duration c1) as [c2 out]. by exists out.
    - simpl. by eexists. }
  - intros e. destruct fs as [res duration|err|]; try done.
    unfold task_complete. destruct (negb (raw_ok res)); [done|].
    by destruct (cacheable _ _).
  - destruct fs as [res duration|err|]; [| |done].
    + unfold task_complete. rewrite Hdc.
      destruct (raw_ok res); simpl.
      * destruct (cacheable _ _); simpl; by rewrite Hn.
      * rewrite Hge, Hn. done.
    + simpl. by rewrite Hge, Hn.
  - intros method url opts.
    by destruct (handleFetchRaw_frame method url opts c) as (_ & _ & _ & _ & _ & _ & _ & ? & _).
Qed.

(** ** Order of the hooks *)

(** C7. The order in which the hooks are applied.  On the request side
    the transform chain shapes the body before the request interceptors
    see the config.  On the response side a reply of the network has its
    data shaped by the transform chain first, and the interceptors then
    see the shaped response (lines 378-381).  A response served from the
    cache does not go that way: lines 327-328 hand the cached response to
    the interceptors first, and the transform chain then shapes the data
    of what they return. *)
Theorem hook_order (c : client) :
  let dc := defaultConfig c in
  (forall method url opts,
      let hdrs := obj_assign (obj_assign [] (default_headers dc)) (default [] (opt_headers opts)) in
      fo_body (cfg_options (initial_config method url opts c).2)
      = attach_body method (obj_assign [] hdrs)
          (applyTransformRequest dc (body_of opts) hdrs)
      /\ (build_config method url opts c).2
         = applyRequestInterceptors dc (initial_config method url opts c).2)
  /\ (forall k res duration,
      final_response dc k res duration
      = transform_then_intercept dc (raw_to_response k res duration))
  /\ (forall cached, cached_response dc cached = intercept_then_transform dc cached)
  /\ (forall method url opts c1 r,
      handleFetchRaw method url opts c = (c1, Served r) ->
      exists cached, r = intercept_then_transform dc cached).
Proof.
  intros dc. split; [|split; [|split]].
  - intros method url opts. split.
    + by destruct (initial_config_body method url opts c) as (-> & _).
    + unfold build_config. by destruct (initial_config method url opts c).
  - done.
  - done.
  - intros method url opts c1 r. unfold handleFetchRaw, build_config.
    pose proof (initial_config_frame method url opts c) as (Hdc & _).
    destruct (initial_config method url opts c) as [c0 cfg]. simpl in Hdc.
    unfold serve_or_enqueue. destruct (cacheable _ _); [|done].
    match goal with |- context [getCached ?key c0] =>
      pose proof (getCached_frame key c0) as (Hdc' & _);
      destruct (getCached key c0) as [c2 [cached|]] end; [|done].
    simpl in Hdc'. intros [= <- <-]. exists cached. unfold dc. by rewrite Hdc', Hdc.
Qed.

(** ** Cache *)

Lemma build_config_frame method urlPath opts c :
  let c1 := (build_config method urlPath opts c).1 in
  defaultConfig c1 = defaultConfig c /\ memoryCache c1 = memoryCache c
  /\ globalErrors c1 = globalErrors c /\ activeCount c1 = activeCount c
  /\ queue c1 = queue c /\ promises c1 = promises c /\ now c1 = now c
  /\ transport_calls c1 = transport_calls c /\ notified c1 = notified c
  /\ signals c1 = (compose_signals opts (signals c)).1.
Proof.
  unfold build_config.
  pose proof (initial_config_frame method urlPath opts c) as H.
  by destruct (initial_config method urlPath opts c).
Qed.

Lemma enqueue_free_slot (k : task_closure) (c : client) :
  below_limit (activeCount c) (maxConcurrent (defaultConfig c)) = true ->
  transport_calls (enqueue k c)
  = transport_calls c
    ++ [{| tc_url := tk_finalUrl k;
           tc_options := finalOptions (tk_options k) (length (signals c)) |}]
  /\ promises (enqueue k c)
     = promises c ++ [Task k (InFlight 1 (length (signals c)) (now c))]
  /\ activeCount (enqueue k c) = activeCount c + 1
  /\ queue (enqueue k c) = queue c.
Proof.
  intros Hlim. unfold enqueue. simpl. rewrite Hlim. apply run_fresh_task.
Qed.


(** ** Concurrency queue *)

Lemma count_running_nonneg (ks : list kind) : 0 <= count_running ks.
Proof. induction ks as [|[] ks IH]; simpl; lia. Qed.

Lemma count_running_app (ks : list kind) (k : kind) :
  count_running (ks ++ [k]) = count_running ks + count_running [k].
Proof. induction ks as [|[] ks IH]; simpl in *; lia. Qed.

Lemma waiting_from_app (ks : list kind) (k : kind) : forall i,
  waiting_from i (ks ++ [k]) = waiting_from i ks ++ waiting_from (i + length ks) [k].
Proof.
  induction ks as [|k' ks IH]; intros i; simpl.
  - by rewrite Nat.add_0_r.
  - rewrite IH. replace (S i + length ks)%nat with (i + S (length ks))%nat by lia.
    by destruct k'.
Qed.

Lemma count_running_insert (ks : list kind) (i : nat) (k k' : kind) :
  ks !! i = Some k ->
  count_running (<[i := k']> ks) = count_running ks - count_running [k] + count_running [k'].
Proof.
  revert i. induction ks as [|k0 ks IH]; intros [|i] Hi; simpl in *; try done.
  - injection Hi as ->. destruct k, k'; simpl; lia.
  - rewrite (IH i Hi). destruct k0; simpl; lia.
Qed.

Lemma waiting_from_insert_other (ks : list kind) (i : nat) (k k' : kind) : forall n,
  ks !! i = Some k -> k <> KWaiting -> k' <> KWaiting ->
  waiting_from n (<[i := k']> ks) = waiting_from n ks.
Proof.
  revert i. induction ks as [|k0 ks IH]; intros [|i] n Hi Hk Hk'; simpl in *; try done.
  - injection Hi as ->. by destruct k, k'.
  - rewrite (IH i (S n) Hi Hk Hk'). done.
Qed.

(** The head of the wait list is the first waiting task. *)
Lemma waiting_from_head (ks : list kind) : forall n next rest,
  waiting_from n ks = next :: rest ->
  exists i, next = (n + i)%nat /\ ks !! i = Some KWaiting
            /\ (forall j, (j < i)%nat -> ks !! j <> Some KWaiting)
            /\ (forall k', k' <> KWaiting -> waiting_from n (<[i := k']> ks) = rest).
Proof.
  induction ks as [|k0 ks IH]; intros n next rest H; [done|].
  destruct (decide (k0 = KWaiting)) as [->|Hk0].
  - simpl in H. injection H as <- <-. exists 0%nat.
    split; [lia|]. split; [done|]. split; [intros j Hj; lia|].
    intros k' Hk'. simpl. by destruct k'.
  - assert (H' : waiting_from (S n) ks = next :: rest) by (by destruct k0).
    destruct (IH (S n) next rest H') as (i & -> & Hi & Hfirst & Hins).
    exists (S i). split; [lia|]. split; [done|]. split.
    + intros [|j] Hj; simpl; [congruence|]. apply Hfirst. lia.
    + intros k' Hk'. simpl. rewrite (Hins k' Hk'). by destruct k0.
Qed.

Lemma waiting_from_nil (ks : list kind) : forall n i,
  waiting_from n ks = [] -> ks !! i <> Some KWaiting.
Proof.
  induction ks as [|k0 ks IH]; intros n [|i] H; simpl in *; try done.
  - by destruct k0.
  - apply (IH (S n)). by destruct k0.
Qed.

Lemma kinds_insert_same (ps : list promise) (i : nat) (p p' : promise) :
  ps !! i = Some p -> kind_of p' = kind_of p ->
  kind_of <$> <[i := p']> ps = kind_of <$> ps.
Proof.
  intros Hi Hk. rewrite list_fmap_insert, Hk.
  apply list_insert_id. by rewrite list_lookup_fmap, Hi.
Qed.

Lemma fifo_app (ks : list kind) (k : kind) :
  fifo ks ->
  (k = KHit \/ k = KWaiting \/ forall i, ks !! i <> Some KWaiting) ->
  fifo (ks ++ [k]).
Proof.
  intros Hfifo Hk i j Hij Hi.
  assert (Hlt : (i < length (ks ++ [k]))%nat) by (by eapply lookup_lt_Some).
  rewrite length_app in Hlt. simpl in Hlt.
  destruct (decide (j < length ks)%nat) as [Hj|Hj].
  - rewrite lookup_app_l in Hi by lia. rewrite lookup_app_l by lia. by apply (Hfifo i j).
  - destruct (decide (j = length ks)) as [->|Hne].
    + rewrite lookup_last. rewrite lookup_app_l in Hi by lia.
      destruct Hk as [->|[->|Hk]]; [done|done|]. by apply Hk in Hi.
    + rewrite lookup_ge_None_2; [done|]. rewrite length_app. simpl. lia.
Qed.

Lemma fifo_insert_same (ks : list kind) (i : nat) (k' : kind) :
  fifo ks -> ks !! i <> Some KWaiting -> k' <> KWaiting ->
  (k' = KRunning \/ k' = KDone -> ks !! i = Some KRunning \/ ks !! i = Some KDone) ->
  fifo (<[i := k']> ks).
Proof.
  intros Hfifo Hi Hk' Hadm a b Hab Ha.
  destruct (decide (i = a)) as [->|Hia].
  { apply list_lookup_insert_Some in Ha as [(_ & ? & _)|(? & _)]; congruence. }
  rewrite list_lookup_insert_ne in Ha by done.
  destruct (decide (i = b)) as [->|Hib].
  - destruct (ks !! b) as [kb|] eqn:Hb.
    + rewrite list_lookup_insert_eq by (by eapply lookup_lt_Some).
      destruct (Hfifo a b Hab Ha) as [H1 H2]. rewrite Hb in H1, H2.
      split; intros [= ->]; destruct Hadm as [H|H]; auto; congruence.
    + rewrite list_insert_ge by (by apply lookup_ge_None). rewrite Hb. done.
  - rewrite list_lookup_insert_ne by done. by apply (Hfifo a b).
Qed.

Lemma fifo_insert_first (ks : list kind) (i : nat) (k' : kind) :
  fifo ks -> ks !! i = Some KWaiting ->
  (forall j, (j < i)%nat -> ks !! j <> Some KWaiting) ->
  fifo (<[i := k']> ks).
Proof.
  intros Hfifo Hi Hfirst a b Hab Ha.
  assert (Hlen : (i < length ks)%nat) by (by eapply lookup_lt_Some).
  destruct (decide (i = a)) as [->|Hia].
  - rewrite list_lookup_insert_ne by lia. by apply (Hfifo a b).
  - rewrite list_lookup_insert_ne in Ha by done.
    destruct (decide (i = b)) as [->|Hib].
    + exfalso. by apply (Hfirst a).
    + rewrite list_lookup_insert_ne by done. by apply (Hfifo a b).
Qed.

Lemma queue_ok_frame (c c' : client) :
  activeCount c' = activeCount c -> queue c' = queue c -> kinds c' = kinds c ->
  maxConcurrent (defaultConfig c') = maxConcurrent (defaultConfig c) ->
  queue_ok c -> queue_ok c'.
Proof. unfold queue_ok. by intros -> -> -> ->. Qed.

Lemma run_waiting (next : nat) (k : task_closure) (c : client) :
  promises c !! next = Some (Task k Waiting) ->
  promises (run next c)
  = <[next := Task k (InFlight 1 (length (signals c)) (now c))]> (promises c)
  /\ activeCount (run next c) = activeCount c + 1
  /\ queue (run next c) = queue c
  /\ defaultConfig (run next c) = defaultConfig c
  /\ transport_calls (run next c)
     = transport_calls c
       ++ [{| tc_url := tk_finalUrl k;
              tc_options := finalOptions (tk_options k) (length (signals c)) |}]
  /\ is_aborted (length (signals c)) (signals (run next c)) = false.
Proof.
  intros Hnext. unfold run. simpl. rewrite Hnext.
  pose proof (open_attempt_signals (retry_config_of k) (set_activeCount (fun n => n + 1) c))
    as (_ & _ & Hfresh & _).
  by repeat split.
Qed.

Lemma queue_ok_hit (r : response) (c : client) :
  queue_ok c -> queue_ok (set_promises (fun ps => ps ++ [CacheHit r]) c).
Proof.
  intros (Hcount & Hqueue & Hfull & Hlimit & Hfifo).
  unfold queue_ok, kinds in *. simpl. rewrite fmap_app. simpl.
  rewrite count_running_app, waiting_from_app. simpl. rewrite app_nil_r.
  split; [lia|]. do 3 (split; [done|]). apply fifo_app; auto.
Qed.

Lemma queue_ok_enqueue (k : task_closure) (c : client) :
  queue_ok c -> queue_ok (enqueue k c).
Proof.
  intros (Hcount & Hqueue & Hfull & Hlimit & Hfifo).
  destruct (below_limit (activeCount c) (maxConcurrent (defaultConfig c))) eqn:Hlim.
  - destruct (enqueue_free_slot k c Hlim) as (_ & Hp & Ha & Hq).
    assert (Hdc : defaultConfig (enqueue k c) = defaultConfig c).
    { unfold enqueue. simpl. rewrite Hlim. unfold run. simpl. by rewrite lookup_last. }
    assert (Hempty : queue c = []).
    { destruct (decide (queue c = [])) as [|Hne]; [done|]. apply Hfull in Hne. congruence. }
    unfold queue_ok, kinds in *. rewrite Hp, Ha, Hq, Hdc, fmap_app. simpl.
    rewrite count_running_app, waiting_from_app. simpl. rewrite app_nil_r.
    split; [lia|]. split; [done|]. split; [by rewrite Hempty|]. split.
    + unfold within_limit, below_limit in *.
      destruct (maxConcurrent (defaultConfig c)); [|done]. apply Z.ltb_lt in Hlim. lia.
    + apply fifo_app; [done|]. right. right. intros i.
      apply (waiting_from_nil _ 0%nat). by rewrite <- Hqueue.
  - unfold enqueue. simpl. rewrite Hlim.
    unfold queue_ok, kinds in *. simpl. rewrite fmap_app. simpl.
    rewrite count_running_app, waiting_from_app. simpl.
    rewrite length_fmap, Z.add_0_r.
    split; [done|]. split; [by rewrite Hqueue|]. do 2 (split; [done|]).
    apply fifo_app; auto.
Qed.

Lemma queue_ok_settled (id : nat) (k : task_closure) (s : settlement) (p : phase) (c : client) :
  promises c !! id = Some (Task k p) ->
  kind_of (Task k p) = KRunning ->
  queue_ok c -> queue_ok (settled id k s c).
Proof.
  unfold queue_ok, kinds.
  intros Hid Hrun (Hcount & Hqueue & Hfull & Hlimit & Hfifo).
  assert (Hkid : (kind_of <$> promises c) !! id = Some KRunning).
  { by rewrite list_lookup_fmap, Hid, <- Hrun. }
  unfold settled. simpl.
  destruct (queue c) as [|next rest] eqn:Hq.
  - simpl. rewrite Hq, list_fmap_insert. simpl.
    rewrite (count_running_insert _ _ KRunning) by done.
    rewrite (waiting_from_insert_other _ _ KRunning) by done.
    simpl. split; [lia|]. split; [done|]. split; [done|]. split.
    + unfold within_limit in *. destruct (maxConcurrent (defaultConfig c)); [lia|done].
    + apply fifo_insert_same; try done; [congruence|auto].
  - symmetry in Hqueue.
    destruct (waiting_from_head _ _ _ _ Hqueue) as (i & -> & Hi & Hfirst & Hrest).
    simpl in *.
    assert (Hne : id <> i) by (intros ->; congruence).
    assert (Hi0 := Hi). rewrite list_lookup_fmap in Hi0.
    destruct (promises c !! i) as [[r|k' [| | |]]|] eqn:Hpi; try done.
    match goal with |- context [run i ?c2] =>
      destruct (run_waiting i k' c2) as (Hp & Ha & Hq' & Hdc & _) end.
    { simpl. by rewrite list_lookup_insert_ne. }
    simpl in *.
    rewrite Hp, Ha, Hq', Hdc. simpl.
    rewrite !list_fmap_insert. simpl.
    assert (Hi' : (<[id := KDone]> (kind_of <$> promises c)) !! i = Some KWaiting).
    { by rewrite list_lookup_insert_ne. }
    rewrite (count_running_insert _ _ KWaiting) by done.
    rewrite (count_running_insert _ _ KRunning) by done.
    rewrite list_insert_insert_ne by done.
    rewrite (waiting_from_insert_other _ id KRunning); [| |done|done].
    2:{ by rewrite list_lookup_insert_ne. }
    rewrite (Hrest KRunning) by done.
    simpl. split; [lia|]. split; [done|]. split.
    + intros _. replace (activeCount c - 1 + 1) with (activeCount c) by lia. by apply Hfull.
    + split.
      * replace (activeCount c - 1 + 1) with (activeCount c) by lia. done.
      * apply fifo_insert_same; [| |done|auto].
        -- by apply fifo_insert_first.
        -- rewrite list_lookup_insert_ne by done. by rewrite Hkid.
        -- intros _. left. by rewrite list_lookup_insert_ne.
Qed.

Lemma queue_ok_call (args : string * string * call_opts) (c : client) :
  queue_ok c -> queue_ok (call args c).
Proof.
  intros Hok. destruct args as [[method url] opts]. unfold call.
  pose proof (handleFetchRaw_frame method url opts c) as (Hdc & _ & Ha & Hq & Hp & _).
  destruct (handleFetchRaw method url opts c) as [c1 [r|k]]; simpl in *.
  - apply queue_ok_hit. apply (queue_ok_frame c); [done|done| |by rewrite Hdc|done].
    unfold kinds. by rewrite Hp.
  - apply queue_ok_enqueue. apply (queue_ok_frame c); [done|done| |by rewrite Hdc|done].
    unfold kinds. by rewrite Hp.
Qed.

Lemma task_catch_frame k err c :
  let c' := (task_catch k err c).1 in
  defaultConfig c' = defaultConfig c /\ activeCount c' = activeCount c
  /\ queue c' = queue c /\ promises c' = promises c /\ signals c' = signals c
  /\ transport_calls c' = transport_calls c /\ now c' = now c.
Proof. done. Qed.

Lemma task_complete_frame k res duration c :
  let c' := (task_complete k res duration c).1 in
  defaultConfig c' = defaultConfig c /\ activeCount c' = activeCount c
  /\ queue c' = queue c /\ promises c' = promises c /\ signals c' = signals c
  /\ transport_calls c' = transport_calls c /\ now c' = now c.
Proof.
  unfold task_complete. destruct (negb (raw_ok res)); [done|].
  by destruct (cacheable _ _).
Qed.

Lemma queue_ok_step (e : event) (c : client) : queue_ok c -> queue_ok (step e c).
Proof.
  intros Hok.
  destruct e as [v url body options|ro|request response|fn|fn|fn|token type| |method url body
                | |s|id|id o rnd|id|dt]; simpl;
    try (by apply (queue_ok_frame c)).
  - by apply queue_ok_call.
  - by apply queue_ok_call.
  - destruct request, response; by apply (queue_ok_frame c).
  - destruct (token =? "")%string; by apply (queue_ok_frame c).
  - destruct (promises c !! id) as [[r|k [| | |]]|]; try done.
    destruct (timer_armed _); [|done]. by apply (queue_ok_frame c).
  - destruct (promises c !! id) as [[r|k [|attempt ac start| |]]|] eqn:Hid; try done.
    destruct (after_attempt _ _ _ _ _ _ _) as [err|delay|res duration].
    + apply (queue_ok_settled id k _ (InFlight attempt ac start)); [done|done|].
      by apply (queue_ok_frame c).
    + apply (queue_ok_frame c); try done.
      unfold kinds. simpl. by apply (kinds_insert_same _ _ (Task k (InFlight attempt ac start))).
    + pose proof (task_complete_frame k res duration c) as (Hdc & Ha & Hq & Hp & _).
      destruct (task_complete k res duration c) as [c1 out]. simpl in *.
      apply (queue_ok_settled id k _ (InFlight attempt ac start)); [by rewrite Hp|done|].
      apply (queue_ok_frame c); [done|done| |by rewrite Hdc|done].
      unfold kinds. by rewrite Hp.
  - destruct (promises c !! id) as [[r|k [| |attempt delay start|]]|] eqn:Hid; try done.
    apply (queue_ok_frame c); try done.
    unfold kinds. simpl. by apply (kinds_insert_same _ _ (Task k (Sleeping attempt delay start))).
Qed.

Lemma queue_ok_init (uc : user_config) (t0 : Z) :
  match uc_maxConcurrent uc with Some n => 0 <= n | None => True end ->
  queue_ok (zjs uc t0).
Proof.
  intros Hn. unfold queue_ok. simpl. repeat split; try done.
  by destruct (uc_maxConcurrent uc).
Qed.

Lemma queue_ok_reachable (uc : user_config) (t0 : Z) (c : client) :
  match uc_maxConcurrent uc with Some n => 0 <= n | None => True end ->
  reachable uc t0 c -> queue_ok c.
Proof.
  intros Hn Hreach. induction Hreach as [|c e _ IH].
  - by apply queue_ok_init.
  - by apply queue_ok_step.
Qed.

Lemma run_defaultConfig (id : nat) (c : client) : defaultConfig (run id c) = defaultConfig c.
Proof. unfold run. simpl. by destruct (promises c !! id) as [[r|k p]|]. Qed.

Lemma settled_defaultConfig id k s c : defaultConfig (settled id k s c) = defaultConfig c.
Proof.
  unfold settled. simpl. destruct (queue c) as [|next rest]; [done|].
  by rewrite run_defaultConfig.
Qed.

Lemma step_maxConcurrent (e : event) (c : client) :
  maxConcurrent (defaultConfig (step e c)) = maxConcurrent (defaultConfig c).
Proof.
  destruct e as [v url body options|ro|request response|fn|fn|fn|token type| |method url body
                | |s|id|id o rnd|id|dt]; simpl; try done.
  - unfold call. destruct (api_verb v url body options) as [[m u] o].
    pose proof (handleFetchRaw_frame m u o c) as (Hdc & _).
    destruct (handleFetchRaw m u o c) as [c1 [r|k]]; simpl in *; [by rewrite Hdc|].
    unfold enqueue. destruct (below_limit _ _); simpl; [|by rewrite Hdc].
    by rewrite run_defaultConfig; simpl; rewrite Hdc.
  - unfold call. destruct (api_request ro) as [[m u] o].
    pose proof (handleFetchRaw_frame m u o c) as (Hdc & _).
    destruct (handleFetchRaw m u o c) as [c1 [r|k]]; simpl in *; [by rewrite Hdc|].
    unfold enqueue. destruct (below_limit _ _); simpl; [|by rewrite Hdc].
    by rewrite run_defaultConfig; simpl; rewrite Hdc.
  - by destruct request, response.
  - by destruct (token =? "")%string.
  - destruct (promises c !! id) as [[r|k [| | |]]|]; try done.
    by destruct (timer_armed _).
  - destruct (promises c !! id) as [[r|k [|attempt ac start| |]]|]; try done.
    destruct (after_attempt _ _ _ _ _ _ _) as [err|delay|res duration]; [|done|].
    + by rewrite settled_defaultConfig.
    + pose proof (task_complete_frame k res duration c) as (Hdc & _).
      destruct (task_complete k res duration c) as [c1 out]. simpl in *.
      by rewrite settled_defaultConfig, Hdc.
  - by destruct (promises c !! id) as [[r|k [| | |]]|].
Qed.

(** C4. In every state the client can reach (with [maxConcurrent] not
    negative): [activeCount] is the number of running tasks and lies
    between 0 and [maxConcurrent]; the wait list holds the waiting tasks in
    the order of their arrival, and no task is admitted before one that
    arrived earlier; and when a running task settles, resolved or rejected,
    [activeCount] is decremented and, if the wait list is not empty, its
    first task is removed from it, takes the slot and is started. *)
Theorem concurrency_queue_invariants (uc : user_config) (t0 : Z) (c : client) :
  match uc_maxConcurrent uc with Some n => 0 <= n | None => True end ->
  reachable uc t0 c ->
  0 <= activeCount c
  /\ within_limit (activeCount c) (maxConcurrent (defaultConfig c))
  /\ maxConcurrent (defaultConfig c)
     = match uc_maxConcurrent uc with Some n => Finite n | None => Infinity end
  /\ activeCount c = count_running (kinds c)
  /\ queue c = waiting_from 0 (kinds c)
  /\ fifo (kinds c)
  /\ (forall id k p s,
      promises c !! id = Some (Task k p) ->
      kind_of (Task k p) = KRunning ->
      match queue c with
      | [] =>
          activeCount (settled id k s c) = activeCount c - 1
          /\ queue (settled id k s c) = []
      | next :: rest =>
          exists k',
            promises c !! next = Some (Task k' Waiting)
            /\ (forall j, (j < next)%nat -> kinds c !! j <> Some KWaiting)
            /\ queue (settled id k s c) = rest
            /\ promises (settled id k s c) !! next
               = Some (Task k' (InFlight 1 (length (signals c)) (now c)))
            /\ activeCount (settled id k s c) = activeCount c - 1 + 1
      end).
Proof.
  intros Hn Hreach.
  pose proof (queue_ok_reachable uc t0 c Hn Hreach) as (Hcount & Hqueue & Hfull & Hlimit & Hfifo).
  split; [rewrite Hcount; apply count_running_nonneg|]. split; [done|]. split.
  { clear -Hreach. induction Hreach as [|c e _ IH]; [done|]. by rewrite step_maxConcurrent. }
  split; [done|]. split; [done|]. split; [done|].
  intros id k p s Hid Hrun.
  assert (Hkid : kinds c !! id = Some KRunning).
  { unfold kinds. by rewrite list_lookup_fmap, Hid, <- Hrun. }
  unfold settled. simpl.
  destruct (queue c) as [|next rest] eqn:Hq; [done|].
  symmetry in Hqueue.
  destruct (waiting_from_head _ _ _ _ Hqueue) as (i & -> & Hi & Hfirst & _). simpl in *.
  assert (Hne : id <> i) by (intros ->; congruence).
  assert (Hi0 := Hi). unfold kinds in Hi0. rewrite list_lookup_fmap in Hi0.
  destruct (promises c !! i) as [[r|k' [| | |]]|] eqn:Hpi; try done.
  exists k'. split; [done|]. split; [done|].
  match goal with |- context [run i ?c2] =>
    destruct (run_waiting i k' c2) as (Hp & Ha & Hq' & _) end.
  { simpl. by rewrite list_lookup_insert_ne. }
  simpl in *. rewrite Hp, Ha, Hq'. split; [done|]. split; [|done].
  apply list_lookup_insert_eq. rewrite length_insert. by eapply lookup_lt_Some.
Qed.

(** ** Cancellation *)




Lemma is_aborted_new_controller s st :
  is_aborted s (st ++ [fresh_signal]) = is_aborted s st.
Proof.
  unfold is_aborted.
  destruct (decide (s < length st)%nat) as [Hlt|Hge].
  - by rewrite lookup_app_l.
  - rewrite (lookup_ge_None_2 st) by lia.
    destruct (decide (s = length st)) as [->|Hne].
    + by rewrite lookup_last.
    + rewrite lookup_ge_None_2; [done|]. rewrite length_app. simpl. lia.
Qed.


Lemma is_aborted_addEventListener s t st x :
  is_aborted x (addEventListener s t st) = is_aborted x st.
Proof.
  unfold addEventListener, is_aborted.
  destruct (st !! s) as [sg|] eqn:Hsg; [|done].
  destruct (decide (s = x)) as [->|Hne].
  - rewrite list_lookup_insert_eq by (by eapply lookup_lt_Some). by rewrite Hsg.
  - by rewrite list_lookup_insert_ne.
Qed.

Lemma store_grows_addEventListener s t st : store_grows st (addEventListener s t st).
Proof.
  split; [|split].
  - unfold addEventListener. destruct (st !! s); [by rewrite length_insert|done].
  - intros x. by rewrite is_aborted_addEventListener.
  - intros x y Hy [Hf|(sg & Hx & Hab & Hin)].
    + left. by rewrite is_aborted_addEventListener.
    + right. unfold addEventListener.
      destruct (st !! s) as [sg'|] eqn:Hsg; [|by exists sg].
      destruct (decide (s = x)) as [->|Hne].
      * rewrite list_lookup_insert_eq by (by eapply lookup_lt_Some).
        eexists. split; [done|]. simpl.
        assert (sg' = sg) as -> by congruence.
        split; [done|]. apply elem_of_app. by left.
      * exists sg. by rewrite list_lookup_insert_ne.
Qed.








Lemma is_aborted_false_lookup s st :
  (s < length st)%nat -> is_aborted s st = false ->
  exists sg, st !! s = Some sg /\ aborted sg = false.
Proof.
  intros Hs Hab. unfold is_aborted in Hab.
  destruct (st !! s) as [sg|] eqn:Hsg; [by exists sg|].
  apply lookup_ge_None in Hsg. lia.
Qed.

Lemma addEventListener_propagates s t st :
  (s < length st)%nat -> is_aborted s st = false ->
  propagates (addEventListener s t st) s t.
Proof.
  intros Hs Hab. destruct (is_aborted_false_lookup s st Hs Hab) as (sg & Hsg & Hlive).
  right. unfold addEventListener. rewrite Hsg.
  eexists. split; [by apply list_lookup_insert_eq|]. simpl. split; [done|].
  apply elem_of_app. right. by apply list_elem_of_singleton.
Qed.

Lemma length_addEventListener s t st : length (addEventListener s t st) = length st.
Proof. unfold addEventListener. destruct (st !! s); [by rewrite length_insert|done]. Qed.

(** Lines 289-299 with a group whose signal has not fired: the composed
    signal is fresh and a listener on the group's signal aborts it. *)
Lemma compose_signals_group opts g st :
  opt_group opts = Some g ->
  (g < length st)%nat -> is_aborted g st = false ->
  (compose_signals opts st).2 = Some (length st)
  /\ length (compose_signals opts st).1 = S (length st)
  /\ is_aborted (length st) (compose_signals opts st).1 = false
  /\ propagates (compose_signals opts st).1 g (length st).
Proof.
  intros Hg Hlt Hab. unfold compose_signals. rewrite Hg. simpl.
  split; [done|].
  set (st2 := match opt_signal opts with
              | Some s => addEventListener s (length st) (st ++ [fresh_signal])
              | None => st ++ [fresh_signal]
              end).
  assert (Hlen2 : length st2 = S (length st)).
  { unfold st2. destruct (opt_signal opts);
      rewrite ?length_addEventListener, length_app; simpl; lia. }
  assert (Hab2 : forall x, is_aborted x st2 = is_aborted x st).
  { intros x. unfold st2. destruct (opt_signal opts);
      by rewrite ?is_aborted_addEventListener, is_aborted_new_controller. }
  split; [by rewrite length_addEventListener|]. split.
  - rewrite is_aborted_addEventListener, Hab2. unfold is_aborted.
    by rewrite lookup_ge_None_2.
  - apply addEventListener_propagates; [lia|]. by rewrite Hab2.
Qed.












(** ** The step function and [task] agree *)

Lemma run_events_app (es1 es2 : list event) (c : client) :
  run_events (es1 ++ es2) c = run_events es2 (run_events es1 c).
Proof. unfold run_events. by rewrite foldl_app. Qed.

Lemma run_events_cancels (l : list nat) : forall c,
  run_events (Cancel <$> l) c = set_signals (fun st => foldl (fun st s => abort s st) st l) c.
Proof.
  induction l as [|s l IH]; intros c; simpl; [by destruct c|].
  change (run_events (Cancel <$> l) (set_signals (abort s) c)
          = set_signals (fun st => foldl (fun st s => abort s st) (abort s st) l) c).
  by rewrite IH.
Qed.

Lemma same_host_refl c : same_host c c.
Proof. by repeat split. Qed.

Lemma same_host_set_promises f c c' :
  same_host c c' -> same_host (set_promises f c) c'.
Proof. done. Qed.

Lemma attempt_prefix_same_host id k e n ac start m b1 :
  same_host m b1 ->
  promises m !! id = Some (Task k (InFlight n ac start)) ->
  let m1 := run_events ((Cancel <$> env_cancels e)
                        ++ (if env_timer e then [TimerFires id] else [])
                        ++ [Tick (env_elapsed e)]) m in
  same_host m1 (during_attempt (retry_config_of k) ac e b1)
  /\ promises m1 = promises m /\ queue m1 = queue m.
Proof.
  intros (Hdc & Hmc & Hge & Hsig & Hnow & Htc & Hn) Hid.
  cbv zeta. rewrite !run_events_app, run_events_cancels.
  unfold during_attempt, same_host.
  destruct (env_timer e); simpl.
  - rewrite Hid. destruct (timer_armed (retry_config_of k)); simpl;
      rewrite Hsig, Hnow; by repeat split.
  - rewrite Hsig, Hnow. by repeat split.
Qed.

Lemma task_complete_same_host k res duration m b :
  same_host m b ->
  same_host (task_complete k res duration m).1 (task_complete k res duration b).1
  /\ (task_complete k res duration m).2 = (task_complete k res duration b).2.
Proof.
  intros (Hdc & Hmc & Hge & Hsig & Hnow & Htc & Hn).
  unfold task_complete, same_host. rewrite Hdc, Hnow.
  destruct (negb (raw_ok res)); simpl.
  - rewrite Hge, Hn, Hmc. by repeat split.
  - destruct (cacheable _ _); simpl; rewrite Hmc; by repeat split.
Qed.

Lemma task_catch_same_host k err m b :
  same_host m b ->
  same_host (task_catch k err m).1 (task_catch k err b).1
  /\ (task_catch k err m).2 = (task_catch k err b).2.
Proof.
  intros (Hdc & Hmc & Hge & Hsig & Hnow & Htc & Hn).
  unfold task_catch, same_host. simpl. rewrite Hge, Hn. by repeat split.
Qed.

Lemma settled_alone id k s p m :
  promises m !! id = Some (Task k p) ->
  queue m = [] ->
  same_host (settled id k s m) m
  /\ queue (settled id k s m) = []
  /\ promises (settled id k s m) !! id = Some (Task k (Done s)).
Proof.
  intros Hid Hq. unfold settled. simpl. rewrite Hq. simpl.
  split; [done|]. split; [done|].
  apply list_lookup_insert_eq. by eapply lookup_lt_Some.
Qed.

Lemma same_host_trans c1 c2 c3 : same_host c1 c2 -> same_host c2 c3 -> same_host c1 c3.
Proof.
  intros (?&?&?&?&?&?&?) (?&?&?&?&?&?&?). repeat split; congruence.
Qed.

Lemma sleep_same_host id k e n delay start m b :
  same_host m b ->
  promises m !! id = Some (Task k (Sleeping n delay start)) ->
  let m2 := run_events (sleep_events id delay e) m in
  same_host m2 (open_attempt (retry_config_of k) (during_sleep delay e b)).1
  /\ promises m2
     = <[id := Task k (InFlight (n + 1) (length (signals (during_sleep delay e b))) start)]>
         (promises m)
  /\ queue m2 = queue m.
Proof.
  intros (Hdc & Hmc & Hge & Hsig & Hnow & Htc & Hn) Hid.
  cbv zeta. unfold sleep_events. rewrite run_events_app, run_events_cancels.
  simpl. rewrite Hid. unfold open_attempt, during_sleep, same_host. simpl.
  rewrite Hsig, Hnow, Htc. by repeat split.
Qed.

(** The task of promise [id], started on a free client, runs through the
    step function as [task] says: after the events of the environments
    [envs] the promise is settled with the value [task] resolves to, and
    the host is in the state [task] leaves it in; no other task being
    there, nothing else happens. *)
Lemma drive_retry_loop (id : nat) (k : task_closure) (envs : list attempt_env) :
  forall attempt start m b,
    same_host m (open_attempt (retry_config_of k) b).1 ->
    promises m !! id = Some (Task k (InFlight (attempt + 1) (length (signals b)) start)) ->
    queue m = [] ->
    let m' := drive id envs m in
    let r := retry_loop (retry_config_of k) attempt start envs b in
    queue m' = []
    /\ match r.2 with
       | Pending =>
           same_host m' r.1
           /\ exists n ac, promises m' !! id = Some (Task k (InFlight n ac start))
       | Thrown err =>
           same_host m' (task_catch k err r.1).1
           /\ promises m' !! id = Some (Task k (Done (Resolved (task_catch k err r.1).2)))
       | Returned res duration =>
           same_host m' (task_complete k res duration r.1).1
           /\ promises m' !! id
              = Some (Task k (Done (Resolved (task_complete k res duration r.1).2)))
       end.
Proof.
  induction envs as [|e envs IH]; intros attempt start m b Hhost Hid Hq.
  - simpl. split; [done|]. split; [done|]. eauto.
  - rewrite retry_loop_cons. cbv zeta.
    destruct (attempt_prefix_same_host id k e _ _ _ m _ Hhost Hid) as (Hhost1 & Hp1 & Hq1).
    set (m1 := run_events ((Cancel <$> env_cancels e)
                           ++ (if env_timer e then [TimerFires id] else [])
                           ++ [Tick (env_elapsed e)]) m) in *.
    set (b2 := during_attempt (retry_config_of k) (length (signals b)) e
                 (open_attempt (retry_config_of k) b).1) in *.
    assert (Hsplit : run_events (attempt_events id e) m
                     = step (TransportSettles id (env_outcome e) (env_random e)) m1).
    { unfold attempt_events, m1.
      replace ((Cancel <$> env_cancels e)
               ++ (if env_timer e then [TimerFires id] else [])
               ++ [Tick (env_elapsed e);
                   TransportSettles id (env_outcome e) (env_random e)])
        with (((Cancel <$> env_cancels e)
               ++ (if env_timer e then [TimerFires id] else [])
               ++ [Tick (env_elapsed e)])
              ++ [TransportSettles id (env_outcome e) (env_random e)])
        by (by rewrite <- !app_assoc).
      by rewrite run_events_app. }
    cbn [drive]. rewrite Hsplit. cbn [step]. rewrite Hp1, Hid.
    assert (Hsig1 : signals m1 = signals b2) by apply Hhost1.
    assert (Hnow1 : now m1 = now b2) by apply Hhost1.
    rewrite Hsig1, Hnow1.
    assert (Hid1 : promises m1 !! id
                   = Some (Task k (InFlight (attempt + 1) (length (signals b)) start)))
      by (by rewrite Hp1).
    destruct (after_attempt (retry_config_of k) (attempt + 1)
                (is_aborted (length (signals b)) (signals b2)) (env_random e)
                start (now b2) (env_outcome e)) as [err|delay|res duration].
    + (* thrown *)
      destruct (task_catch_same_host k err m1 b2 Hhost1) as [Hsame Hout].
      pose proof (task_catch_frame k err m1) as (_ & _ & Fq & Fp & _).
      destruct (task_catch k err m1) as [m2 out]. simpl in Fq, Fp, Hsame, Hout.
      destruct (settled_alone id k (Resolved out)
                  (InFlight (attempt + 1) (length (signals b)) start) m2) as (Hs & Hsq & Hsp);
        [by rewrite Fp|congruence|].
      rewrite Hsp, Hsq.
      destruct (promises (settled id k (Resolved out) m2) !! id) eqn:E; [|done].
      injection Hsp as ->. simpl. split; [done|]. rewrite <- Hout. split; [|done].
      by eapply same_host_trans.
    + (* retried *)
      assert (Hsl : promises (set_promises
                       (<[id := Task k (Sleeping (attempt + 1) delay start)]>) m1) !! id
                    = Some (Task k (Sleeping (attempt + 1) delay start))).
      { simpl. apply list_lookup_insert_eq. by eapply lookup_lt_Some. }
      rewrite Hsl.
      destruct (sleep_same_host id k e _ delay start _ b2
                  (same_host_set_promises _ m1 b2 Hhost1) Hsl) as (Hh2 & Hp2 & Hq2).
      apply (IH (attempt + 1) start _ (during_sleep delay e b2)); [done| |].
      * rewrite Hp2. apply list_lookup_insert_eq. simpl. rewrite length_insert.
        by eapply lookup_lt_Some.
      * rewrite Hq2. simpl. congruence.
    + (* returned *)
      destruct (task_complete_same_host k res duration m1 b2 Hhost1) as [Hsame Hout].
      pose proof (task_complete_frame k res duration m1) as (_ & _ & Fq & Fp & _).
      destruct (task_complete k res duration m1) as [m2 out]. simpl in Fq, Fp, Hsame, Hout.
      destruct (settled_alone id k (Resolved out)
                  (InFlight (attempt + 1) (length (signals b)) start) m2) as (Hs & Hsq & Hsp);
        [by rewrite Fp|congruence|].
      rewrite Hsp, Hsq.
      destruct (promises (settled id k (Resolved out) m2) !! id) eqn:E; [|done].
      injection Hsp as ->. simpl. split; [done|]. rewrite <- Hout. split; [|done].
      by eapply same_host_trans.
Qed.

Lemma enqueue_free_slot_same_host (k : task_closure) (c : client) :
  below_limit (activeCount c) (maxConcurrent (defaultConfig c)) = true ->
  same_host (enqueue k c) (open_attempt (retry_config_of k) c).1.
Proof.
  intros Hlim. unfold enqueue. simpl. rewrite Hlim. unfold run. simpl.
  rewrite lookup_last. by repeat split.
Qed.

(** A request made on a client with a free slot and no waiting task: the
    promise it gets settles, under the step function, as [task] says. *)
Lemma drive_agrees_with_task method url opts (k : task_closure) (envs : list attempt_env)
    (c : client) :
  (handleFetchRaw method url opts c).2 = Enqueued k ->
  below_limit (activeCount c) (maxConcurrent (defaultConfig c)) = true ->
  queue c = [] ->
  let id := length (promises c) in
  let m := drive id envs (call (method, url, opts) c) in
  let r := task k envs (handleFetchRaw method url opts c).1 in
  same_host m r.1
  /\ match r.2 with
     | Some s => promises m !! id = Some (Task k (Done s))
     | None => exists n ac start, promises m !! id = Some (Task k (InFlight n ac start))
     end.
Proof.
  intros Hk Hlim Hq id m r. subst m r. unfold call, task, fetchWithRetry.
  pose proof (handleFetchRaw_frame method url opts c)
    as (Hdc & _ & Ha & Hq' & Hp & Hnow & _).
  destruct (handleFetchRaw method url opts c) as [c1 h]. simpl in *. subst h.
  assert (Hlim1 : below_limit (activeCount c1) (maxConcurrent (defaultConfig c1)) = true)
    by (by rewrite Hdc, Ha).
  destruct (enqueue_free_slot k c1 Hlim1) as (_ & Ep & _ & Eq).
  assert (H1 : same_host (enqueue k c1) (open_attempt (retry_config_of k) c1).1)
    by (by apply enqueue_free_slot_same_host).
  assert (H2 : promises (enqueue k c1) !! id
               = Some (Task k (InFlight (0 + 1) (length (signals c1)) (now c1)))).
  { rewrite Ep. unfold id. rewrite <- Hp. apply lookup_last. }
  assert (H3 : queue (enqueue k c1) = []) by (by rewrite Eq, Hq').
  destruct (drive_retry_loop id k envs 0 (now c1) (enqueue k c1) c1 H1 H2 H3) as (_ & Hres).
  destruct (retry_loop (retry_config_of k) 0 (now c1) envs c1) as [b fs]. simpl in *.
  destruct fs as [res duration|err|].
  - destruct (task_complete k res duration b) as [b' out]. by destruct Hres.
  - simpl. by destruct Hres.
  - destruct Hres as (Hs & n & ac & Hn). split; [done|]. by exists n, ac, (now c1).
Qed.

Lemma reachable_run_events (uc : user_config) (t0 : Z) (es : list event) : forall c,
  reachable uc t0 c -> reachable uc t0 (run_events es c).
Proof.
  induction es as [|e es IH]; intros c Hc; [done|].
  simpl. apply IH. by apply reachable_step.
Qed.

(** * Further properties

    Properties read off the code of [dist/zfecth.js] beyond those of the
    design document: URL resolution, headers, request bodies, cache
    management, the retry loop, timeouts and tokens, the limit of
    concurrency, and the env chain. *)

(** ** URL resolution *)

Lemma strip_leading_slashes_cons (a : ascii) (s : string) :
  strip_leading_slashes (String a s)
  = if Ascii.eqb a "/" then strip_leading_slashes s else String a s.
Proof. by destruct a as [[] [] [] [] [] [] [] []]. Qed.

Lemma startsWith_slash_cons (a : ascii) (s : string) :
  startsWith "/" (String a s) = Ascii.eqb a "/".
Proof.
  unfold startsWith.
  change (String.prefix "/" (String a s))
    with (if ascii_dec "/" a then String.prefix "" s else false).
  destruct (ascii_dec "/" a) as [<-|Hne].
  - by destruct s.
  - symmetry. apply Ascii.eqb_neq. congruence.
Qed.

Lemma strip_leading_slashes_no_slash (s : string) :
  startsWith "/" (strip_leading_slashes s) = false.
Proof.
  induction s as [|a s IH]; [done|].
  rewrite strip_leading_slashes_cons.
  destruct (Ascii.eqb a "/") eqn:Ha; [done|]. by rewrite startsWith_slash_cons.
Qed.

Lemma strip_leading_slashes_fixed (s : string) :
  startsWith "/" s = false -> strip_leading_slashes s = s.
Proof.
  destruct s as [|a s]; [done|].
  rewrite startsWith_slash_cons, strip_leading_slashes_cons. by intros ->.
Qed.

Lemma strip_trailing_slashes_fixed (s : string) :
  endsWith_slash s = false -> strip_trailing_slashes s = s.
Proof.
  induction s as [|a s IH]; [done|].
  destruct s as [|b s].
  - simpl. by intros ->.
  - intros H. change (endsWith_slash (String b s) = false) in H.
    change (strip_trailing_slashes (String a (String b s)))
      with (match strip_trailing_slashes (String b s) with
            | EmptyString => if Ascii.eqb a "/" then EmptyString else String a EmptyString
            | r => String a r
            end).
    by rewrite (IH H).
Qed.

Lemma strip_trailing_slashes_no_slash (s : string) :
  endsWith_slash (strip_trailing_slashes s) = false.
Proof.
  induction s as [|a s IH]; [done|].
  change (strip_trailing_slashes (String a s))
    with (match strip_trailing_slashes s with
          | EmptyString => if Ascii.eqb a "/" then EmptyString else String a EmptyString
          | r => String a r
          end).
  destruct (strip_trailing_slashes s) as [|b r].
  - destruct (Ascii.eqb a "/") eqn:Ha; [done|]. simpl. done.
  - done.
Qed.

Lemma strip_trailing_slashes_prefix (s : string) :
  exists t, s = strip_trailing_slashes s +:+ t.
Proof.
  induction s as [|a s [t IH]]; [by exists ""|].
  change (strip_trailing_slashes (String a s))
    with (match strip_trailing_slashes s with
          | EmptyString => if Ascii.eqb a "/" then EmptyString else String a EmptyString
          | r => String a r
          end).
  destruct (strip_trailing_slashes s) as [|b r].
  - destruct (Ascii.eqb a "/"); [by exists (String a s)|by exists s].
  - exists t. by rewrite IH at 1.
Qed.

Lemma toLowerCase_app (s t : string) :
  toLowerCase (s +:+ t) = toLowerCase s +:+ toLowerCase t.
Proof. induction s as [|a s IH]; simpl; [done|]. by rewrite IH. Qed.

Lemma prefix_app (p s t : string) :
  String.prefix p s = true -> String.prefix p (s +:+ t) = true.
Proof.
  revert s. induction p as [|a p IH]; intros s H.
  - by destruct (s +:+ t).
  - destruct s as [|b s]; [done|].
    change (String.prefix (String a p) (String b s +:+ t))
      with (if ascii_dec a b then String.prefix p (s +:+ t) else false).
    change (String.prefix (String a p) (String b s))
      with (if ascii_dec a b then String.prefix p s else false) in H.
    destruct (ascii_dec a b); [by apply IH|done].
Qed.

Lemma is_absolute_url_app (s t : string) :
  is_absolute_url s = true -> is_absolute_url (s +:+ t) = true.
Proof.
  unfold is_absolute_url, startsWith. rewrite toLowerCase_app.
  intros H. apply orb_true_iff in H as [H|H]; apply orb_true_iff; [left|right];
    by apply prefix_app.
Qed.

Lemma fullUrl_absolute (dc : config) (url : string) :
  is_absolute_url url = true -> fullUrl dc url = url.
Proof.
  intros H. unfold fullUrl. rewrite H.
  by destruct url.
Qed.

Lemma fullUrl_join (dc : config) (url : string) :
  url <> "" -> is_absolute_url url = false -> baseURL dc <> "" ->
  fullUrl dc url
  = strip_trailing_slashes (baseURL dc) +:+ "/" +:+ strip_leading_slashes url.
Proof.
  intros Hurl Habs Hbase. unfold fullUrl.
  apply String.eqb_neq in Hurl, Hbase. rewrite Hurl, Habs, Hbase.
  destruct (endsWith_slash (baseURL dc)) eqn:He; [done|].
  destruct (startsWith "/" url) eqn:Hs; [done|]. simpl.
  by rewrite (strip_trailing_slashes_fixed _ He).
Qed.

(** X1. A relative path is appended to the base URL with exactly one slash
    between them: whatever slashes end the base and begin the path, the
    result is the base without its trailing slashes, one slash, and the
    path without its leading slashes. *)
Theorem fullUrl_joins_with_one_slash (dc : config) (url : string) :
  url <> "" -> is_absolute_url url = false -> baseURL dc <> "" ->
  fullUrl dc url
  = strip_trailing_slashes (baseURL dc) +:+ "/" +:+ strip_leading_slashes url
  /\ endsWith_slash (strip_trailing_slashes (baseURL dc)) = false
  /\ startsWith "/" (strip_leading_slashes url) = false.
Proof.
  intros Hurl Habs Hbase. split; [by apply fullUrl_join|].
  split; [apply strip_trailing_slashes_no_slash|apply strip_leading_slashes_no_slash].
Qed.

(** X2. With a base URL that is itself absolute, resolving is idempotent:
    what [fullUrl] returns is returned unchanged when resolved again, so a
    caller may pass an URL that has already been resolved. *)
Theorem fullUrl_idempotent (dc : config) (url : string) :
  is_absolute_url (strip_trailing_slashes (baseURL dc)) = true ->
  fullUrl dc (fullUrl dc url) = fullUrl dc url.
Proof.
  intros Hbase.
  assert (Habs : is_absolute_url (baseURL dc) = true).
  { destruct (strip_trailing_slashes_prefix (baseURL dc)) as [t Ht].
    rewrite Ht. by apply is_absolute_url_app. }
  destruct (String.eqb_spec url "") as [->|Hurl].
  { unfold fullUrl at 2. simpl. by apply fullUrl_absolute. }
  destruct (is_absolute_url url) eqn:Hrel.
  { rewrite (fullUrl_absolute dc url Hrel). by apply fullUrl_absolute. }
  assert (Hne : baseURL dc <> "").
  { intros He. by rewrite He in Habs. }
  rewrite (fullUrl_join dc url Hurl Hrel Hne).
  apply fullUrl_absolute. by apply is_absolute_url_app.
Qed.

(** ** Headers *)

Lemma obj_get_obj_set {A} (k k' : string) (v : A) (o : obj A) :
  obj_get k (obj_set k' v o) = if (k =? k')%string then Some v else obj_get k o.
Proof.
  induction o as [|[k1 v1] o IH]; simpl; [done|].
  destruct (String.eqb_spec k' k1) as [->|Hne]; simpl.
  - by destruct (String.eqb_spec k k1).
  - rewrite IH. destruct (String.eqb_spec k k1) as [->|Hk]; [|done].
    destruct (String.eqb_spec k1 k'); [congruence|done].
Qed.


Lemma obj_set_keys {A} (k : string) (v : A) (o : obj A) :
  (obj_set k v o).*1 = if decide (k ∈ o.*1) then o.*1 else o.*1 ++ [k].
Proof.
  induction o as [|[k1 v1] o IH].
  - by rewrite decide_False by apply not_elem_of_nil.
  - change (obj_set k v ((k1, v1) :: o))
      with (if (k =? k1)%string then (k, v) :: o else (k1, v1) :: obj_set k v o).
    rewrite (fmap_cons fst (k1, v1) o).
    destruct (String.eqb_spec k k1) as [->|Hne].
    + rewrite decide_True; [done|]. apply elem_of_cons. by left.
    + rewrite fmap_cons, IH. destruct (decide (k ∈ o.*1)) as [Hin|Hout].
      * rewrite decide_True; [done|]. apply elem_of_cons. by right.
      * rewrite decide_False; [done|]. by apply not_elem_of_cons.
Qed.

Lemma obj_set_fresh {A} (k : string) (v : A) (o : obj A) :
  k ∉ o.*1 -> obj_set k v o = o ++ [(k, v)].
Proof.
  induction o as [|[k1 v1] o IH]; simpl; [done|].
  intros [Hne Hout]%not_elem_of_cons.
  destruct (String.eqb_spec k k1); [done|]. by rewrite IH.
Qed.

Lemma obj_set_NoDup {A} (k : string) (v : A) (o : obj A) :
  NoDup o.*1 -> NoDup (obj_set k v o).*1.
Proof.
  intros H. rewrite obj_set_keys. destruct (decide (k ∈ o.*1)); [done|].
  apply NoDup_app. split; [done|]. split; [|apply NoDup_singleton].
  intros x Hx ->%list_elem_of_singleton. done.
Qed.

Lemma obj_assign_NoDup {A} (s : obj A) : forall t : obj A,
  NoDup t.*1 -> NoDup (obj_assign t s).*1.
Proof.
  induction s as [|[k v] s IH]; intros t Ht; [done|].
  apply (IH (obj_set k v t)). by apply obj_set_NoDup.
Qed.

Lemma obj_get_obj_assign_absent {A} (k : string) (s : obj A) : forall t : obj A,
  k ∉ s.*1 -> obj_get k (obj_assign t s) = obj_get k t.
Proof.
  induction s as [|[k1 v1] s IH]; intros t Hout; [done|].
  simpl in Hout. apply not_elem_of_cons in Hout as [Hne Hout].
  unfold obj_assign in *. simpl. rewrite (IH _ Hout), obj_get_obj_set.
  by destruct (String.eqb_spec k k1).
Qed.

Lemma obj_get_obj_assign {A} (k : string) (s : obj A) : forall t : obj A,
  NoDup s.*1 ->
  obj_get k (obj_assign t s)
  = match obj_get k s with
    | Some v => Some v
    | None => obj_get k t
    end.
Proof.
  induction s as [|[k1 v1] s IH]; intros t Hs; [done|].
  simpl in Hs. apply NoDup_cons in Hs as [Hk1 Hs].
  unfold obj_assign in *. simpl.
  destruct (String.eqb_spec k k1) as [->|Hne].
  - pose proof (obj_get_obj_assign_absent k1 s (obj_set k1 v1 t) Hk1) as H.
    unfold obj_assign in H. rewrite H, obj_get_obj_set. by rewrite String.eqb_refl.
  - rewrite (IH _ Hs), obj_get_obj_set.
    by destruct (String.eqb_spec k k1).
Qed.



(** Only the registration calls and [setToken] touch [defaultConfig]. *)
Lemma step_defaultConfig (e : event) (c : client) :
  match e with
  | ApiUse _ _ | ApiAddTransformRequest _ | ApiAddTransformResponse _ | ApiSetToken _ _ => True
  | _ => defaultConfig (step e c) = defaultConfig c
  end.
Proof.
  destruct e as [v url body options|ro|request response|fn|fn|fn|token type| |method url body
                | |s|id|id o rnd|id|dt]; simpl; try done.
  - unfold call. destruct (api_verb v url body options) as [[m u] o].
    pose proof (handleFetchRaw_frame m u o c) as (Hdc & _).
    destruct (handleFetchRaw m u o c) as [c1 [r|k]]; simpl in *; [by rewrite Hdc|].
    unfold enqueue. destruct (below_limit _ _); simpl; [|by rewrite Hdc].
    by rewrite run_defaultConfig; simpl; rewrite Hdc.
  - unfold call. destruct (api_request ro) as [[m u] o].
    pose proof (handleFetchRaw_frame m u o c) as (Hdc & _).
    destruct (handleFetchRaw m u o c) as [c1 [r|k]]; simpl in *; [by rewrite Hdc|].
    unfold enqueue. destruct (below_limit _ _); simpl; [|by rewrite Hdc].
    by rewrite run_defaultConfig; simpl; rewrite Hdc.
  - destruct (promises c !! id) as [[r|k [| | |]]|]; try done.
    by destruct (timer_armed _).
  - destruct (promises c !! id) as [[r|k [|attempt ac start| |]]|]; try done.
    destruct (after_attempt _ _ _ _ _ _ _) as [err|delay|res duration]; [|done|].
    + by rewrite settled_defaultConfig.
    + pose proof (task_complete_frame k res duration c) as (Hdc & _).
      destruct (task_complete k res duration c) as [c1 out]. simpl in *.
      by rewrite settled_defaultConfig, Hdc.
  - by destruct (promises c !! id) as [[r|k [| | |]]|].
Qed.

Lemma step_baseURL (e : event) (c : client) :
  baseURL (defaultConfig (step e c)) = baseURL (defaultConfig c)
  /\ timeout (defaultConfig (step e c)) = timeout (defaultConfig c).
Proof.
  pose proof (step_defaultConfig e c) as H.
  destruct e as [v url body options|ro|request response|fn|fn|fn|token type| |method url body
                | |s|id|id o rnd|id|dt]; try (by rewrite H); simpl.
  - by destruct request, response.
  - done.
  - done.
  - by destruct (token =? "")%string.
Qed.



Lemma initial_config_headers method url opts c :
  fo_headers (cfg_options (initial_config method url opts c).2)
  = obj_assign []
      (obj_assign (obj_assign [] (default_headers (defaultConfig c)))
                  (default [] (opt_headers opts))).
Proof.
  unfold initial_config. by destruct (compose_signals opts (signals c)).
Qed.




(** X5. The base URL is fixed when the client is created: no call of the
    API changes it, nor the default timeout.  When the client is created
    with an env chain, the base URL is what the chain resolves to at
    that moment, and every later request is resolved against it. *)
Theorem base_url_is_resolved_once
    (host : host_names) (ctx : env_ctx) (uc : user_config) (t0 : Z) (c : client) :
  uc_baseURL uc = baseURL_of host (BaseEnvChain ctx) ->
  reachable uc t0 c ->
  baseURL (defaultConfig c) = env_toString ctx host
  /\ timeout (defaultConfig c) = uc_timeout uc
  /\ forall url, fullUrl (defaultConfig c) url = fullUrl (defaultConfig (zjs uc t0)) url.
Proof.
  intros Hbase Hreach.
  assert (H : baseURL (defaultConfig c) = uc_baseURL uc
              /\ timeout (defaultConfig c) = uc_timeout uc).
  { induction Hreach as [|c e _ IH]; [done|].
    destruct (step_baseURL e c) as [-> ->]. done. }
  destruct H as [Hb Ht]. split; [by rewrite Hb, Hbase|]. split; [done|].
  intros url. unfold fullUrl. by rewrite Hb.
Qed.

(** ** Bodies of the verbs that carry one *)

Lemma find_key_ci_obj_set_Some {A} (name k k0 : string) (v : A) (o : obj A) :
  find_key_ci name o = Some k0 -> find_key_ci name (obj_set k v o) = Some k0.
Proof.
  unfold find_key_ci. induction o as [|[k1 v1] o IH]; simpl; [done|].
  destruct (String.eqb_spec k k1) as [->|Hne]; simpl;
    by destruct (toLowerCase k1 =? name)%string.
Qed.

Lemma find_key_ci_obj_set_None {A} (name k : string) (v : A) (o : obj A) :
  find_key_ci name o = None ->
  find_key_ci name (obj_set k v o)
  = if (toLowerCase k =? name)%string then Some k else None.
Proof.
  unfold find_key_ci. induction o as [|[k1 v1] o IH]; simpl.
  - intros _. by destruct (toLowerCase k =? name)%string.
  - destruct (toLowerCase k1 =? name)%string eqn:Hk1; [done|]. intros Ho.
    destruct (String.eqb_spec k k1) as [->|Hne]; simpl.
    + by rewrite Hk1.
    + rewrite Hk1. by apply IH.
Qed.

Lemma find_key_ci_obj_assign_Some {A} (name k0 : string) (s : obj A) : forall t : obj A,
  find_key_ci name t = Some k0 -> find_key_ci name (obj_assign t s) = Some k0.
Proof.
  induction s as [|[k v] s IH]; intros t Ht; [done|].
  apply (IH (obj_set k v t)). by apply find_key_ci_obj_set_Some.
Qed.

Lemma find_key_ci_obj_assign_None {A} (name : string) (s : obj A) : forall t : obj A,
  find_key_ci name t = None -> find_key_ci name (obj_assign t s) = find_key_ci name s.
Proof.
  induction s as [|[k v] s IH]; intros t Ht; [done|].
  change (obj_assign t ((k, v) :: s)) with (obj_assign (obj_set k v t) s).
  pose proof (find_key_ci_obj_set_None name k v t Ht) as Hset.
  unfold find_key_ci at 2. simpl. fold (find_key_ci name s).
  destruct (toLowerCase k =? name)%string.
  - by apply find_key_ci_obj_assign_Some.
  - by apply IH.
Qed.

Lemma find_key_ci_absent {A} (name k : string) (o : obj A) :
  find_key_ci name o = None -> toLowerCase k = name -> k ∉ o.*1.
Proof.
  unfold find_key_ci. induction o as [|[k1 v1] o IH]; simpl.
  - intros _ _. apply not_elem_of_nil.
  - destruct (toLowerCase k1 =? name)%string eqn:Hk1; [done|]. intros Ho Hk.
    apply not_elem_of_cons. split; [|by apply IH].
    intros ->. apply String.eqb_neq in Hk1. done.
Qed.

(** X6. [api.post], [api.put] and [api.patch], on a client with no request
    transform and with no content type among the default headers or the
    headers of the call.  The body sent is the second argument of the call,
    or [{}] when that is [undefined] or left out.  A body that is an object
    is sent as its JSON text, with the header [Content-Type:
    application/json] added, so a call without a body sends the JSON text
    of [{}] under that header; any other body is put into the options as it
    is (nothing for [null]), and no content type is added. *)
Theorem post_object_body_is_json
    (v : verb) (url : string) (body : value) (options : call_opts) (c : client) :
  v = Post \/ v = Put \/ v = Patch ->
  transformRequest (defaultConfig c) = [] ->
  find_key_ci "content-type" (default_headers (defaultConfig c)) = None ->
  find_key_ci "content-type" (default [] (opt_headers options)) = None ->
  let args := api_verb v url body options in
  let o := cfg_options (initial_config args.1.1 args.1.2 args.2 c).2 in
  let sent := param_default (VObj []) body in
  (if isObj sent
   then fo_body o = VStr (JSON_stringify sent)
        /\ obj_get "Content-Type" (fo_headers o) = Some "application/json"
   else fo_body o = (if not_nullish sent then sent else VUndefined)
        /\ find_key_ci "content-type" (fo_headers o) = None)
  /\ (body = VUndefined ->
      sent = VObj []
      /\ fo_body o = VStr (JSON_stringify (VObj []))
      /\ obj_get "Content-Type" (fo_headers o) = Some "application/json")
  /\ (body <> VUndefined -> sent = body).
Proof.
  intros Hv Htr Hdh Hh args o sent.
  cut (if isObj sent
       then fo_body o = VStr (JSON_stringify sent)
            /\ obj_get "Content-Type" (fo_headers o) = Some "application/json"
       else fo_body o = (if not_nullish sent then sent else VUndefined)
            /\ find_key_ci "content-type" (fo_headers o) = None).
  { intros Hmain. split; [exact Hmain|]. split.
    - intros Hb. assert (Hs : sent = VObj []) by (unfold sent; by rewrite Hb).
      rewrite Hs in Hmain. simpl in Hmain. by destruct Hmain.
    - intros Hb. unfold sent. by destruct body. }
  assert (Hargs' : api_verb v url body options = api_verb v url sent options).
  { unfold sent. destruct Hv as [-> | [-> | ->]]; by destruct body. }
  assert (Hsent : param_default (VObj []) sent = sent).
  { unfold sent. by destruct body. }
  subst args o. rewrite Hargs'. clearbody sent. clear Hargs' body.
  rename sent into body.
  set (h := default [] (opt_headers options)) in *.
  set (dh := default_headers (defaultConfig c)) in *.
  assert (Hargs : exists m,
            (m = "post" \/ m = "put" \/ m = "patch")
            /\ api_verb v url body options
               = (m, url,
                  {| opt_headers :=
                       Some (if isObj body
                             then obj_set "Content-Type" "application/json" h else h);
                     opt_body := Some body; opt_data := opt_data options;
                     opt_timeout := opt_timeout options; opt_retry := opt_retry options;
                     opt_retries := opt_retries options;
                     opt_retryDelay := opt_retryDelay options;
                     opt_cache := opt_cache options; opt_signal := opt_signal options;
                     opt_group := opt_group options |})).
  { destruct Hv as [-> | [-> | ->]]; eexists;
      (split; [|unfold api_verb; rewrite Hsent; fold h; by rewrite Hh]); auto. }
  destruct Hargs as (m & Hm & ->). simpl.
  destruct (initial_config_body m url
              {| opt_headers :=
                   Some (if isObj body
                         then obj_set "Content-Type" "application/json" h else h);
                 opt_body := Some body; opt_data := opt_data options;
                 opt_timeout := opt_timeout options; opt_retry := opt_retry options;
                 opt_retries := opt_retries options;
                 opt_retryDelay := opt_retryDelay options;
                 opt_cache := opt_cache options; opt_signal := opt_signal options;
                 opt_group := opt_group options |} c) as (-> & _).
  rewrite initial_config_headers. simpl. fold dh.
  unfold applyTransformRequest, body_of. rewrite Htr. simpl.
  assert (Hguard : negb (m =? "GET")%string && negb (m =? "HEAD")%string = true).
  { by destruct Hm as [-> | [-> | ->]]. }
  assert (Hbase : find_key_ci "content-type" (obj_assign [] dh) = None).
  { by rewrite find_key_ci_obj_assign_None. }
  unfold attach_body. rewrite <- andb_assoc, Hguard, andb_true_r.
  destruct (isObj body) eqn:Hobj.
  - assert (Hfresh : "Content-Type" ∉ h.*1) by (by eapply find_key_ci_absent).
    assert (Hfind : find_key_ci "content-type"
                      (obj_assign []
                         (obj_assign (obj_assign [] dh)
                            (obj_set "Content-Type" "application/json" h)))
                    = Some "Content-Type").
    { rewrite find_key_ci_obj_assign_None by done.
      rewrite find_key_ci_obj_assign_None by done.
      by rewrite find_key_ci_obj_set_None. }
    assert (Hget : obj_get "Content-Type"
                     (obj_assign []
                        (obj_assign (obj_assign [] dh)
                           (obj_set "Content-Type" "application/json" h)))
                   = Some "application/json").
    { rewrite obj_get_obj_assign
        by (apply obj_assign_NoDup, obj_assign_NoDup, NoDup_nil_2).
      rewrite (obj_set_fresh _ _ _ Hfresh). unfold obj_assign at 1.
      rewrite foldl_snoc. simpl. rewrite obj_get_obj_set. done. }
    rewrite Hfind, Hget. destruct body; try done.
  - assert (Hfind : find_key_ci "content-type"
                      (obj_assign [] (obj_assign (obj_assign [] dh) h)) = None).
    { rewrite find_key_ci_obj_assign_None by done.
      by rewrite find_key_ci_obj_assign_None. }
    rewrite Hfind. simpl. by destruct (not_nullish body).
Qed.

(** ** Cache management *)

Lemma build_config_set_memoryCache f method url opts c :
  build_config method url opts (set_memoryCache f c)
  = (set_memoryCache f (build_config method url opts c).1,
     (build_config method url opts c).2).
Proof.
  unfold build_config, initial_config. simpl.
  by destruct (compose_signals opts (signals c)).
Qed.

(** A request whose key is not in the cache goes to the queue. *)
Lemma handleFetchRaw_miss method url opts c :
  let cfg := (build_config method url opts c).2 in
  memoryCache c !! makeCacheKey (cfg_method cfg) (cfg_url cfg) (fo_body (cfg_options cfg))
  = None ->
  exists k, (handleFetchRaw method url opts c).2 = Enqueued k
            /\ tk_cfg k = cfg
            /\ memoryCache (handleFetchRaw method url opts c).1 = memoryCache c.
Proof.
  intros cfg Hmiss. subst cfg.
  pose proof (build_config_frame method url opts c) as (_ & Hmc & _).
  unfold handleFetchRaw.
  destruct (build_config method url opts c) as [c1 cfg]. simpl in *.
  unfold serve_or_enqueue. destruct (cacheable _ _).
  - unfold getCached. rewrite Hmc, Hmiss. simpl. by eexists.
  - simpl. by eexists.
Qed.

Lemma makeCacheKey_method (m m' url : string) (body : value) :
  toUpperCase m = toUpperCase m' -> makeCacheKey m url body = makeCacheKey m' url body.
Proof. unfold makeCacheKey. by intros ->. Qed.

(** X7. [deleteCacheKey(method, url, body)], called with the resolved URL
    and the body of a request and with its method in any letter case,
    removes the entry of that request and no other: the next such request
    is not served from the cache but handed to the queue. *)
Theorem deleteCacheKey_forces_miss
    (c : client) (method url : string) (opts : call_opts) (m : string) :
  let cfg := (build_config method url opts c).2 in
  let key := makeCacheKey (cfg_method cfg) (cfg_url cfg) (fo_body (cfg_options cfg)) in
  let c' := step (ApiDeleteCacheKey m (cfg_url cfg) (fo_body (cfg_options cfg))) c in
  toUpperCase m = toUpperCase (cfg_method cfg) ->
  (exists k, (handleFetchRaw method url opts c').2 = Enqueued k /\ tk_cfg k = cfg)
  /\ memoryCache c' !! key = None
  /\ (forall key', key' <> key -> memoryCache c' !! key' = memoryCache c !! key').
Proof.
  intros cfg key c' Hm. subst c'. simpl.
  rewrite (makeCacheKey_method m (cfg_method cfg) _ _ Hm). fold key.
  split; [|split].
  - destruct (handleFetchRaw_miss method url opts
                (set_memoryCache (delete key) c)) as (k & Hk & Hcfg & _).
    + rewrite build_config_set_memoryCache. simpl. fold cfg. fold key.
      apply lookup_delete_eq.
    + exists k. split; [done|]. rewrite Hcfg.
      by rewrite build_config_set_memoryCache.
  - apply lookup_delete_eq.
  - intros key' Hne. by apply lookup_delete_ne.
Qed.

(** X8. After [clearCache()] the cache is empty: whatever request comes
    next is handed to the queue, none is served from the cache. *)
Theorem clearCache_forces_network (c : client) (method url : string) (opts : call_opts) :
  exists k,
    (handleFetchRaw method url opts (step ApiClearCache c)).2 = Enqueued k
    /\ memoryCache (handleFetchRaw method url opts (step ApiClearCache c)).1 = ∅.
Proof.
  simpl.
  destruct (handleFetchRaw_miss method url opts (set_memoryCache (fun _ => ∅) c))
    as (k & Hk & _ & Hmc); [apply lookup_empty|].
  exists k. by rewrite Hmc.
Qed.


(** X10. Only a successful cacheable request writes to the cache.  A task
    that resolves to a failure result (a transport failure, an abort, a
    reply that is not ok), a task that is still pending, and a task whose
    method is not GET or whose [cache] option is not positive, all leave
    the cache exactly as it was. *)
Theorem failures_are_never_cached (k : task_closure) (envs : list attempt_env) (c : client) :
  (forall f, (task k envs c).2 = Some (Resolved (FailureResult f)) ->
             memoryCache (task k envs c).1 = memoryCache c)
  /\ ((task k envs c).2 = None -> memoryCache (task k envs c).1 = memoryCache c)
  /\ (cfg_method (tk_cfg k) <> "GET" \/ tk_cacheTTL k <= 0 ->
      memoryCache (task k envs c).1 = memoryCache c).
Proof.
  pose proof (retry_loop_frame (retry_config_of k) envs 0 (now c) c) as (_ & Hmc & _).
  unfold task, fetchWithRetry. simpl in Hmc.
  destruct (retry_loop (retry_config_of k) 0 (now c) envs c) as [c1 fs]. simpl in *.
  assert (Hnc : cfg_method (tk_cfg k) <> "GET" \/ tk_cacheTTL k <= 0 ->
                cacheable (tk_cfg k) (tk_cacheTTL k) = false).
  { unfold cacheable. intros [Hm|Ht]; apply andb_false_iff.
    - left. by apply String.eqb_neq.
    - right. apply Z.ltb_ge. lia. }
  destruct fs as [res duration|err|]; simpl.
  - unfold task_complete. destruct (raw_ok res); simpl.
    + destruct (cacheable (tk_cfg k) (tk_cacheTTL k)) eqn:Hc; simpl.
      * split; [done|]. split; [done|]. intros H. specialize (Hnc H). congruence.
      * done.
    + done.
  - done.
  - done.
Qed.

(** ** Replies and the retry loop *)

Lemma existsb_elem_of (x : Z) (l : list Z) : existsb (Z.eqb x) l = true <-> x ∈ l.
Proof.
  rewrite existsb_exists, list_elem_of_In. split.
  - intros (y & Hy & ->%Z.eqb_eq). done.
  - intros H. exists x. split; [done|apply Z.eqb_refl].
Qed.

(** X11. A task never retries a reply that is ok, nor one whose status is
    not 429, 502, 503 or 504 (the list cannot be set through the API):
    whatever [retries] is, such a reply ends the loop at the first attempt,
    after one transport call, with the time of that attempt as duration. *)
Theorem unlisted_status_is_not_retried
    (k : task_closure) (e : attempt_env) (envs : list attempt_env) (c : client)
    (res : raw_response) :
  env_outcome e = Fulfils res ->
  raw_ok res = true \/ (raw_status res ∉ [429; 502; 503; 504]) ->
  (fetchWithRetry (retry_config_of k) (e :: envs) c).2 = Returned res (env_elapsed e)
  /\ calls_between c (fetchWithRetry (retry_config_of k) (e :: envs) c).1 = 1.
Proof.
  intros Hout Hfinal. unfold fetchWithRetry. rewrite retry_loop_cons. cbv zeta.
  unfold after_attempt. rewrite Hout.
  assert (negb (raw_ok res) && (0 + 1 <=? retries_of (retry_config_of k))
          && existsb (Z.eqb (raw_status res)) (retryOn_of (retry_config_of k)) = false) as ->.
  { destruct Hfinal as [->|Hout']; [done|].
    apply andb_false_iff. right. apply not_true_is_false.
    by rewrite existsb_elem_of. }
  simpl. split.
  - f_equal. lia.
  - unfold calls_between. simpl. rewrite length_app. simpl. lia.
Qed.

Lemma retry_loop_retryable rc envs : forall attempt start c,
  Forall (retryable_reply rc) envs ->
  attempt <= retries_of rc ->
  (Z.to_nat (retries_of rc - attempt) < length envs)%nat ->
  exists e res duration,
    envs !! Z.to_nat (retries_of rc - attempt) = Some e
    /\ env_outcome e = Fulfils res
    /\ (retry_loop rc attempt start envs c).2 = Returned res duration
    /\ calls_between c (retry_loop rc attempt start envs c).1 = retries_of rc - attempt + 1.
Proof.
  induction envs as [|e envs IH]; intros attempt start c Hall Hle Hlen; [simpl in Hlen; lia|].
  apply Forall_cons in Hall as [(res & Hout & Hok & Hstatus) Hall].
  apply existsb_elem_of in Hstatus.
  simpl. rewrite Hout. unfold after_attempt. rewrite Hok, Hstatus. simpl.
  rewrite andb_true_r.
  destruct (attempt + 1 <=? retries_of rc) eqn:Hnext.
  - apply Z.leb_le in Hnext.
    match goal with |- context [retry_loop rc ?a ?s envs ?c'] =>
      destruct (IH a s c' Hall Hnext) as (e' & res' & d & Hlook & Hout' & Hres & Hcalls) end.
    { simpl in Hlen. lia. }
    exists e', res', d. split; [|split; [done|split; [done|]]].
    + replace (Z.to_nat (retries_of rc - attempt))
        with (S (Z.to_nat (retries_of rc - (attempt + 1)))) by lia.
      done.
    + unfold calls_between in *. simpl in *. rewrite length_app in Hcalls. simpl in Hcalls. lia.
  - apply Z.leb_gt in Hnext.
    exists e, res. eexists. replace (retries_of rc - attempt) with 0 by lia.
    split; [done|split; [done|split; [done|]]].
    unfold calls_between. simpl. rewrite length_app. simpl. lia.
Qed.

(** X12. With [retries = R >= 0], when every attempt is answered with a
    reply that is not ok and whose status is in [retryOn], the loop makes
    exactly [R + 1] transport calls and then returns the last reply: it
    does not throw. *)
Theorem retryable_status_returns_last_reply
    (rc : retry_config) (envs : list attempt_env) (c : client) :
  0 <= retries_of rc ->
  Forall (retryable_reply rc) envs ->
  (Z.to_nat (retries_of rc) < length envs)%nat ->
  exists e res duration,
    envs !! Z.to_nat (retries_of rc) = Some e
    /\ env_outcome e = Fulfils res
    /\ (fetchWithRetry rc envs c).2 = Returned res duration
    /\ calls_between c (fetchWithRetry rc envs c).1 = retries_of rc + 1.
Proof.
  intros HR Hall Hlen. unfold fetchWithRetry.
  destruct (retry_loop_retryable rc envs 0 (now c) c Hall HR)
    as (e & res & d & H1 & H2 & H3 & H4).
  { by rewrite Z.sub_0_r. }
  rewrite Z.sub_0_r in *. exists e, res, d. repeat split; try done; lia.
Qed.

Lemma retry_loop_duration rc envs : forall attempt start c res d,
  (retry_loop rc attempt start envs c).2 = Returned res d ->
  d = now (retry_loop rc attempt start envs c).1 - start.
Proof.
  induction envs as [|e envs IH]; intros attempt start c res d; [done|].
  rewrite retry_loop_cons. cbv zeta.
  destruct (after_attempt _ _ _ _ _ _ _) as [err|delay|res' d'] eqn:Hafter; [done| |].
  - apply IH.
  - simpl. intros [= <- <-]. unfold after_attempt in Hafter.
    destruct (env_outcome e) as [res0|err0].
    + destruct (_ && _); [done|]. by injection Hafter as _ <-.
    + destruct (_ && _); [done|]. by destruct (_ <=? _).
Qed.

(** X13. The duration that [fetchWithRetry] returns with a reply is the
    time from the call to that reply: it spans every attempt made and
    every backoff wait between them. *)
Theorem duration_spans_all_attempts
    (rc : retry_config) (envs : list attempt_env) (c : client) (res : raw_response) (d : Z) :
  (fetchWithRetry rc envs c).2 = Returned res d ->
  d = now (fetchWithRetry rc envs c).1 - now c.
Proof. apply retry_loop_duration. Qed.

(** ** Timeouts *)

Lemma abort_signal_fired (fuel s : nat) (st : signal_store) (sg : signal_state) :
  st !! s = Some sg -> aborted sg = true -> abort_signal fuel s st = st.
Proof. intros Hs Hab. destruct fuel; simpl; [done|]. by rewrite Hs, Hab. Qed.

(** Aborting a signal whose listeners, if any, abort that signal itself
    sets its flag and nothing else. *)
Lemma abort_leaf (s : nat) (st : signal_store) (sg : signal_state) :
  st !! s = Some sg -> aborted sg = false -> Forall (eq s) (listeners sg) ->
  abort s st = <[s := {| aborted := true; listeners := [] |}]> st.
Proof.
  intros Hs Hab Hl. unfold abort. simpl. rewrite Hs, Hab.
  assert (Hfired : <[s := {| aborted := true; listeners := [] |}]> st !! s
                   = Some {| aborted := true; listeners := [] |}).
  { apply list_lookup_insert_eq. by eapply lookup_lt_Some. }
  induction Hl as [|t l <- _ IH]; simpl; [done|].
  by rewrite (abort_signal_fired _ _ _ _ Hfired).
Qed.

Lemma open_attempt_leaf rc c :
  exists sg, signals (open_attempt rc c).1 !! length (signals c) = Some sg
             /\ aborted sg = false
             /\ Forall (eq (length (signals c))) (listeners sg).
Proof.
  unfold open_attempt. simpl.
  destruct (fo_signal (rc_options rc)) as [s|]; simpl.
  - unfold addEventListener.
    destruct ((signals c ++ [fresh_signal]) !! s) as [sg|] eqn:Hsg.
    + destruct (decide (s = length (signals c))) as [->|Hne].
      * rewrite lookup_last in Hsg. injection Hsg as <-.
        eexists. split; [apply list_lookup_insert_eq; rewrite length_app; simpl; lia|].
        simpl. split; [done|]. by apply Forall_singleton.
      * exists fresh_signal. rewrite list_lookup_insert_ne by done.
        by rewrite lookup_last.
    + exists fresh_signal. by rewrite lookup_last.
  - exists fresh_signal. by rewrite lookup_last.
Qed.

(** X14. The timeout of an attempt aborts the controller of that attempt
    and nothing else: when the timer fires while the transport call is
    pending and the call then fails with an [AbortError], the error is
    thrown at once, and every signal that existed before the call (the
    caller's token, a group's signal) is as it was. *)
Theorem timeout_aborts_only_its_attempt
    (rc : retry_config) (e : attempt_env) (envs : list attempt_env) (c : client)
    (err : error) :
  timer_armed rc = true ->
  env_timer e = true ->
  env_cancels e = [] ->
  env_outcome e = Fails err ->
  err_name err = "AbortError" ->
  (fetchWithRetry rc (e :: envs) c).2 = Thrown err
  /\ is_aborted (length (signals c)) (signals (fetchWithRetry rc (e :: envs) c).1) = true
  /\ forall x, (x < length (signals c))%nat ->
               is_aborted x (signals (fetchWithRetry rc (e :: envs) c).1)
               = is_aborted x (signals c).
Proof.
  intros Harmed Htimer Hcancels Hout Hname.
  unfold fetchWithRetry. rewrite retry_loop_cons. cbv zeta.
  destruct (open_attempt_signals rc c) as (_ & Hlen & _ & Hsame & _).
  destruct (open_attempt_leaf rc c) as (sg & Hsg & Hab & Hl).
  assert (Hst : signals (during_attempt rc (length (signals c)) e (open_attempt rc c).1)
                = <[length (signals c) := {| aborted := true; listeners := [] |}]>
                    (signals (open_attempt rc c).1)).
  { unfold during_attempt. rewrite Hcancels, Htimer, Harmed. simpl.
    by apply (abort_leaf _ _ sg). }
  remember (during_attempt rc (length (signals c)) e (open_attempt rc c).1) as c2 eqn:Hc2.
  clear Hc2. rewrite Hst.
  rewrite is_aborted_insert_fired by (rewrite Hlen; lia).
  rewrite decide_True by done.
  unfold after_attempt. rewrite Hout, Hname. simpl.
  split; [done|]. rewrite Hst. split.
  - rewrite is_aborted_insert_fired by (rewrite Hlen; lia). by rewrite decide_True.
  - intros x Hx. rewrite is_aborted_insert_fired by (rewrite Hlen; lia).
    rewrite decide_False by lia. apply Hsame.
Qed.

(** ** The limit of concurrency *)

Lemma reachable_maxConcurrent (uc : user_config) (t0 : Z) (c : client) :
  reachable uc t0 c ->
  maxConcurrent (defaultConfig c)
  = match uc_maxConcurrent uc with Some n => Finite n | None => Infinity end.
Proof. induction 1 as [|c e _ IH]; [done|]. by rewrite step_maxConcurrent. Qed.

(** X15. A request waits only while every slot is taken: in every state
    the client can reach (with [maxConcurrent] not negative), if the wait
    list is not empty then [maxConcurrent] is a number and [activeCount]
    is equal to it. *)
Theorem waiting_only_when_full (uc : user_config) (t0 : Z) (c : client) :
  match uc_maxConcurrent uc with Some n => 0 <= n | None => True end ->
  reachable uc t0 c ->
  queue c <> [] ->
  exists n, uc_maxConcurrent uc = Some n /\ activeCount c = n.
Proof.
  intros Hn Hreach Hq.
  pose proof (queue_ok_reachable uc t0 c Hn Hreach) as (_ & _ & Hfull & Hlimit & _).
  specialize (Hfull Hq). rewrite (reachable_maxConcurrent uc t0 c Hreach) in *.
  destruct (uc_maxConcurrent uc) as [n|]; [|done].
  exists n. split; [done|]. simpl in *. apply Z.ltb_ge in Hfull. lia.
Qed.

Lemma starved_call (n : Z) (args : string * string * call_opts) (c : client) :
  n <= 0 -> maxConcurrent (defaultConfig c) = Finite n ->
  starved c -> starved (call args c).
Proof.
  intros Hn Hmax (Ha & Htc & Hmc & Hp & Hq). destruct args as [[m u] o]. unfold call.
  pose proof (handleFetchRaw_frame m u o c) as (Hdc' & _ & Ha' & Hq' & Hp' & _ & Htc' & _).
  destruct (handleFetchRaw_miss m u o c) as (k & Hk & _ & Hmc').
  { rewrite Hmc. apply lookup_empty. }
  destruct (handleFetchRaw m u o c) as [c1 hd]. simpl in *. subst hd.
  unfold enqueue. simpl. rewrite Hdc', Ha', Hmax, Ha. simpl.
  assert ((0 <? n) = false) as -> by (apply Z.ltb_ge; lia).
  unfold starved. simpl. rewrite Ha', Htc', Hmc', Hp', Hq'.
  split; [done|]. split; [done|]. split; [done|]. split.
  - apply Forall_app. split; [done|]. by apply Forall_singleton.
  - rewrite !length_app. simpl. lia.
Qed.

Lemma starved_step (n : Z) (e : event) (c : client) :
  n <= 0 -> maxConcurrent (defaultConfig c) = Finite n ->
  starved c -> starved (step e c).
Proof.
  intros Hn Hmax Hs.
  destruct e as [v url body options|ro|request response|fn|fn|fn|token type| |method url body
                | |s|id|id o rnd|id|dt]; simpl;
    try (by eapply starved_call).
  - by destruct request, response.
  - done.
  - done.
  - done.
  - by destruct (token =? "")%string.
  - destruct Hs as (? & ? & ? & ? & ?). by repeat split.
  - destruct Hs as (? & ? & Hmc & ? & ?). repeat split; try done.
    simpl. rewrite Hmc. apply delete_empty.
  - done.
  - done.
  - destruct Hs as (Ha & Htc & Hmc & Hp & Hq).
    destruct (promises c !! id) as [[r|k [|attempt ac start| |]]|] eqn:Hid;
      try (by repeat split).
    by apply (Forall_lookup_1 _ _ _ _ Hp) in Hid.
  - destruct Hs as (Ha & Htc & Hmc & Hp & Hq).
    destruct (promises c !! id) as [[r|k [|attempt ac start| |]]|] eqn:Hid;
      try (by repeat split).
    by apply (Forall_lookup_1 _ _ _ _ Hp) in Hid.
  - destruct Hs as (Ha & Htc & Hmc & Hp & Hq).
    destruct (promises c !! id) as [[r|k [|attempt ac start|attempt delay start|]]|] eqn:Hid;
      try (by repeat split).
    by apply (Forall_lookup_1 _ _ _ _ Hp) in Hid.
  - done.
Qed.

(** X16. With [maxConcurrent] zero or negative no request is ever started:
    in every state the client can reach no transport call has been made,
    no slot is taken, and every request made so far, whatever its method
    and its options, waits in the queue. *)
Theorem zero_concurrency_never_fetches (uc : user_config) (t0 : Z) (c : client) (n : Z) :
  uc_maxConcurrent uc = Some n ->
  n <= 0 ->
  reachable uc t0 c ->
  transport_calls c = []
  /\ activeCount c = 0
  /\ Forall waiting (promises c)
  /\ length (queue c) = length (promises c).
Proof.
  intros Huc Hn Hreach.
  assert (Hs : starved c).
  { induction Hreach as [|c e Hreach IH]; [by repeat split|].
    apply (starved_step n); [done| |done].
    rewrite (reachable_maxConcurrent uc t0 c Hreach). by rewrite Huc. }
  by destruct Hs as (? & ? & _ & ? & ?).
Qed.

(** ** Tokens *)

(** X17. A request made with both a token and a group, neither of them
    cancelled yet, gets a fresh signal of its own, and cancelling either
    the token or the group fires that signal. *)
Theorem either_signal_aborts_grouped_request
    (opts : call_opts) (s g : nat) (st : signal_store) :
  opt_signal opts = Some s ->
  opt_group opts = Some g ->
  (s < length st)%nat ->
  (g < length st)%nat ->
  is_aborted s st = false ->
  is_aborted g st = false ->
  (compose_signals opts st).2 = Some (length st)
  /\ is_aborted (length st) (compose_signals opts st).1 = false
  /\ is_aborted (length st) (abort s (compose_signals opts st).1) = true
  /\ is_aborted (length st) (abort g (compose_signals opts st).1) = true.
Proof.
  intros Hs Hg Hslt Hglt Hsab Hgab.
  destruct (compose_signals_group opts g st Hg Hglt Hgab) as (Hsig & Hlen & Hfresh & Hprop).
  split; [done|]. split; [done|].
  assert (Hprop' : propagates (compose_signals opts st).1 s (length st)).
  { unfold compose_signals. rewrite Hg, Hs. simpl.
    apply store_grows_addEventListener.
    - rewrite length_addEventListener, length_app. simpl. lia.
    - apply addEventListener_propagates.
      + rewrite length_app. lia.
      + by rewrite is_aborted_new_controller. }
  split; apply abort_propagates; rewrite ?Hlen; try lia; done.
Qed.

Lemma abort_fired (s : nat) (st : signal_store) :
  is_aborted s st = true -> abort s st = st.
Proof.
  unfold is_aborted. destruct (st !! s) as [sg|] eqn:Hsg; [|done].
  intros Hab. by apply (abort_signal_fired _ _ _ sg).
Qed.

Lemma cancelled_token_live (rc : retry_config) (e : attempt_env) (c : client) (s : nat) :
  fo_signal (rc_options rc) = Some s ->
  is_aborted s (signals c) = true ->
  Forall (eq s) (env_cancels e) ->
  env_timer e && timer_armed rc = false ->
  transport_calls (during_attempt rc (length (signals c)) e (open_attempt rc c).1)
  = transport_calls c
    ++ [{| tc_url := rc_url rc;
           tc_options := finalOptions (rc_options rc) (length (signals c)) |}]
  /\ is_aborted (length (signals c))
       (signals (during_attempt rc (length (signals c)) e (open_attempt rc c).1)) = false.
Proof.
  intros Hs Hab Hcancels Htimer.
  destruct (open_attempt_signals rc c) as (Hac & _ & Hfresh & Hsame & _).
  split; [done|].
  unfold during_attempt. rewrite Htimer. simpl.
  assert (Hfold : forall st, is_aborted s st = true ->
            foldl (fun st s => abort s st) st (env_cancels e) = st).
  { induction Hcancels as [|x l <- _ IH]; intros st Hst; simpl; [done|].
    rewrite (abort_fired _ _ Hst). by apply IH. }
  change (signals (open_attempt rc c).1) with
    (match fo_signal (rc_options rc) with
     | Some s => addEventListener s (length (signals c)) (signals c ++ [fresh_signal])
     | None => signals c ++ [fresh_signal]
     end) in *.
  rewrite Hfold; [done|]. by rewrite Hsame.
Qed.

(** X18. A token that was cancelled before the request is made does not
    stop the request: the transport call is made all the same, with the
    signal of a fresh controller, and that signal does not fire, not even
    when the token is cancelled again while the call is pending. *)
Theorem cancelled_token_does_not_stop_a_new_request
    (rc : retry_config) (e : attempt_env) (c : client) (s : nat) :
  fo_signal (rc_options rc) = Some s ->
  is_aborted s (signals c) = true ->
  Forall (eq s) (env_cancels e) ->
  env_timer e && timer_armed rc = false ->
  let ac := length (signals c) in
  let c2 := during_attempt rc ac e (open_attempt rc c).1 in
  (open_attempt rc c).2 = ac
  /\ transport_calls c2
     = transport_calls c
       ++ [{| tc_url := rc_url rc; tc_options := finalOptions (rc_options rc) ac |}]
  /\ is_aborted ac (signals c2) = false.
Proof.
  intros Hs Hab Hcancels Htimer ac c2. subst ac c2.
  split; [done|]. by apply (cancelled_token_live rc e c s).
Qed.

(** ** Env chain *)

(** X19. [resolve] returns one of the URLs given with [dev], [prod] and
    [staging], whatever the host name; it returns the empty string exactly
    when none of the three is set to a non-empty URL.  The URLs given with
    [otherEnv] are never looked at. *)
Theorem resolve_returns_a_configured_url
    (ctx : env_ctx) (host : host_names) (hostname : value) :
  let r := resolve ctx host hostname in
  (r <> "" -> ctx_dev ctx = Some r \/ ctx_prod ctx = Some r \/ ctx_staging ctx = Some r)
  /\ (r = "" <-> string_or (ctx_dev ctx) "" = "" /\ string_or (ctx_prod ctx) "" = ""
                 /\ string_or (ctx_staging ctx) "" = "")
  /\ (forall name url, resolve (env_otherEnv name url ctx) host hostname = r).
Proof.
  intros r. subst r. split; [|split].
  - unfold resolve.
    destruct (ctx_dev ctx) as [[|a1 d]|], (ctx_prod ctx) as [[|a2 p]|],
      (ctx_staging ctx) as [[|a3 s]|];
      destruct (localhost_like _); try destruct (includes "staging" _); simpl;
      intros H; try (by destruct H); auto.
  - unfold resolve.
    destruct (ctx_dev ctx) as [[|a1 d]|], (ctx_prod ctx) as [[|a2 p]|],
      (ctx_staging ctx) as [[|a3 s]|];
      destruct (localhost_like _); try destruct (includes "staging" _); simpl;
      split; try done; by intros (? & ? & ?).
  - intros name url. by destruct name.
Qed.

(** X20. With [dev], [prod] and [staging] all set, a host name given to
    [resolve] is classified in lower case and decides alone, whatever the
    host the code runs on: a name that contains [localhost], starts with
    [127.] or is [0.0.0.0] gets the dev URL, also when it contains
    [staging]; any other name that contains [staging] gets the staging
    URL; every other name gets the prod URL. *)
Theorem resolve_by_host_class (d p s hn : string) (host : host_names) :
  d <> "" -> p <> "" -> s <> "" -> hn <> "" ->
  resolve (env_staging (VStr s) (env_prod (VStr p) (env_dev (VStr d) createEnvChain)))
          host (VStr hn)
  = if localhost_like (toLowerCase hn) then d
    else if includes "staging" (toLowerCase hn) then s
    else p.
Proof.
  intros Hd Hp Hs Hhn. unfold resolve, hostname_of. simpl.
  apply String.eqb_neq in Hd, Hp, Hs, Hhn. by rewrite Hhn, Hd, Hp, Hs.
Qed.

(** ** What a task is made of *)

(** X21. The task of a request runs with what the request interceptors
    returned: their URL, options, timeout, retries and retry delay.  The
    list of the statuses that are retried cannot be set, and the lifetime
    in the cache is the [cache] option of the call, whatever the
    interceptors put into [cacheTTL]. *)
Theorem task_uses_intercepted_config
    (c : client) (method url : string) (opts : call_opts) (k : task_closure) :
  (handleFetchRaw method url opts c).2 = Enqueued k ->
  let cfg := (build_config method url opts c).2 in
  tk_cfg k = cfg
  /\ rc_url (retry_config_of k) = cfg_url cfg
  /\ rc_options (retry_config_of k) = cfg_options cfg
  /\ rc_timeout (retry_config_of k) = cfg_timeout cfg
  /\ retries_of (retry_config_of k) = cfg_retries cfg
  /\ retryDelay_of (retry_config_of k) = cfg_retryDelay cfg
  /\ retryOn_of (retry_config_of k) = [429; 502; 503; 504]
  /\ tk_cacheKey k = makeCacheKey (cfg_method cfg) (cfg_url cfg) (fo_body (cfg_options cfg))
  /\ tk_cacheTTL k = number_or (opt_cache opts) 0.
Proof.
  unfold handleFetchRaw.
  destruct (build_config method url opts c) as [c1 cfg]. simpl.
  unfold serve_or_enqueue.
  destruct (cacheable _ _).
  - destruct (getCached _ c1) as [c2 [r|]]; [done|]. simpl. by intros [= <-].
  - simpl. by intros [= <-].
Qed.

(** X22. A reply whose body cannot be read does not make the request
    fail: when [res.json()] (for a JSON content type) or [res.text()]
    (otherwise) rejects, the data is [null], and with no response hook an
    ok reply still resolves to a response, with that data. *)
Theorem unreadable_body_resolves_with_null_data
    (k : task_closure) (res : raw_response) (duration : Z) (c : client) :
  let contentType :=
    match raw_headers res with
    | Some h => default "" (headers_get "Content-Type" h)
    | None => ""
    end in
  (if includes "application/json" contentType then raw_json res else raw_text res) = Throws ->
  transformResponse (defaultConfig c) = [] ->
  interceptors_response (defaultConfig c) = [] ->
  raw_ok res = true ->
  (task_complete k res duration c).2
  = Response {| rsp_ok := true; rsp_status := raw_status res;
                rsp_statusText := raw_statusText res; rsp_headers := raw_headers res;
                rsp_data := VNull; rsp_config := tk_cfg k; rsp_time := duration |}.
Proof.
  intros contentType Hread Htr Hint Hok.
  assert (Hdata : read_data res = VNull).
  { unfold read_data. fold contentType.
    destruct (includes "application/json" contentType); by rewrite Hread. }
  unfold task_complete. rewrite Hok. simpl.
  assert (Hfinal : final_response (defaultConfig c) k res duration
                   = {| rsp_ok := true; rsp_status := raw_status res;
                        rsp_statusText := raw_statusText res; rsp_headers := raw_headers res;
                        rsp_data := VNull; rsp_config := tk_cfg k; rsp_time := duration |}).
  { unfold final_response, applyResponseInterceptors, applyTransformResponse.
    rewrite Htr, Hint. simpl. by rewrite Hdata, Hok. }
  rewrite Hfinal. by destruct (cacheable _ _).
Qed.

Lemma length_cancels (l : list nat) (st : signal_store) :
  length (foldl (fun st s => abort s st) st l) = length st.
Proof. by destruct (cancels_ok l st) as (-> & _). Qed.

Lemma length_abort (s : nat) (st : signal_store) : length (abort s st) = length st.
Proof. by destruct (abort_ok s st) as [(-> & _) _]. Qed.

Lemma length_during_attempt rc ac e c :
  length (signals (during_attempt rc ac e c)) = length (signals c).
Proof.
  unfold during_attempt. simpl.
  destruct (env_timer e && timer_armed rc); by rewrite ?length_abort, length_cancels.
Qed.

Lemma cancels_fire (s : nat) (l : list nat) : forall st,
  (s < length st)%nat -> s ∈ l ->
  is_aborted s (foldl (fun st s => abort s st) st l) = true.
Proof.
  induction l as [|x l IH]; intros st Hst Hin; [by apply elem_of_nil in Hin|].
  simpl. destruct (decide (x = s)) as [->|Hne].
  - destruct (cancels_ok l (abort s st)) as (_ & _ & Hmono & _). apply Hmono.
    by apply abort_ok.
  - apply elem_of_cons in Hin as [->|Hin]; [done|].
    apply IH; [by rewrite length_abort|done].
Qed.

(** X23. Cancelling the token during a backoff wait does not stop the
    request: the first attempt fails and is retried, the token is
    cancelled while the loop waits, and the next transport call is made
    all the same, with a fresh controller whose signal does not fire; its
    reply is returned. *)
Theorem cancel_during_backoff_does_not_stop_the_retry
    (rc : retry_config) (e1 e2 : attempt_env) (c : client) (s : nat)
    (err : error) (res : raw_response) :
  fo_signal (rc_options rc) = Some s ->
  (s < length (signals c))%nat ->
  1 <= retries_of rc ->
  env_outcome e1 = Fails err ->
  err_name err <> "AbortError" ->
  s ∈ env_sleep_cancels e1 ->
  Forall (eq s) (env_cancels e2) ->
  env_timer e2 && timer_armed rc = false ->
  env_outcome e2 = Fulfils res ->
  raw_ok res = true ->
  let r := fetchWithRetry rc [e1; e2] c in
  (exists d, r.2 = Returned res d)
  /\ calls_between c r.1 = 2
  /\ is_aborted s (signals r.1) = true
  /\ is_aborted (S (length (signals c))) (signals r.1) = false.
Proof.
  intros Hs Hlt Hretries Hout1 Hname Hcancel Hcancels2 Htimer2 Hout2 Hok r. subst r.
  unfold fetchWithRetry. rewrite retry_loop_cons. cbv zeta.
  rewrite Hout1, after_attempt_network_failure by done.
  assert ((0 + 1 <=? retries_of rc) = true) as -> by (apply Z.leb_le; lia).
  destruct (open_attempt_signals rc c) as (_ & Hopen & _).
  set (c0 := during_attempt rc (length (signals c)) e1 (open_attempt rc c).1).
  assert (Hlen0 : length (signals c0) = S (length (signals c))).
  { unfold c0. by rewrite length_during_attempt. }
  assert (Htc0 : length (transport_calls c0) = S (length (transport_calls c))).
  { unfold c0. simpl. rewrite length_app. simpl. lia. }
  clearbody c0.
  set (c1 := during_sleep _ e1 c0).
  assert (Hlen1 : length (signals c1) = S (length (signals c))).
  { unfold c1, during_sleep. simpl. by rewrite length_cancels. }
  assert (Htc1 : transport_calls c1 = transport_calls c0) by done.
  assert (Hfired : is_aborted s (signals c1) = true).
  { unfold c1, during_sleep. simpl. apply cancels_fire; [lia|done]. }
  clearbody c1.
  destruct (cancelled_token_live rc e2 c1 s Hs Hfired Hcancels2 Htimer2) as (Htc & Hlive).
  rewrite retry_loop_cons. cbv zeta. rewrite Hlen1 in *.
  set (c2 := during_attempt rc (S (length (signals c))) e2 (open_attempt rc c1).1) in *.
  assert (Hfired2 : is_aborted s (signals c2) = true).
  { unfold c2, during_attempt. rewrite Htimer2. simpl.
    destruct (cancels_ok (env_cancels e2) (signals (open_attempt rc c1).1))
      as (_ & _ & Hmono & _).
    apply Hmono. destruct (open_attempt_signals rc c1) as (_ & _ & _ & Hsame & _).
    by rewrite Hsame. }
  clearbody c2.
  unfold after_attempt. rewrite Hout2, Hok. simpl.
  split; [by eexists|]. split; [|by split].
  unfold calls_between. rewrite Htc, Htc1, length_app, Htc0. simpl. lia.
Qed.

End Zjs.

(** * The properties at concrete inputs *)



Lemma abort_is_never_retried_witness :
  let rc := retry_config_example 3 50 in
  let c := client_example None in
  env_outcome timed_out_attempt = Fails abort_error
  /\ err_name abort_error = "AbortError"
  /\ (env_timer timed_out_attempt = true /\ timer_armed rc = true)
  /\ (retry_loop rc 0 1000 [timed_out_attempt; failing_attempt] c).2 = Thrown abort_error
  /\ calls_between c (retry_loop rc 0 1000 [timed_out_attempt; failing_attempt] c).1 = 1
  /\ now (retry_loop rc 0 1000 [timed_out_attempt; failing_attempt] c).1
     = now c + env_elapsed timed_out_attempt.
Proof.
  intros rc c.
  assert (H1 : env_outcome timed_out_attempt = Fails abort_error) by reflexivity.
  assert (H2 : err_name abort_error = "AbortError") by reflexivity.
  assert (H3 : env_timer timed_out_attempt = true /\ timer_armed rc = true)
    by (split; reflexivity).
  exact (conj H1 (conj H2 (conj H3
           (abort_is_never_retried rc 0 1000 timed_out_attempt [failing_attempt] c
              abort_error H1 H2 (or_introl H3))))).
Defined.

(** C3, as stated, fails: with [retry: 3] and [timeout: 50] the first
    attempt times out; attempts remain, yet the loop throws the abort at
    once and the second attempt, which would have succeeded, is never
    made. *)
Lemma timed_out_attempt_is_not_retried :
  let rc := retry_config_example 3 50 in
  let c := client_example None in
  let envs := [timed_out_attempt; replying_attempt 200 (VNum 7)] in
  timer_armed rc = true
  /\ 1 <= retries_of rc
  /\ is_aborted 0 (signals (during_attempt rc 0 timed_out_attempt (open_attempt rc c).1)) = true
  /\ after_attempt rc 1 true one_half 1000 1050 (Fails abort_error) = Throw abort_error
  /\ (fetchWithRetry rc envs c).2 = Thrown abort_error
  /\ calls_between c (fetchWithRetry rc envs c).1 = 1.
Proof. vm_compute. repeat split; discriminate. Qed.




Lemma task_resolves_witness :
  let c :=
    run_events stringify_example [ApiOnError logging_handler; ApiOnError throwing_handler]
      (client_example None) in
  exists k,
    (handleFetchRaw stringify_example "get" "/posts" (opts_retry 1 0) c).2 = Enqueued k
    /\ (fetchWithRetry (retry_config_of k) [failing_attempt; failing_attempt] c).2
       = Thrown network_error
    /\ (task k [failing_attempt; failing_attempt] c).2
       = Some (Resolved (FailureResult
                 {| fr_ok := false; fr_status := 0; fr_data := VNull;
                    fr_error := network_error; fr_config := tk_cfg k |}))
    /\ notified (task k [failing_attempt; failing_attempt] c).1
       = [ {| note_handler := 0; note_error := network_error; note_config := tk_cfg k;
              note_outcome := Returns tt |};
           {| note_handler := 1; note_error := network_error; note_config := tk_cfg k;
              note_outcome := Throws |} ]
    /\ (forall e, (task k [failing_attempt; failing_attempt] c).2 <> Some (Rejected e))
    /\ (Z.to_nat (retries_of (retry_config_of k)) < 2)%nat
    /\ exists out, (task k [failing_attempt; failing_attempt] c).2 = Some (Resolved out).
Proof.
  intros c. eexists. split; [reflexivity|].
  match goal with |- (fetchWithRetry (retry_config_of ?k) _ _).2 = _ /\ _ =>
    destruct (task_resolves_to_uniform_failure stringify_example k
                [failing_attempt; failing_attempt] c) as (Hnever & Hvalue & _ & _ & Hsettles)
  end.
  split; [reflexivity|].
  split; [exact (proj1 Hvalue)|]. split; [exact (proj2 Hvalue)|].
  split; [exact Hnever|].
  assert (Hlen : (Z.to_nat 1 < 2)%nat) by (vm_compute; lia).
  split; [exact Hlen|exact (Hsettles Hlen)].
Defined.

Lemma concurrency_queue_witness :
  let uc := {| uc_baseURL := "https://api.example.com"; uc_timeout := 0; uc_headers := [];
               uc_maxConcurrent := Some 1 |} in
  let c :=
    run_events stringify_example
      [ApiVerb Get "/a" VUndefined empty_opts; ApiVerb Get "/b" VUndefined empty_opts;
       ApiVerb Get "/c" VUndefined empty_opts]
      (zjs uc 1000) in
  0 <= 1
  /\ reachable stringify_example uc 1000 c
  /\ 0 <= activeCount c
  /\ within_limit (activeCount c) (maxConcurrent (defaultConfig c))
  /\ activeCount c = count_running (kinds c)
  /\ queue c = waiting_from 0 (kinds c)
  /\ fifo (kinds c)
  /\ kinds c = [KRunning; KWaiting; KWaiting]
  /\ exists k,
       promises c !! 0%nat = Some (Task k (InFlight 1 0 1000))
       /\ queue (settled 0 k (Rejected network_error) c) = [2%nat]
       /\ activeCount (settled 0 k (Rejected network_error) c) = 1
       /\ kinds (settled 0 k (Rejected network_error) c) = [KDone; KRunning; KWaiting].
Proof.
  intros uc c.
  assert (H1 : 0 <= 1) by lia.
  assert (H2 : reachable stringify_example uc 1000 c).
  { apply reachable_run_events. apply reachable_init. }
  destruct (concurrency_queue_invariants stringify_example uc 1000 c H1 H2)
    as (Hpos & Hlim & _ & Hcount & Hqueue & Hfifo & Hsettle).
  split; [exact H1|]. split; [exact H2|]. split; [exact Hpos|]. split; [exact Hlim|].
  split; [exact Hcount|]. split; [exact Hqueue|]. split; [exact Hfifo|].
  split; [reflexivity|]. eexists. split; [reflexivity|]. repeat split.
Defined.





Lemma hook_order_witness :
  let c :=
    run_events stringify_example
      [ApiAddTransformResponse increment_transform; ApiUse None (Some noting_interceptor);
       ApiVerb Get "/posts" VUndefined (opts_cache 10);
       TransportSettles 0 (Fulfils (reply 200 (VNum 7))) one_half]
      (client_example None) in
  exists c1 r,
    handleFetchRaw stringify_example "get" "/posts" (opts_cache 10) c = (c1, Served r)
    /\ exists cached, r = intercept_then_transform (defaultConfig c) cached.
Proof.
  intros c.
  destruct (hook_order stringify_example c) as (_ & _ & _ & Hserved).
  let v := eval vm_compute in (handleFetchRaw stringify_example "get" "/posts" (opts_cache 10) c) in
  lazymatch v with (?c1, Served ?r) =>
    exists c1, r;
    assert (H : handleFetchRaw stringify_example "get" "/posts" (opts_cache 10) c
                = (c1, Served r)) by (vm_compute; reflexivity)
  end.
  exact (conj H (Hserved "get" "/posts" (opts_cache 10) _ _ H)).
Defined.

(** C7 fails on the cache path: with the response transform
    [data => data + 1] and a response interceptor that notes the data it
    sees, the reply with data 7 is cached as data 8, noted ["seen 8"].  When
    the cached response is served, the interceptor runs before the
    transform: it sees data 8 again, and only then the data becomes 9.  In
    the order the claim states the interceptor would see 9. *)
Lemma cache_hit_intercepts_before_transform :
  let c :=
    run_events stringify_example
      [ApiAddTransformResponse increment_transform; ApiUse None (Some noting_interceptor);
       ApiVerb Get "/posts" VUndefined (opts_cache 10);
       TransportSettles 0 (Fulfils (reply 200 (VNum 7))) one_half]
      (client_example None) in
  exists cached r,
    memoryCache c !! "GET::https://api.example.com/posts::" = Some cached
    /\ rsp_data (ce_value cached) = VNum 8
    /\ (handleFetchRaw stringify_example "get" "/posts" (opts_cache 10) c).2 = Served r
    /\ rsp_data r = VNum 9
    /\ rsp_statusText r = "seen 8"
    /\ rsp_statusText (transform_then_intercept (defaultConfig c) (ce_value cached)) = "seen 9"
    /\ r <> transform_then_intercept (defaultConfig c) (ce_value cached).
Proof.
  intros c.
  let v := eval vm_compute in ((memoryCache c !! "GET::https://api.example.com/posts::")) in
  lazymatch v with Some ?x => exists x end.
  let v := eval vm_compute in ((handleFetchRaw stringify_example "get" "/posts" (opts_cache 10) c).2) in
  lazymatch v with Served ?r => exists r end.
  vm_compute. repeat split. discriminate.
Qed.

(** * The further properties at concrete inputs *)

Lemma fullUrl_joins_witness :
  let dc := defaultConfig (zjs {| uc_baseURL := "https://api.example.com//"; uc_timeout := 0;
                                  uc_headers := []; uc_maxConcurrent := None |} 1000) in
  "//posts" <> ""
  /\ is_absolute_url "//posts" = false
  /\ baseURL dc <> ""
  /\ fullUrl dc "//posts" = "https://api.example.com/posts".
Proof.
  intros dc.
  assert (H1 : "//posts" <> "") by discriminate.
  assert (H2 : is_absolute_url "//posts" = false) by reflexivity.
  assert (H3 : baseURL dc <> "") by discriminate.
  destruct (fullUrl_joins_with_one_slash dc "//posts" H1 H2 H3) as (E & _).
  exact (conj H1 (conj H2 (conj H3 E))).
Defined.

Lemma fullUrl_idempotent_witness :
  let dc := defaultConfig (client_example None) in
  is_absolute_url (strip_trailing_slashes (baseURL dc)) = true
  /\ fullUrl dc "posts" = "https://api.example.com/posts"
  /\ fullUrl dc (fullUrl dc "posts") = fullUrl dc "posts".
Proof.
  intros dc.
  assert (H1 : is_absolute_url (strip_trailing_slashes (baseURL dc)) = true) by reflexivity.
  assert (H2 : fullUrl dc "posts" = "https://api.example.com/posts") by reflexivity.
  exact (conj H1 (conj H2 (fullUrl_idempotent dc "posts" H1))).
Defined.



Lemma base_url_witness :
  let uc := {| uc_baseURL := baseURL_of host_localhost (BaseEnvChain chain_example);
               uc_timeout := 0; uc_headers := []; uc_maxConcurrent := None |} in
  let c := run_events stringify_example
             [ApiSetToken "abc" "Bearer"; ApiVerb Get "/posts" VUndefined empty_opts]
             (zjs uc 1000) in
  uc_baseURL uc = baseURL_of host_localhost (BaseEnvChain chain_example)
  /\ reachable stringify_example uc 1000 c
  /\ env_toString chain_example host_localhost = "http://localhost:3000"
  /\ baseURL (defaultConfig c) = env_toString chain_example host_localhost
  /\ fullUrl (defaultConfig c) "/users" = "http://localhost:3000/users".
Proof.
  intros uc c.
  assert (H1 : uc_baseURL uc = baseURL_of host_localhost (BaseEnvChain chain_example))
    by reflexivity.
  assert (H2 : reachable stringify_example uc 1000 c).
  { apply reachable_run_events. apply reachable_init. }
  destruct (base_url_is_resolved_once stringify_example host_localhost chain_example
              uc 1000 c H1 H2) as (Hb & _ & Hfull).
  split; [exact H1|]. split; [exact H2|]. split; [reflexivity|]. split; [exact Hb|].
  exact (Hfull "/users").
Defined.

Lemma post_object_body_witness :
  let c := client_example None in
  let body := VObj [("title", VStr "hello")] in
  let args := api_verb Post "/posts" body empty_opts in
  let o := cfg_options (initial_config stringify_example args.1.1 args.1.2 args.2 c).2 in
  let args' := api_verb Post "/posts" VUndefined empty_opts in
  let o' := cfg_options (initial_config stringify_example args'.1.1 args'.1.2 args'.2 c).2 in
  transformRequest (defaultConfig c) = []
  /\ find_key_ci "content-type" (default_headers (defaultConfig c)) = None
  /\ find_key_ci "content-type" (default [] (opt_headers empty_opts)) = None
  /\ (fo_body o = VStr (stringify_example body)
      /\ obj_get "Content-Type" (fo_headers o) = Some "application/json")
  /\ (fo_body o' = VStr (stringify_example (VObj []))
      /\ obj_get "Content-Type" (fo_headers o') = Some "application/json").
Proof.
  intros c body args o args' o'.
  assert (H1 : transformRequest (defaultConfig c) = []) by reflexivity.
  assert (H2 : find_key_ci "content-type" (default_headers (defaultConfig c)) = None)
    by reflexivity.
  assert (H3 : find_key_ci "content-type" (default [] (opt_headers empty_opts)) = None)
    by reflexivity.
  pose proof (post_object_body_is_json stringify_example Post "/posts" body empty_opts c
                (or_introl eq_refl) H1 H2 H3) as (Hbody & _).
  pose proof (post_object_body_is_json stringify_example Post "/posts" VUndefined empty_opts c
                (or_introl eq_refl) H1 H2 H3) as (_ & Hdefault & _).
  destruct (Hdefault eq_refl) as (_ & Hb' & Hct').
  exact (conj H1 (conj H2 (conj H3 (conj Hbody (conj Hb' Hct'))))).
Defined.

Lemma deleteCacheKey_witness :
  let c := run_events stringify_example cached_events (client_example None) in
  let cfg := (build_config stringify_example "get" "/posts" (opts_cache 10) c).2 in
  let c' := step stringify_example
              (ApiDeleteCacheKey "get" (cfg_url cfg) (fo_body (cfg_options cfg))) c in
  toUpperCase "get" = toUpperCase (cfg_method cfg)
  /\ cfg_url cfg = "https://api.example.com/posts"
  /\ (exists r, (handleFetchRaw stringify_example "get" "/posts" (opts_cache 10) c).2
                = Served r)
  /\ (exists k, (handleFetchRaw stringify_example "get" "/posts" (opts_cache 10) c').2
                = Enqueued k /\ tk_cfg k = cfg).
Proof.
  intros c cfg c'.
  assert (H1 : toUpperCase "get" = toUpperCase (cfg_method cfg)) by (vm_compute; reflexivity).
  destruct (deleteCacheKey_forces_miss stringify_example c "get" "/posts" (opts_cache 10)
              "get" H1) as (Hmiss & _).
  split; [exact H1|]. split; [vm_compute; reflexivity|]. split; [|exact Hmiss].
  let v := eval vm_compute in
    ((handleFetchRaw stringify_example "get" "/posts" (opts_cache 10) c).2) in
  lazymatch v with Served ?r => exists r end.
  vm_compute. reflexivity.
Defined.


Lemma failures_are_never_cached_witness :
  let c := client_example None in
  let envs := [replying_attempt 500 VNull] in
  exists k f,
    (handleFetchRaw stringify_example "get" "/posts" (opts_cache 10) c).2 = Enqueued k
    /\ (task k envs c).2 = Some (Resolved (FailureResult f))
    /\ fr_status f = 500
    /\ memoryCache (task k envs c).1 = memoryCache c.
Proof.
  intros c envs.
  let v := eval vm_compute in
    ((handleFetchRaw stringify_example "get" "/posts" (opts_cache 10) c).2) in
  lazymatch v with Enqueued ?k => exists k end.
  match goal with |- exists f, _ /\ (task ?k _ _).2 = _ /\ _ =>
    let v := eval vm_compute in ((task k envs c).2) in
    lazymatch v with Some (Resolved (FailureResult ?f)) => exists f end;
    assert (H2 : (task k envs c).2 = Some (Resolved (FailureResult _)))
      by (vm_compute; reflexivity);
    destruct (failures_are_never_cached k envs c) as (Hfail & _)
  end.
  split; [vm_compute; reflexivity|]. split; [exact H2|]. split; [reflexivity|].
  exact (Hfail _ H2).
Defined.

Lemma unlisted_status_witness :
  let c := client_example None in
  let e := replying_attempt 500 VNull in
  let envs := [replying_attempt 200 (VNum 7)] in
  exists k,
    (handleFetchRaw stringify_example "get" "/posts" (opts_retry 3 0) c).2 = Enqueued k
    /\ retries_of (retry_config_of k) = 3
    /\ env_outcome e = Fulfils (reply 500 VNull)
    /\ (raw_status (reply 500 VNull) ∉ [429; 502; 503; 504])
    /\ (fetchWithRetry (retry_config_of k) (e :: envs) c).2
       = Returned (reply 500 VNull) (env_elapsed e)
    /\ calls_between c (fetchWithRetry (retry_config_of k) (e :: envs) c).1 = 1.
Proof.
  intros c e envs.
  let v := eval vm_compute in
    ((handleFetchRaw stringify_example "get" "/posts" (opts_retry 3 0) c).2) in
  lazymatch v with Enqueued ?k => exists k end.
  assert (H1 : env_outcome e = Fulfils (reply 500 VNull)) by reflexivity.
  assert (H2 : raw_status (reply 500 VNull) ∉ [429; 502; 503; 504]).
  { rewrite !not_elem_of_cons. repeat split; try discriminate. apply not_elem_of_nil. }
  split; [vm_compute; reflexivity|]. split; [reflexivity|].
  split; [exact H1|]. split; [exact H2|].
  exact (unlisted_status_is_not_retried _ e envs c (reply 500 VNull) H1 (or_intror H2)).
Defined.

Lemma retryable_status_witness :
  let rc := retry_config_example 1 0 in
  let envs := [replying_attempt 503 VNull; replying_attempt 503 VNull;
               replying_attempt 200 (VNum 7)] in
  let c := client_example None in
  0 <= retries_of rc
  /\ Forall (retryable_reply rc) (take 2 envs)
  /\ (Z.to_nat (retries_of rc) < length (take 2 envs))%nat
  /\ (fetchWithRetry rc (take 2 envs) c).2 = Returned (reply 503 VNull) 470
  /\ exists e res duration,
       take 2 envs !! Z.to_nat (retries_of rc) = Some e
       /\ env_outcome e = Fulfils res
       /\ (fetchWithRetry rc (take 2 envs) c).2 = Returned res duration
       /\ calls_between c (fetchWithRetry rc (take 2 envs) c).1 = retries_of rc + 1.
Proof.
  intros rc envs c.
  assert (H1 : 0 <= retries_of rc) by (unfold rc, retry_config_example, retries_of; simpl; lia).
  assert (H2 : Forall (retryable_reply rc) (take 2 envs)).
  { repeat apply Forall_cons_2; try apply Forall_nil_2;
      (exists (reply 503 VNull); split; [reflexivity|]; split; [reflexivity|];
       repeat constructor). }
  assert (H3 : (Z.to_nat (retries_of rc) < length (take 2 envs))%nat)
    by (unfold rc, retry_config_example, retries_of, envs; simpl; lia).
  split; [exact H1|]. split; [exact H2|]. split; [exact H3|].
  split; [vm_compute; reflexivity|].
  exact (retryable_status_returns_last_reply rc (take 2 envs) c H1 H2 H3).
Defined.

Lemma duration_witness :
  let rc := retry_config_example 1 0 in
  let envs := [replying_attempt 503 VNull; replying_attempt 200 (VNum 7)] in
  let c := client_example None in
  (fetchWithRetry rc envs c).2 = Returned (reply 200 (VNum 7)) 470
  /\ retry_wait rc 1 one_half = 450
  /\ 470 = now (fetchWithRetry rc envs c).1 - now c.
Proof.
  intros rc envs c.
  assert (H1 : (fetchWithRetry rc envs c).2 = Returned (reply 200 (VNum 7)) 470)
    by (vm_compute; reflexivity).
  split; [exact H1|]. split; [reflexivity|].
  exact (duration_spans_all_attempts rc envs c _ _ H1).
Defined.

Lemma timeout_witness :
  let rc := retry_config_example 3 50 in
  let c := run_events stringify_example [NewToken] (client_example None) in
  let r := fetchWithRetry rc [timed_out_attempt; failing_attempt] c in
  timer_armed rc = true
  /\ env_timer timed_out_attempt = true
  /\ env_cancels timed_out_attempt = []
  /\ env_outcome timed_out_attempt = Fails abort_error
  /\ err_name abort_error = "AbortError"
  /\ (0 < length (signals c))%nat
  /\ r.2 = Thrown abort_error
  /\ is_aborted 1 (signals r.1) = true
  /\ is_aborted 0 (signals r.1) = is_aborted 0 (signals c).
Proof.
  intros rc c r.
  assert (H1 : timer_armed rc = true) by reflexivity.
  assert (H2 : env_timer timed_out_attempt = true) by reflexivity.
  assert (H3 : env_cancels timed_out_attempt = []) by reflexivity.
  assert (H4 : env_outcome timed_out_attempt = Fails abort_error) by reflexivity.
  assert (H5 : err_name abort_error = "AbortError") by reflexivity.
  assert (H6 : (0 < length (signals c))%nat) by (vm_compute; lia).
  destruct (timeout_aborts_only_its_attempt rc timed_out_attempt [failing_attempt] c
              abort_error H1 H2 H3 H4 H5) as (Hthrown & Hac & Hkeep).
  exact (conj H1 (conj H2 (conj H3 (conj H4 (conj H5 (conj H6
           (conj Hthrown (conj Hac (Hkeep 0%nat H6))))))))).
Defined.

Lemma waiting_only_when_full_witness :
  let uc := {| uc_baseURL := "https://api.example.com"; uc_timeout := 0; uc_headers := [];
               uc_maxConcurrent := Some 1 |} in
  let c := run_events stringify_example
             [ApiVerb Get "/a" VUndefined empty_opts; ApiVerb Get "/b" VUndefined empty_opts]
             (zjs uc 1000) in
  0 <= 1
  /\ reachable stringify_example uc 1000 c
  /\ queue c <> []
  /\ activeCount c = 1
  /\ exists n, uc_maxConcurrent uc = Some n /\ activeCount c = n.
Proof.
  intros uc c.
  assert (H1 : 0 <= 1) by lia.
  assert (H2 : reachable stringify_example uc 1000 c).
  { apply reachable_run_events. apply reachable_init. }
  assert (H3 : queue c <> []) by (vm_compute; discriminate).
  split; [exact H1|]. split; [exact H2|]. split; [exact H3|]. split; [reflexivity|].
  exact (waiting_only_when_full stringify_example uc 1000 c H1 H2 H3).
Defined.

Lemma zero_concurrency_witness :
  let uc := {| uc_baseURL := "https://api.example.com"; uc_timeout := 0; uc_headers := [];
               uc_maxConcurrent := Some 0 |} in
  let c := run_events stringify_example
             [ApiVerb Get "/a" VUndefined (opts_cache 10);
              ApiVerb Post "/b" (VNum 1) empty_opts; Tick 5000; TimerFires 0;
              TransportSettles 0 (Fulfils (reply 200 (VNum 7))) one_half]
             (zjs uc 1000) in
  uc_maxConcurrent uc = Some 0
  /\ 0 <= 0
  /\ reachable stringify_example uc 1000 c
  /\ length (promises c) = 2%nat
  /\ transport_calls c = []
  /\ activeCount c = 0
  /\ Forall waiting (promises c)
  /\ length (queue c) = length (promises c).
Proof.
  intros uc c.
  assert (H1 : uc_maxConcurrent uc = Some 0) by reflexivity.
  assert (H2 : 0 <= 0) by lia.
  assert (H3 : reachable stringify_example uc 1000 c).
  { apply reachable_run_events. apply reachable_init. }
  split; [exact H1|]. split; [exact H2|]. split; [exact H3|]. split; [reflexivity|].
  exact (zero_concurrency_never_fetches stringify_example uc 1000 c 0 H1 H2 H3).
Defined.

Lemma either_signal_witness :
  let st := [fresh_signal; fresh_signal] in
  let opts := opts_signal_group 0 1 in
  opt_signal opts = Some 0%nat
  /\ opt_group opts = Some 1%nat
  /\ (0 < length st)%nat /\ (1 < length st)%nat
  /\ is_aborted 0 st = false /\ is_aborted 1 st = false
  /\ (compose_signals opts st).2 = Some 2%nat
  /\ is_aborted 2 (compose_signals opts st).1 = false
  /\ is_aborted 2 (abort 0 (compose_signals opts st).1) = true
  /\ is_aborted 2 (abort 1 (compose_signals opts st).1) = true.
Proof.
  intros st opts.
  assert (H1 : opt_signal opts = Some 0%nat) by reflexivity.
  assert (H2 : opt_group opts = Some 1%nat) by reflexivity.
  assert (H3 : (0 < length st)%nat) by (simpl; lia).
  assert (H4 : (1 < length st)%nat) by (simpl; lia).
  assert (H5 : is_aborted 0 st = false) by reflexivity.
  assert (H6 : is_aborted 1 st = false) by reflexivity.
  exact (conj H1 (conj H2 (conj H3 (conj H4 (conj H5 (conj H6
           (either_signal_aborts_grouped_request opts 0 1 st H1 H2 H3 H4 H5 H6))))))).
Defined.

Lemma cancelled_token_witness :
  let c := run_events stringify_example [NewToken; Cancel 0] (client_example None) in
  let rc := retry_config_token 0 0 in
  let e := cancelled_again_attempt 0 in
  let c2 := during_attempt rc 1 e (open_attempt rc c).1 in
  fo_signal (rc_options rc) = Some 0%nat
  /\ is_aborted 0 (signals c) = true
  /\ Forall (eq 0%nat) (env_cancels e)
  /\ env_timer e && timer_armed rc = false
  /\ (open_attempt rc c).2 = 1%nat
  /\ transport_calls c2
     = transport_calls c
       ++ [{| tc_url := rc_url rc; tc_options := finalOptions (rc_options rc) 1 |}]
  /\ is_aborted 1 (signals c2) = false
  /\ (fetchWithRetry rc [e] c).2 = Returned (reply 200 (VNum 7)) 10.
Proof.
  intros c rc e c2.
  assert (H1 : fo_signal (rc_options rc) = Some 0%nat) by reflexivity.
  assert (H2 : is_aborted 0 (signals c) = true) by reflexivity.
  assert (H3 : Forall (eq 0%nat) (env_cancels e)) by (repeat constructor).
  assert (H4 : env_timer e && timer_armed rc = false) by reflexivity.
  destruct (cancelled_token_does_not_stop_a_new_request rc e c 0 H1 H2 H3 H4)
    as (Hac & Htc & Hlive).
  split; [exact H1|]. split; [exact H2|]. split; [exact H3|]. split; [exact H4|].
  split; [exact Hac|]. split; [exact Htc|]. split; [exact Hlive|]. reflexivity.
Defined.

Lemma resolve_witness :
  let ctx := env_otherEnv (VStr "qa") (VStr "https://qa.example.com") chain_example in
  let r := resolve ctx host_localhost VUndefined in
  r = "http://localhost:3000"
  /\ r <> ""
  /\ (ctx_dev ctx = Some r \/ ctx_prod ctx = Some r \/ ctx_staging ctx = Some r)
  /\ resolve ctx host_localhost (VStr "www.example.com") = "https://api.example.com"
  /\ resolve ctx host_localhost (VStr "qa.example.com")
     = resolve chain_example host_localhost (VStr "qa.example.com").
Proof.
  intros ctx r.
  assert (H1 : r <> "") by discriminate.
  destruct (resolve_returns_a_configured_url ctx host_localhost VUndefined) as (Hin & _).
  destruct (resolve_returns_a_configured_url chain_example host_localhost
              (VStr "qa.example.com")) as (_ & _ & Hother).
  split; [reflexivity|]. split; [exact H1|]. split; [exact (Hin H1)|].
  split; [reflexivity|].
  exact (Hother (VStr "qa") (VStr "https://qa.example.com")).
Defined.

Lemma resolve_by_host_class_witness :
  let d := "http://localhost:3000" in
  let p := "https://api.example.com" in
  let s := "https://staging.example.com" in
  let host := {| location_hostname := Some "www.example.com";
                 process_env_HOSTNAME := None |} in
  let ctx := env_staging (VStr s) (env_prod (VStr p) (env_dev (VStr d) createEnvChain)) in
  d <> "" /\ p <> "" /\ s <> ""
  /\ resolve ctx host (VStr "Staging.LocalHost") = d
  /\ resolve ctx host (VStr "staging.example.com") = s
  /\ resolve ctx host (VStr "127.0.0.1") = d
  /\ resolve ctx host (VStr "shop.example.com") = p.
Proof.
  intros d p s host ctx.
  assert (H1 : d <> "") by discriminate.
  assert (H2 : p <> "") by discriminate.
  assert (H3 : s <> "") by discriminate.
  split; [exact H1|]. split; [exact H2|]. split; [exact H3|].
  split; [|split; [|split]].
  - refine (resolve_by_host_class d p s "Staging.LocalHost" host H1 H2 H3 _). discriminate.
  - refine (resolve_by_host_class d p s "staging.example.com" host H1 H2 H3 _). discriminate.
  - refine (resolve_by_host_class d p s "127.0.0.1" host H1 H2 H3 _). discriminate.
  - refine (resolve_by_host_class d p s "shop.example.com" host H1 H2 H3 _). discriminate.
Defined.

Lemma task_config_witness :
  let c := run_events stringify_example [ApiUse (Some (timeout_interceptor 500)) None]
             (client_example None) in
  exists k,
    (handleFetchRaw stringify_example "get" "/posts" (opts_cache 10) c).2 = Enqueued k
    /\ rc_url (retry_config_of k) = "https://api.example.com/posts"
    /\ rc_timeout (retry_config_of k) = 500
    /\ retryOn_of (retry_config_of k) = [429; 502; 503; 504]
    /\ tk_cacheTTL k = 10.
Proof.
  intros c.
  let v := eval vm_compute in
    ((handleFetchRaw stringify_example "get" "/posts" (opts_cache 10) c).2) in
  lazymatch v with Enqueued ?k => exists k end.
  match goal with |- ?P /\ _ => assert (H1 : P) by (vm_compute; reflexivity) end.
  destruct (task_uses_intercepted_config stringify_example c "get" "/posts" (opts_cache 10)
              _ H1) as (_ & Hurl & _ & Ht & _ & _ & Hon & _ & Httl).
  exact (conj H1 (conj Hurl (conj Ht (conj Hon Httl)))).
Defined.

Lemma unreadable_body_witness :
  let c := client_example None in
  exists k,
    (handleFetchRaw stringify_example "get" "/posts" empty_opts c).2 = Enqueued k
    /\ raw_json broken_json_reply = Throws
    /\ transformResponse (defaultConfig c) = []
    /\ interceptors_response (defaultConfig c) = []
    /\ raw_ok broken_json_reply = true
    /\ (task_complete k broken_json_reply 10 c).2
       = Response {| rsp_ok := true; rsp_status := 200; rsp_statusText := "OK";
                     rsp_headers := raw_headers broken_json_reply; rsp_data := VNull;
                     rsp_config := tk_cfg k; rsp_time := 10 |}.
Proof.
  intros c.
  let v := eval vm_compute in
    ((handleFetchRaw stringify_example "get" "/posts" empty_opts c).2) in
  lazymatch v with Enqueued ?k => exists k end.
  assert (H2 : raw_json broken_json_reply = Throws) by reflexivity.
  assert (H3 : transformResponse (defaultConfig c) = []) by reflexivity.
  assert (H4 : interceptors_response (defaultConfig c) = []) by reflexivity.
  assert (H5 : raw_ok broken_json_reply = true) by reflexivity.
  split; [vm_compute; reflexivity|].
  exact (conj H2 (conj H3 (conj H4 (conj H5
           (unreadable_body_resolves_with_null_data _ broken_json_reply 10 c
              H2 H3 H4 H5))))).
Defined.

Lemma cancel_during_backoff_witness :
  let c := run_events stringify_example [NewToken] (client_example None) in
  let rc := retry_config_token 0 1 in
  let e1 := failing_then_cancelled 0 in
  let e2 := replying_attempt 200 (VNum 7) in
  let r := fetchWithRetry rc [e1; e2] c in
  fo_signal (rc_options rc) = Some 0%nat
  /\ (0 < length (signals c))%nat
  /\ 1 <= retries_of rc
  /\ env_outcome e1 = Fails network_error
  /\ err_name network_error <> "AbortError"
  /\ 0%nat ∈ env_sleep_cancels e1
  /\ Forall (eq 0%nat) (env_cancels e2)
  /\ env_timer e2 && timer_armed rc = false
  /\ env_outcome e2 = Fulfils (reply 200 (VNum 7))
  /\ raw_ok (reply 200 (VNum 7)) = true
  /\ r.2 = Returned (reply 200 (VNum 7)) 470
  /\ calls_between c r.1 = 2
  /\ is_aborted 0 (signals r.1) = true
  /\ is_aborted 2 (signals r.1) = false.
Proof.
  intros c rc e1 e2 r.
  assert (H1 : fo_signal (rc_options rc) = Some 0%nat) by reflexivity.
  assert (H2 : (0 < length (signals c))%nat) by (vm_compute; lia).
  assert (H3 : 1 <= retries_of rc) by (unfold rc, retry_config_token, retries_of; simpl; lia).
  assert (H4 : env_outcome e1 = Fails network_error) by reflexivity.
  assert (H5 : err_name network_error <> "AbortError") by discriminate.
  assert (H6 : 0%nat ∈ env_sleep_cancels e1) by (repeat constructor).
  assert (H7 : Forall (eq 0%nat) (env_cancels e2)) by (repeat constructor).
  assert (H8 : env_timer e2 && timer_armed rc = false) by reflexivity.
  assert (H9 : env_outcome e2 = Fulfils (reply 200 (VNum 7))) by reflexivity.
  assert (H10 : raw_ok (reply 200 (VNum 7)) = true) by reflexivity.
  destruct (cancel_during_backoff_does_not_stop_the_retry rc e1 e2 c 0 network_error
              (reply 200 (VNum 7)) H1 H2 H3 H4 H5 H6 H7 H8 H9 H10)
    as (_ & Hcalls & Hfired & Hlive).
  split; [exact H1|]. split; [exact H2|]. split; [exact H3|]. split; [exact H4|].
  split; [exact H5|]. split; [exact H6|]. split; [exact H7|]. split; [exact H8|].
  split; [exact H9|]. split; [exact H10|]. split; [vm_compute; reflexivity|].
  split; [exact Hcalls|]. split; [exact Hfired|exact Hlive].
Defined.
